(** * disk-read-experiment: the bounded-concurrency scheduler of [diskUsage]

    A shallow embedding of [src/disk_usage.js].  The JavaScript function
    [diskUsage(path, parallelism, debugLog)] closes over a result record, a
    counter [activeCount], an array [queue], a flag [completed] and the
    promise [resultPromise]; here these are the fields of [state], threaded
    explicitly.  The event loop is modelled with a FIFO microtask queue
    (promise reactions) and a list of pending filesystem calls, one of which
    is completed at a time in an order chosen by a schedule.

    JavaScript numbers are modelled by [Z] (all counters stay far below
    2^53); the two timestamps of the report are not modelled. *)

From Stdlib Require Import ZArith List String Bool Lia DecimalString.
From Stdlib Require Import Ascii DecimalPos.
Import ListNotations.
Open Scope Z_scope.
Set Warnings "-register-all".

(** ** The filesystem: a finite tree *)

Module Fs.

Inductive errno := ENOENT | ENOTDIR.

(** [Special] stands for every entry that is neither a regular file nor
    a directory (device, socket, fifo). *)
Inductive node :=
| File (bytes : Z)
| Special
| Dir (entries : list (string * node)).

(** A path is the list of its components below the filesystem root;
    [libPath.resolve(path, file)] is [path ++ [file]]. *)
Definition path := list string.

Fixpoint find_entry (es : list (string * node)) (name : string) : option node :=
  match es with
  | [] => None
  | (n, c) :: r => if String.eqb n name then Some c else find_entry r name
  end.

Fixpoint resolve (n : node) (p : path) : node + errno :=
  match p with
  | [] => inl n
  | c :: p' =>
      match n with
      | Dir es =>
          match find_entry es c with
          | Some m => resolve m p'
          | None => inr ENOENT
          end
      | _ => inr ENOTDIR
      end
  end.

(** What the code reads of an [fs.Stats] object; [size] is read for
    regular files only. *)
Record Stats := { isDirectory : bool; isFile : bool; size : Z }.

Definition stats_of (n : node) : Stats :=
  match n with
  | File b => {| isDirectory := false; isFile := true; size := b |}
  | Special => {| isDirectory := false; isFile := false; size := 0 |}
  | Dir _ => {| isDirectory := true; isFile := false; size := 0 |}
  end.


Definition stat (fs : node) (p : path) : Stats + errno :=
  match resolve fs p with
  | inl n => inl (stats_of n)
  | inr e => inr e
  end.

Definition readdir (fs : node) (p : path) : list string + errno :=
  match resolve fs p with
  | inl (Dir es) => inl (map fst es)
  | inl _ => inr ENOTDIR
  | inr e => inr e
  end.

(** Directory entries have pairwise distinct names, at every level. *)
Fixpoint names_distinct (l : list string) : bool :=
  match l with
  | [] => true
  | x :: r => negb (existsb (String.eqb x) r) && names_distinct r
  end.

Fixpoint well_formed (n : node) : bool :=
  match n with
  | Dir es =>
      names_distinct (map fst es)
      && (fix all (l : list (string * node)) : bool :=
            match l with
            | [] => true
            | (_, c) :: r => well_formed c && all r
            end) es
  | _ => true
  end.

End Fs.

(** ** Values of the program *)

(** The values a task can fail with: the [TypeError] of reading [exec] of
    [undefined], the error object of a failed [fs] call, or whatever the
    debug callback throws. *)
Inductive js_error :=
| TypeError
| SystemError (code : Fs.errno)
| Thrown (name : string).

Definition err_name (e : js_error) : string :=
  match e with
  | TypeError => "TypeError"
  | SystemError _ => "Error"
  | Thrown n => n
  end.

Inductive exec_fn := ExecRead | ExecStat.

(** A queued operation [{ path, exec }]. *)
Record op := mk_op { op_path : Fs.path; op_exec : exec_fn }.

Record DiskUsageReport := mk_report {
  r_path : Fs.path;
  r_parallelism : Z;
  r_maxActive : Z;
  r_size : Z;
  r_files : Z;
  r_directories : Z
}.

(** [resultPromise].  A fulfilled promise holds a reference to the shared
    [result] object, so its value is read from the state. *)
Inductive promise := Pending | Fulfilled | Rejected (err : js_error).

Definition promise_resolve (p : promise) : promise :=
  match p with Pending => Fulfilled | _ => p end.

Definition promise_reject (e : js_error) (p : promise) : promise :=
  match p with Pending => Rejected e | _ => p end.

(** Promise reactions waiting in the microtask queue:
    [JExec op] is [() => op.exec(op)], [JThen] the success handler of
    [tick], [JCatch err] its error handler. *)
Inductive job :=
| JExec (o : option op)
| JThen
| JCatch (err : js_error).

(** [Array.prototype.pop]: the last element, [undefined] on an empty array. *)
Definition array_pop {A} (a : list A) : option A * list A :=
  match rev a with
  | [] => (None, [])
  | x :: r => (Some x, rev r)
  end.

Definition string_of_Z (z : Z) : string := NilZero.string_of_int (Z.to_int z).

Section Scheduler.

(** The state the debug callback works on (a console, a log file). *)
Variable W : Type.

(** [debugLog(op, path, info)]: its effect on [W], and the value it
    throws if it does not return normally. *)
Definition callback := string -> Fs.path -> string -> W -> W * option js_error.

Record state := mk_state {
  result : DiskUsageReport;
  activeCount : Z;
  queue : list op;
  completed : bool;
  resultPromise : promise;
  microtasks : list job;
  pendingIO : list op;
  world : W
}.

Definition with_result f (s : state) :=
  mk_state (f (result s)) (activeCount s) (queue s) (completed s)
           (resultPromise s) (microtasks s) (pendingIO s) (world s).
Definition with_activeCount a (s : state) :=
  mk_state (result s) a (queue s) (completed s)
           (resultPromise s) (microtasks s) (pendingIO s) (world s).
Definition with_queue q (s : state) :=
  mk_state (result s) (activeCount s) q (completed s)
           (resultPromise s) (microtasks s) (pendingIO s) (world s).
Definition with_outcome c p (s : state) :=
  mk_state (result s) (activeCount s) (queue s) c
           p (microtasks s) (pendingIO s) (world s).
Definition with_microtasks m (s : state) :=
  mk_state (result s) (activeCount s) (queue s) (completed s)
           (resultPromise s) m (pendingIO s) (world s).
Definition with_pendingIO l (s : state) :=
  mk_state (result s) (activeCount s) (queue s) (completed s)
           (resultPromise s) (microtasks s) l (world s).
Definition with_world w (s : state) :=
  mk_state (result s) (activeCount s) (queue s) (completed s)
           (resultPromise s) (microtasks s) (pendingIO s) w.

Variable fs : Fs.node.
Variable path : Fs.path.
Variable parallelism : Z.
Variable debugLog : option callback.

Definition enqueueRead (p : Fs.path) (s : state) : state :=
  with_queue (queue s ++ [mk_op p ExecRead]) s.

Definition enqueueStat (p : Fs.path) (s : state) : state :=
  with_queue (queue s ++ [mk_op p ExecStat]) s.

Definition enqueue_job (j : job) (s : state) : state :=
  with_microtasks (microtasks s ++ [j]) s.

(** [tick], when it returns.  [depth] is the number of frames the stack
    has room for; [None] means that [tick] does not return: the stack is
    used up and [RangeError] is thrown.  The state the calls made until
    then leave behind is [tick_state], below, and the runs that go on
    from it are [reached]. *)
Fixpoint tick (depth : nat) (s : state) : option state :=
  match depth with
  | O => None
  | S d =>
      if completed s then Some s
      else if negb (parallelism =? 0) && (parallelism <=? activeCount s) then Some s
      else if (activeCount s =? 0) && (List.length (queue s) =? 0)%nat then
        Some (with_outcome true (promise_resolve (resultPromise s)) s)
      else
        let (o, q) := array_pop (queue s) in
        tick d (enqueue_job (JExec o)
                  (with_activeCount (activeCount s + 1) (with_queue q s)))
  end.

(** [debugLog && debugLog(kind, p, info)]; the second component is the
    value thrown, if any. *)
Definition call_debugLog (kind : string) (p : Fs.path) (info : string)
           (s : state) : state * option js_error :=
  match debugLog with
  | None => (s, None)
  | Some cb =>
      let (w, thrown) := cb kind p info (world s) in (with_world w s, thrown)
  end.

(** The bodies of the two async functions, from the point where the
    awaited filesystem call has completed.  The second component is
    [None] when the function's promise is fulfilled and [Some e] when it
    is rejected with [e]. *)
Definition readOp (p : Fs.path) (s : state) : state * option js_error :=
  match Fs.readdir fs p with
  | inr e => (s, Some (SystemError e))
  | inl files =>
      let (s1, thrown) :=
        call_debugLog "READ" p
          (string_of_Z (Z.of_nat (List.length files)) ++ " items")%string s in
      match thrown with
      | Some e => (s1, Some e)
      | None => (fold_left (fun acc file => enqueueStat (p ++ [file]) acc) files s1, None)
      end
  end.

Definition statOp (p : Fs.path) (s : state) : state * option js_error :=
  match Fs.stat fs p with
  | inr e => (s, Some (SystemError e))
  | inl stats =>
      if Fs.isDirectory stats then
        call_debugLog "STAT" p "DIR"
          (enqueueRead p
             (with_result (fun r => mk_report (r_path r) (r_parallelism r) (r_maxActive r)
                                      (r_size r) (r_files r) (r_directories r + 1)) s))
      else if Fs.isFile stats then
        call_debugLog "STAT" p (string_of_Z (Fs.size stats) ++ " bytes")%string
          (with_result (fun r => mk_report (r_path r) (r_parallelism r) (r_maxActive r)
                                   (r_size r + Fs.size stats) (r_files r + 1)
                                   (r_directories r)) s)
      else
        call_debugLog "STAT" p "---" s
  end.

Definition exec (o : op) (s : state) : state * option js_error :=
  match op_exec o with
  | ExecRead => readOp (op_path o) s
  | ExecStat => statOp (op_path o) s
  end.

(** One promise reaction. *)
Definition run_job (depth : nat) (j : job) (s : state) : option state :=
  match j with
  | JExec None => Some (enqueue_job (JCatch TypeError) s)
  | JExec (Some o) => Some (with_pendingIO (pendingIO s ++ [o]) s)
  | JThen => tick depth (with_activeCount (activeCount s - 1) s)
  | JCatch err =>
      let s1 := with_activeCount (activeCount s - 1) s in
      Some (if completed s1 then s1
            else with_outcome true (promise_reject err (resultPromise s1)) s1)
  end.

(** Removing the [i]-th element of a list. *)
Fixpoint remove_nth {A} (i : nat) (l : list A) : list A :=
  match l, i with
  | [], _ => []
  | _ :: r, O => r
  | x :: r, S i' => x :: remove_nth i' r
  end.

(** The filesystem call of the pending operation [o], at index [i],
    completes: the async function resumes and its promise settles. *)
Definition complete_io (i : nat) (o : op) (s : state) : state :=
  let (s1, r) := exec o (with_pendingIO (remove_nth i (pendingIO s)) s) in
  enqueue_job (match r with None => JThen | Some e => JCatch e end) s1.

(** One turn of the event loop: the oldest microtask if there is one,
    else the completion of the pending filesystem call number [i] (the
    first one if [i] is out of range).  [None]: nothing is left to do,
    or [tick] ran out of stack. *)
Definition loop_step (depth : nat) (i : nat) (s : state) : option state :=
  match microtasks s with
  | j :: js => run_job depth j (with_microtasks js s)
  | [] =>
      match nth_error (pendingIO s) i, pendingIO s with
      | Some o, _ => Some (complete_io i o s)
      | None, o :: _ => Some (complete_io 0 o s)
      | None, [] => None
      end
  end.

Definition idle (s : state) : bool :=
  match microtasks s, pendingIO s with
  | [], [] => true
  | _, _ => false
  end.

(** [n] turns of the event loop; [sched] chooses the filesystem call
    that completes next.  The loop stops early when it is idle. *)
Fixpoint run (depth n : nat) (sched : list nat) (s : state) : option state :=
  match n with
  | O => Some s
  | S n' =>
      if idle s then Some s
      else
        match loop_step depth (hd O sched) s with
        | Some s' =>
            run depth n'
                (match microtasks s with [] => tl sched | _ => sched end) s'
        | None => None
        end
  end.

Definition initial (w : W) : state :=
  mk_state (mk_report path parallelism 0 0 0 0) 0 [] false Pending [] [] w.

(** The synchronous part of [diskUsage]: seed the queue, call [tick]. *)
Definition start (depth : nat) (w : W) : option state :=
  tick depth (enqueueStat path (initial w)).

(** [diskUsage] followed by [n] turns of the event loop. *)
Definition diskUsage (depth n : nat) (sched : list nat) (w : W) : option state :=
  match start depth w with
  | Some s => run depth n sched s
  | None => None
  end.

End Scheduler.

Arguments result {W} _.
Arguments activeCount {W} _.
Arguments queue {W} _.
Arguments completed {W} _.
Arguments resultPromise {W} _.
Arguments microtasks {W} _.
Arguments pendingIO {W} _.
Arguments world {W} _.
Arguments mk_state {W}.
Arguments idle {W} _.
Arguments tick {W} parallelism depth s.
Arguments run_job {W} parallelism depth j s.
Arguments complete_io {W} fs debugLog i o s.
Arguments loop_step {W} fs parallelism debugLog depth i s.
Arguments run {W} fs parallelism debugLog depth n sched s.
Arguments start {W} path parallelism depth w.
Arguments diskUsage {W} fs path parallelism debugLog depth n sched w.
Arguments initial {W} path parallelism w.
Arguments with_result {W} f s.
Arguments with_activeCount {W} a s.
Arguments with_queue {W} q s.
Arguments with_outcome {W} c p s.
Arguments with_microtasks {W} m s.
Arguments with_pendingIO {W} l s.
Arguments with_world {W} w s.
Arguments enqueueRead {W} p s.
Arguments enqueueStat {W} p s.
Arguments enqueue_job {W} j s.
Arguments call_debugLog {W} debugLog kind p info s.
Arguments readOp {W} fs debugLog p s.
Arguments statOp {W} fs debugLog p s.
Arguments exec {W} fs debugLog o s.

(** ** Sample inputs *)

Module Samples.

(** A callback that appends its arguments to a log. *)
Definition logger : callback (list (string * Fs.path * string)) :=
  fun kind p info w => (w ++ [(kind, p, info)], None).

(** A callback that throws on every call. *)
Definition thrower : callback unit :=
  fun _ _ _ w => (w, Some (Thrown "Boom")).

Definition empty_dir : Fs.node := Fs.Dir [].

(** One file of 100 bytes and one empty subdirectory. *)
Definition small_tree : Fs.node :=
  Fs.Dir [("a.txt"%string, Fs.File 100); ("sub"%string, Fs.Dir [])].

Definition deeper_tree : Fs.node :=
  Fs.Dir [("a"%string, Fs.File 10);
          ("d"%string, Fs.Dir [("b"%string, Fs.File 20);
                               ("e"%string, Fs.Dir [("c"%string, Fs.Special)])]);
          ("z"%string, Fs.File 5)].

(** The state in which [diskUsage(path, 2)] calls [tick] for the second
    time: the root's stat has been launched and the queue is empty. *)
Definition state_after_first_launch : state unit :=
  mk_state (mk_report [] 2 0 0 0 0) 1 [] false Pending
           [JExec (Some (mk_op [] ExecStat))] [] tt.

Definition state_after_second_launch : state unit :=
  mk_state (mk_report [] 2 0 0 0 0) 2 [] false Pending
           [JExec (Some (mk_op [] ExecStat)); JExec None] [] tt.

End Samples.

(** ** What a traversal should find *)

Fixpoint count_files (n : Fs.node) : Z :=
  match n with
  | Fs.File _ => 1
  | Fs.Special => 0
  | Fs.Dir es =>
      (fix sum (l : list (string * Fs.node)) : Z :=
         match l with
         | [] => 0
         | (_, c) :: r => count_files c + sum r
         end) es
  end.

(** The directories of a tree, its root included. *)
Fixpoint count_directories (n : Fs.node) : Z :=
  match n with
  | Fs.File _ => 0
  | Fs.Special => 0
  | Fs.Dir es =>
      1 + (fix sum (l : list (string * Fs.node)) : Z :=
             match l with
             | [] => 0
             | (_, c) :: r => count_directories c + sum r
             end) es
  end.

Fixpoint total_size (n : Fs.node) : Z :=
  match n with
  | Fs.File b => b
  | Fs.Special => 0
  | Fs.Dir es =>
      (fix sum (l : list (string * Fs.node)) : Z :=
         match l with
         | [] => 0
         | (_, c) :: r => total_size c + sum r
         end) es
  end.

(** The operations a traversal runs on a tree: one stat per entry and
    one read per directory. *)
Fixpoint visits (n : Fs.node) : Z :=
  match n with
  | Fs.File _ => 1
  | Fs.Special => 1
  | Fs.Dir es =>
      2 + (fix sum (l : list (string * Fs.node)) : Z :=
             match l with
             | [] => 0
             | (_, c) :: r => visits c + sum r
             end) es
  end.

(** The three running totals of the report, handled uniformly. *)
Inductive field := Files | Directories | Size.

Definition get (f : field) (r : DiskUsageReport) : Z :=
  match f with
  | Files => r_files r
  | Directories => r_directories r
  | Size => r_size r
  end.

Definition measure (f : field) (n : Fs.node) : Z :=
  match f with
  | Files => count_files n
  | Directories => count_directories n
  | Size => total_size n
  end.

Definition sum_of {A} (g : A -> Z) (l : list A) : Z :=
  fold_right (fun x acc => g x + acc) 0 l.

(** The part of the state a scheduling decision can depend on:
    everything but the world of the debug callback. *)
Definition scheduler_view {W} (s : state W) :=
  (result s, activeCount s, queue s, completed s, resultPromise s,
   microtasks s, pendingIO s).

(** ** Vocabulary of the properties *)

(** The callback returns normally on every call. *)
Definition returns_normally {W} (cb : callback W) : Prop :=
  forall kind p info w, snd (cb kind p info w) = None.

(** The failure announced for a missing root: an error named
    [InvalidArgument]. *)
Definition fails_with_InvalidArgument {W} (s : state W) : Prop :=
  exists e, resultPromise s = Rejected e /\ err_name e = "InvalidArgument"%string.

Section Vocabulary.

Variable W : Type.
Variable fs : Fs.node.
Variable path : Fs.path.
Variable parallelism : Z.

(** The state after [queue.pop()], [activeCount++] and the scheduling
    of [op.exec(op)]. *)
Definition launch (o : option op) (q : list op) (s : state W) : state W :=
  enqueue_job (JExec o) (with_activeCount (activeCount s + 1) (with_queue q s)).

(** The state after [completed = true; resultPromise.resolve(result)]. *)
Definition finish (s : state W) : state W :=
  with_outcome true (promise_resolve (resultPromise s)) s.

Definition below_ceiling (s : state W) : Prop :=
  parallelism = 0 \/ activeCount s < parallelism.

Definition is_exec (j : job) : bool :=
  match j with JExec _ => true | _ => false end.

(** From [s] to [s'] nothing was launched: nothing left the queue,
    [activeCount] did not grow, and no call of an operation was
    scheduled. *)
Definition nothing_launched (s s' : state W) : Prop :=
  completed s' = true
  /\ resultPromise s' = resultPromise s
  /\ activeCount s' <= activeCount s
  /\ (exists added, queue s' = queue s ++ added)
  /\ (List.length (filter is_exec (microtasks s'))
      <= List.length (filter is_exec (microtasks s)))%nat.

(** *** Invariants of a run *)

(** Every launched task whose handler has not run yet is either a
    microtask or a pending filesystem call, and [activeCount] counts
    exactly those. *)
Record Inv (s : state W) : Prop := {
  inv_count :
    activeCount s = Z.of_nat (List.length (microtasks s) + List.length (pendingIO s));
  inv_ceiling : 0 < parallelism -> activeCount s <= parallelism;
  inv_flag : completed s = true <-> resultPromise s <> Pending;
  inv_done : resultPromise s = Fulfilled -> activeCount s = 0 /\ queue s = []
}.

(** What the subtree an operation stands for will add to field [f]. *)
Definition op_weight (f : field) (o : op) : Z :=
  match op_exec o, Fs.resolve fs (op_path o) with
  | ExecStat, inl n => measure f n
  | ExecRead, inl (Fs.Dir es) => sum_of (fun e => measure f (snd e)) es
  | _, _ => 0
  end.

Definition job_weight (f : field) (j : job) : Z :=
  match j with
  | JExec (Some o) => op_weight f o
  | _ => 0
  end.

Definition pending_weight (f : field) (s : state W) : Z :=
  sum_of (op_weight f) (queue s) + sum_of (job_weight f) (microtasks s)
  + sum_of (op_weight f) (pendingIO s).

Definition expected (f : field) : Z := op_weight f (mk_op path ExecStat).

Definition is_catch (j : job) : bool :=
  match j with JCatch _ => true | _ => false end.

(** A failure has been reported or is about to be. *)
Definition failing (s : state W) : Prop :=
  (exists e, resultPromise s = Rejected e) \/ existsb is_catch (microtasks s) = true.

(** Unless the run is failing, what is counted and what is still to be
    visited add up to the whole tree below [path]. *)
Definition Totals (s : state W) : Prop :=
  failing s \/ forall f, get f (result s) + pending_weight f s = expected f.

Definition is_then (j : job) : bool :=
  match j with JThen => true | _ => false end.

(** A reaction that is, or will enqueue, an error handler. *)
Definition is_bad (j : job) : bool :=
  match j with JExec None | JCatch _ => true | _ => false end.

(** The run has failed, or holds a reaction that will make it fail
    before any task can succeed. *)
Definition Doomed (s : state W) : Prop :=
  (completed s = true /\ exists e, resultPromise s = Rejected e)
  \/ (completed s = false /\ resultPromise s = Pending /\ 0 < activeCount s
      /\ existsb is_then (microtasks s) = false
      /\ existsb is_bad (microtasks s) = true).

(** Only the stat of the root is ever scheduled, and no task has ever
    succeeded. *)
Record Fruitless (s : state W) : Prop := {
  fr_promise : resultPromise s <> Fulfilled;
  fr_then : existsb is_then (microtasks s) = false;
  fr_micro : forall o, In (JExec (Some o)) (microtasks s) -> o = mk_op path ExecStat;
  fr_io : forall o, In o (pendingIO s) -> o = mk_op path ExecStat
}.

(** The operation can be carried out: its path exists, and is a
    directory if the operation reads one. *)
Definition valid_op (o : op) : Prop :=
  match op_exec o, Fs.resolve fs (op_path o) with
  | ExecStat, inl _ => True
  | ExecRead, inl (Fs.Dir _) => True
  | _, _ => False
  end.

(** The operations still to be run for [o]: itself and all it leads to. *)
Definition op_visits (o : op) : Z :=
  match op_exec o, Fs.resolve fs (op_path o) with
  | ExecStat, inl n => visits n
  | ExecRead, inl (Fs.Dir es) => 1 + sum_of (fun e => visits (snd e)) es
  | _, _ => 0
  end.

(** Under [parallelism = 1]: one task has just been launched. *)
Definition serial_ready (o : op) (s : state W) : Prop :=
  activeCount s = 1 /\ completed s = false /\ resultPromise s = Pending
  /\ microtasks s = [JExec (Some o)] /\ pendingIO s = [].

(** The same scheduler state, with the callback's world forgotten. *)
Definition erase (s : state W) : state unit :=
  mk_state (result s) (activeCount s) (queue s) (completed s)
           (resultPromise s) (microtasks s) (pendingIO s) tt.

End Vocabulary.

Arguments launch {W} o q s.
Arguments finish {W} s.
Arguments below_ceiling {W} parallelism s.
Arguments nothing_launched {W} s s'.
Arguments Inv {W} parallelism s.
Arguments pending_weight {W} fs f s.
Arguments failing {W} s.
Arguments Totals {W} fs path s.
Arguments Doomed {W} s.
Arguments Fruitless {W} path s.
Arguments erase {W} s.
Arguments serial_ready {W} o s.

(** ** Further vocabulary *)

(** No regular file of the tree has a negative size. *)
Fixpoint sizes_nonneg (n : Fs.node) : bool :=
  match n with
  | Fs.File b => 0 <=? b
  | Fs.Special => true
  | Fs.Dir es =>
      (fix all (l : list (string * Fs.node)) : bool :=
         match l with
         | [] => true
         | (_, c) :: r => sizes_nonneg c && all r
         end) es
  end.

(** The fields of the report that [diskUsage] sets once and for all. *)
Definition report_header (r : DiskUsageReport) : Fs.path * Z * Z :=
  (r_path r, r_parallelism r, r_maxActive r).

(** The three counters of [r] are at most those of [r']. *)
Definition counters_le (r r' : DiskUsageReport) : Prop :=
  r_files r <= r_files r' /\ r_directories r <= r_directories r'.

(** An error handler that carries anything but the [TypeError] of
    [undefined.exec]. *)
Definition is_other_catch (j : job) : bool :=
  match j with
  | JCatch TypeError => false
  | JCatch _ => true
  | _ => false
  end.

(** Under a ceiling of two or more: the run is rejected with the
    [TypeError], or is pending with that rejection on its way and nothing
    that could come before it. *)
Definition Masked {W} (s : state W) : Prop :=
  (completed s = true /\ resultPromise s = Rejected TypeError)
  \/ (completed s = false /\ resultPromise s = Pending /\ 0 < activeCount s
      /\ existsb is_then (microtasks s) = false
      /\ existsb is_bad (microtasks s) = true
      /\ existsb is_other_catch (microtasks s) = false).

Section CountingVocabulary.

Variable W : Type.
Variable fs : Fs.node.
Variable path : Fs.path.

Definition job_visits (j : job) : Z :=
  match j with
  | JExec (Some o) => op_visits fs o
  | _ => 0
  end.

(** The operations still to be run: queued, scheduled or in flight. *)
Definition pending_visits (s : state W) : Z :=
  sum_of (op_visits fs) (queue s) + sum_of job_visits (microtasks s)
  + sum_of (op_visits fs) (pendingIO s).

(** Unless the run is failing, the calls of the callback so far, counted
    by [calls] from the world [w0] on, and the operations still to be run
    add up to the operations of the whole traversal. *)
Definition Logged (calls : W -> Z) (w0 : W) (s : state W) : Prop :=
  failing s
  \/ calls (world s) + pending_visits s
     = calls w0 + op_visits fs (mk_op path ExecStat).

End CountingVocabulary.

Arguments pending_visits {W} fs s.
Arguments Logged {W} fs path calls w0 s.

(** ** Runs that use up the stack

    When [tick] finds no frame left, [RangeError] is thrown at that call
    and unwinds the calls of [tick] above it, each of which had nothing
    left to do but that call.  What the calls did before stays done: the
    state is the one they left, the reactions they scheduled are in the
    microtask queue, and the event loop runs them as in any other run.
    Out of the synchronous part of [diskUsage] the error rejects the
    promise of the [async] function, the one the caller holds, while
    [resultPromise] is left to the reactions; out of a reaction it
    rejects a promise nobody holds. *)

(** The state [tick] leaves on a stack of [depth] frames, whether it
    returns there or throws there. *)
Fixpoint tick_state {W} (parallelism : Z) (depth : nat) (s : state W) : state W :=
  match depth with
  | O => s
  | S d =>
      if completed s then s
      else if negb (parallelism =? 0) && (parallelism <=? activeCount s) then s
      else if (activeCount s =? 0) && (List.length (queue s) =? 0)%nat then finish s
      else
        let (o, q) := array_pop (queue s) in
        tick_state parallelism d (launch o q s)
  end.

(** One promise reaction, whether its call of [tick] returns or not. *)
Definition run_job_state {W} (parallelism : Z) (depth : nat) (j : job) (s : state W)
  : state W :=
  match j with
  | JExec None => enqueue_job (JCatch TypeError) s
  | JExec (Some o) => with_pendingIO (pendingIO s ++ [o]) s
  | JThen => tick_state parallelism depth (with_activeCount (activeCount s - 1) s)
  | JCatch err =>
      let s1 := with_activeCount (activeCount s - 1) s in
      if completed s1 then s1
      else with_outcome true (promise_reject err (resultPromise s1)) s1
  end.

(** One turn of the event loop, as [loop_step]; [None] only when nothing
    is left to do. *)
Definition turn {W} (fs : Fs.node) (parallelism : Z) (debugLog : option (callback W))
           (depth : nat) (i : nat) (s : state W) : option (state W) :=
  match microtasks s with
  | j :: js => Some (run_job_state parallelism depth j (with_microtasks js s))
  | [] =>
      match nth_error (pendingIO s) i, pendingIO s with
      | Some o, _ => Some (complete_io fs debugLog i o s)
      | None, o :: _ => Some (complete_io fs debugLog 0 o s)
      | None, [] => None
      end
  end.

(** [n] turns of the event loop, as [run]. *)
Fixpoint turns {W} (fs : Fs.node) (parallelism : Z) (debugLog : option (callback W))
         (depth n : nat) (sched : list nat) (s : state W) : state W :=
  match n with
  | O => s
  | S n' =>
      match turn fs parallelism debugLog depth (hd O sched) s with
      | Some s' =>
          turns fs parallelism debugLog depth n'
                (match microtasks s with [] => tl sched | _ => sched end) s'
      | None => s
      end
  end.

(** The state [n] turns of the event loop after the call
    [diskUsage(path, parallelism, debugLog)], made with [d] frames of
    stack left, the reactions having [k] frames each. *)
Definition reached {W} (fs : Fs.node) (path : Fs.path) (parallelism : Z)
           (debugLog : option (callback W)) (d k n : nat) (sched : list nat) (w : W)
  : state W :=
  turns fs parallelism debugLog k n sched
        (tick_state parallelism d (enqueueStat path (initial path parallelism w))).

(** Whether the synchronous part of the call throws [RangeError], which
    is then what the promise the caller holds is rejected with. *)
Definition overflows {W} (path : Fs.path) (parallelism : Z) (d : nat) (w : W) : bool :=
  match start path parallelism d w with
  | None => true
  | Some _ => false
  end.

(** ** The command-line programs

    [src/bin/experiment.js] and [src/bin/du.js], from the point where
    [commander] has read the command line.  The arguments of the
    definitions below are the values the programs start from: for
    [experiment] the text of the [--parallelisms] option, for [du] the
    number [Number(program.parallelism)]; for both the path as it was
    given ([program.args[0] || process.cwd()], a string the programs
    print as it is) together with the place in the filesystem it names.
    The characters of a string are code units below 256.  What
    [console.error] writes is not part of the output: it is the reason
    the ending carries.  The durations, which come from the two
    timestamps of a report, are arguments. *)

Module Js.

(** The characters below 256 among JavaScript's white space and line
    terminators: tab, line feed, vertical tab, form feed, carriage
    return, space and no-break space. *)
Definition is_white_space (c : ascii) : bool :=
  existsb (Ascii.eqb c)
          ["009"%char; "010"%char; "011"%char; "012"%char; "013"%char; " "%char;
           "160"%char].

Fixpoint trimStart (s : string) : string :=
  match s with
  | EmptyString => EmptyString
  | String c r => if is_white_space c then trimStart r else s
  end.

Fixpoint trimEnd (s : string) : string :=
  match s with
  | EmptyString => EmptyString
  | String c r =>
      match trimEnd r with
      | EmptyString => if is_white_space c then EmptyString else String c EmptyString
      | r' => String c r'
      end
  end.

(** [s.trim()] *)
Definition trim (s : string) : string := trimEnd (trimStart s).

Definition digit (c : ascii) : option Z :=
  let n := Z.of_nat (nat_of_ascii c) in
  if (48 <=? n) && (n <=? 57) then Some (n - 48) else None.

(** The value of the longest prefix of decimal digits, continuing from
    [acc]. *)
Fixpoint digits (s : string) (acc : Z) : Z :=
  match s with
  | EmptyString => acc
  | String c r =>
      match digit c with
      | Some k => digits r (10 * acc + k)
      | None => acc
      end
  end.

Definition starts_with_digit (s : string) : bool :=
  match s with
  | EmptyString => false
  | String c _ => match digit c with Some _ => true | None => false end
  end.

(** The numbers of JavaScript, as far as the two programs can tell them
    apart: they test a number for [NaN], for zero and against integers,
    and they print it.  An integer stands for itself ([-0] is [0] in all
    of these); a number that is not an integer is kept as the integer
    just below it and the text JavaScript prints for it. *)
Inductive number :=
| NaN
| Integer (z : Z)
| Fraction (below : Z) (shown : string)
| Infinity (negative : bool).

(** The Number value for an integer: the integer itself up to 53 bits,
    beyond that the nearest integer with 53 significant bits, a tie going
    to the even one, and an infinity from 2^1024 - 2^970 on. *)
Definition nearest_double (z : Z) : number :=
  let a := Z.abs z in
  let e := Z.log2 a - 52 in
  if e <=? 0 then Integer z
  else
    let q := Z.shiftr a e in
    let r := Z.land a (Z.ones e) in
    let half := Z.shiftl 1 (e - 1) in
    let q' := if (half <? r) || ((r =? half) && Z.odd q) then q + 1 else q in
    let m := Z.shiftl q' e in
    if 2 ^ 1024 <=? m then Infinity (z <? 0) else Integer (Z.sgn z * m).

(** [parseInt(s, 10)]: leading white space, an optional sign, then the
    longest prefix of digits, read as a number; [NaN] without a digit. *)
Definition parseInt (s : string) : number :=
  let t := trimStart s in
  let (negative, u) :=
    match t with
    | String c r =>
        if Ascii.eqb c "-" then (true, r)
        else if Ascii.eqb c "+" then (false, r)
        else (false, t)
    | EmptyString => (false, t)
    end in
  if starts_with_digit u
  then nearest_double (if negative then - digits u 0 else digits u 0)
  else NaN.

Definition isNaN (x : number) : bool :=
  match x with NaN => true | _ => false end.

(** [x < n] and [x <= n] for an integer [n]. *)
Definition lt (x : number) (n : Z) : bool :=
  match x with
  | NaN => false
  | Integer z => z <? n
  | Fraction below _ => below <? n
  | Infinity negative => negative
  end.

Definition le (x : number) (n : Z) : bool :=
  match x with
  | NaN => false
  | Integer z => z <=? n
  | Fraction below _ => below <? n
  | Infinity negative => negative
  end.

(** Whether [x] counts as true: every number but [NaN] and zero. *)
Definition truthy (x : number) : bool :=
  match x with
  | NaN => false
  | Integer z => negb (z =? 0)
  | _ => true
  end.

(** [x || 0] *)
Definition or_zero (x : number) : number :=
  if truthy x then x else Integer 0.

(** Whether the integer [v] is read as the number [z]. *)
Definition rounds_to (z v : Z) : bool :=
  match nearest_double v with
  | Integer z' => z' =? z
  | _ => false
  end.

(** The digits [s] for which [s * 10 ^ j] is read as [z], if there are
    any: of the two multiples of [10 ^ j] around [z], the one that is
    read as [z], the nearer one if both are, the even one if they are as
    near. *)
Definition shortest_at (z : Z) (j : Z) : option Z :=
  let p := 10 ^ j in
  let s := z / p in
  let r := z mod p in
  let low := rounds_to z (s * p) in
  let high := rounds_to z ((s + 1) * p) in
  if low && high then
    Some (if 2 * r <? p then s else if p <? 2 * r then s + 1
          else if Z.even s then s else s + 1)
  else if low then Some s
  else if high then Some (s + 1)
  else None.

(** The fewest digits that are read as [z], with the number of zeros to
    put after them: the search goes down from [j] zeros. *)
Fixpoint shortest (j : nat) (z : Z) : Z * nat :=
  match j with
  | O => (z, O)
  | S j' =>
      match shortest_at z (Z.of_nat j) with
      | Some s => (s, j)
      | None => shortest j' z
      end
  end.

Fixpoint zeros (n : nat) : string :=
  match n with
  | O => EmptyString
  | S n' => String "0" (zeros n')
  end.

(** The text of a positive integer: all its digits below 2^53, where
    every integer is a number of its own; beyond, the fewest digits that
    are read as the same number, followed by zeros up to 21 digits in
    all and written with an exponent from there on. *)
Definition positive_to_string (z : Z) : string :=
  if z <? 2 ^ 53 then string_of_Z z
  else
    let (s, j) := shortest 308 z in
    let ds := string_of_Z s in
    let n := (String.length ds + j)%nat in
    if (n <=? 21)%nat then (ds ++ zeros j)%string
    else
      match ds with
      | String c EmptyString => (String c "e+" ++ string_of_Z (Z.of_nat n - 1))%string
      | String c rest =>
          (String c "." ++ rest ++ "e+" ++ string_of_Z (Z.of_nat n - 1))%string
      | EmptyString => EmptyString
      end.

(** [`${x}`] *)
Definition to_string (x : number) : string :=
  match x with
  | NaN => "NaN"
  | Integer z =>
      if z <? 0 then ("-" ++ positive_to_string (- z))%string
      else positive_to_string z
  | Fraction _ shown => shown
  | Infinity false => "Infinity"
  | Infinity true => "-Infinity"
  end.

(** [s.split(' ')] *)
Fixpoint split (s : string) : list string :=
  match s with
  | EmptyString => [EmptyString]
  | String c r =>
      if Ascii.eqb c " " then EmptyString :: split r
      else match split r with
           | h :: t => String c h :: t
           | [] => [String c EmptyString]
           end
  end.

(** [a.join(' ')] *)
Fixpoint join (a : list string) : string :=
  match a with
  | [] => EmptyString
  | [x] => x
  | x :: r => (x ++ " " ++ join r)%string
  end.

Definition newline : string := String "010"%char EmptyString.

Definition tab : string := String "009"%char EmptyString.

(** [s.slice(0, n)] *)
Fixpoint slice (n : nat) (s : string) : string :=
  match n, s with
  | S n', String c r => String c (slice n' r)
  | _, _ => EmptyString
  end.

Fixpoint spaces (n : nat) : string :=
  match n with
  | O => EmptyString
  | S n' => String " " (spaces n')
  end.

(** [s.padEnd(n)] *)
Definition padEnd (n : nat) (s : string) : string :=
  (s ++ spaces (n - String.length s))%string.

(** [Math.round(x / 1000)] for an integer [x]. *)
Definition round_thousandth (x : Z) : Z := (x + 500) / 1000.

(** The digits of [s] in groups of three, from the right. *)
Fixpoint group_digits (fuel : nat) (s : string) : string :=
  match fuel with
  | O => s
  | S fuel' =>
      let n := String.length s in
      if (n <=? 3)%nat then s
      else (group_digits fuel' (slice (n - 3) s) ++ "," ++ substring (n - 3) 3 s)%string
  end.

(** [new Intl.NumberFormat('en-US').format(x)] for an integer [x]. *)
Definition format_en_US (x : Z) : string :=
  let body := string_of_Z (Z.abs x) in
  let grouped := group_digits (String.length body) body in
  if x <? 0 then String "-" grouped else grouped.

End Js.

(** What a caller that awaits [diskUsage] gets. *)
Inductive awaited :=
| Resolves (report : DiskUsageReport)
| Rejects (err : js_error)
| Overflows
| NeverSettles.

Definition is_pending (p : promise) : bool :=
  match p with Pending => true | _ => false end.

(** The event loop up to the moment the promise settles: the turns of
    [run], which stop as soon as the promise is no longer pending, since
    the reaction of the awaiting caller comes before any further
    filesystem completion. *)
Fixpoint settle {W} (fs : Fs.node) (parallelism : Z) (debugLog : option (callback W))
         (depth n : nat) (sched : list nat) (s : state W) : option (state W) :=
  match n with
  | O => Some s
  | S n' =>
      if idle s || negb (is_pending (resultPromise s)) then Some s
      else
        match loop_step fs parallelism debugLog depth (hd O sched) s with
        | Some s' =>
            settle fs parallelism debugLog depth n'
                   (match microtasks s with [] => tl sched | _ => sched end) s'
        | None => None
        end
  end.

(** [await diskUsage(path, parallelism, debugLog)], on a stack of [d]
    frames and within [n] turns of the event loop.  A [RangeError] out of
    the synchronous part rejects the promise of the [async] function; one
    out of a later call of [tick] is thrown inside a reaction where no
    caller can see it, and a run still pending and busy after [n] turns
    has not been followed far enough: both are [None].  The second
    component is the world the callback has left by then. *)
Definition await_diskUsage {W} (fs : Fs.node) (path : Fs.path) (parallelism : Z)
           (debugLog : option (callback W)) (d n : nat) (sched : list nat) (w : W)
  : option (awaited * W) :=
  match start path parallelism d w with
  | None => Some (Overflows, w)
  | Some s0 =>
      match settle fs parallelism debugLog d n sched s0 with
      | None => None
      | Some s =>
          match resultPromise s with
          | Fulfilled => Some (Resolves (result s), world s)
          | Rejected e => Some (Rejects e, world s)
          | Pending => if idle s then Some (NeverSettles, world s) else None
          end
      end
  end.

(** A path as the string the program prints: [/] for the root, else
    the components, each after a [/]. *)
Fixpoint render_components (p : Fs.path) : string :=
  match p with
  | [] => EmptyString
  | c :: r => ("/" ++ c ++ render_components r)%string
  end.

Definition render (p : Fs.path) : string :=
  match p with
  | [] => "/"%string
  | _ => render_components p
  end.

(** [diskUsage] reads its [parallelism] in one place, the test
    [parallelism && parallelism <= activeCount] of [tick], where
    [activeCount] is an integer that is never negative; besides, it
    stores it in the report.  [at_ceiling x] is that test for any
    number, and [ceiling_of x] the integer [parallelism] under which the
    test comes out the same at every count (lemma [at_ceiling_of]): a
    number that is not an integer is reached where the integer just above
    is; one below zero is reached at once, as [-1] is; [Infinity] is
    never reached, which is what no ceiling means. *)
Definition at_ceiling (x : Js.number) (activeCount : Z) : bool :=
  Js.truthy x && Js.le x activeCount.

Definition ceiling_of (x : Js.number) : Z :=
  match x with
  | Js.NaN => 0
  | Js.Integer z => z
  | Js.Fraction below _ => if below <? 0 then -1 else below + 1
  | Js.Infinity negative => if negative then -1 else 0
  end.

Fixpoint same_path (p q : Fs.path) : bool :=
  match p, q with
  | [], [] => true
  | x :: p', y :: q' => String.eqb x y && same_path p' q'
  | _, _ => false
  end.

(** Why a program ends through [process.exit(1)]. *)
Inductive failure :=
| Rejection (err : js_error)
| StackOverflow
| InvalidValue (message : string).

Module Experiment.

(** The callback of [map]: one item of the [--parallelisms] option. *)
Definition parse_item (item : string) : Js.number + string :=
  let value := Js.parseInt (Js.trim item) in
  if Js.isNaN value || Js.lt value 0
  then inr ("Invalid parallelism value: " ++ item)%string
  else inl value.

Fixpoint map_items (items : list string) : list Js.number + string :=
  match items with
  | [] => inl []
  | item :: rest =>
      match parse_item item with
      | inr message => inr message
      | inl value =>
          match map_items rest with
          | inr message => inr message
          | inl values => inl (value :: values)
          end
      end
  end.

(** [(program.parallelisms || '').split(' ').map(...)]. *)
Definition parallelisms (given : string) : list Js.number + string :=
  map_items (Js.split given).

(** The two pieces [process.stdout.write] puts on the line of one run. *)
Definition running (parallelism : Js.number) : string :=
  ("    Running with " ++ Js.to_string parallelism ++ "...")%string.

Definition measured (duration maxActive : Z) : string :=
  (" " ++ string_of_Z duration ++ "ms (max active: " ++ string_of_Z maxActive ++ ")"
   ++ Js.newline)%string.

(** The second loop: one line, parallelism and duration with a tab
    between, for each item of [finalReport]. *)
Fixpoint table (finalReport : list (Js.number * Z)) : string :=
  match finalReport with
  | [] => EmptyString
  | item :: rest =>
      (Js.to_string (fst item) ++ Js.tab ++ string_of_Z (snd item) ++ Js.newline
       ++ table rest)%string
  end.

(** How the program ends: its callback returns, the handler of [catch]
    calls [process.exit(1)], or the promise it awaits never settles and
    nothing more is written. *)
Inductive ending :=
| Returns
| Exit1 (why : failure)
| Stalls.

(** The [for] loop over the parallelisms, and what follows it: one run
    after the other, each awaited before the next starts.  [schedule i]
    is the completion order of run number [i] and [duration i] the time
    the clock gives it; [out] is what has been written to the standard
    output. *)
Fixpoint loop (fs : Fs.node) (path : Fs.path) (d n : nat) (schedule : nat -> list nat)
         (duration : nat -> Z) (i : nat) (values : list Js.number)
         (finalReport : list (Js.number * Z)) (out : string)
  : option (string * ending) :=
  match values with
  | [] =>
      Some ((out ++ "Done" ++ Js.newline ++ Js.newline ++ Js.newline
             ++ table finalReport)%string, Returns)
  | parallelism :: rest =>
      let out := (out ++ running parallelism)%string in
      match await_diskUsage fs path (ceiling_of parallelism) (@None (callback unit)) d n
                            (schedule i) tt with
      | None => None
      | Some (Resolves report, _) =>
          loop fs path d n schedule duration (S i) rest
               (finalReport ++ [(parallelism, duration i)])
               (out ++ measured (duration i) (r_maxActive report))
      | Some (Rejects err, _) => Some (out, Exit1 (Rejection err))
      | Some (Overflows, _) => Some (out, Exit1 StackOverflow)
      | Some (NeverSettles, _) => Some (out, Stalls)
      end
  end.

(** The first line written: the path as it was given. *)
Definition announce (raw : string) (values : list Js.number) : string :=
  ("Performing an experiment against " ++ raw ++ ", with parallelisms: "
   ++ Js.join (map Js.to_string values) ++ Js.newline)%string.

(** The program: [given] is the text of the option, [raw] the path as it
    was given and [path] the place it names. *)
Definition main (fs : Fs.node) (given raw : string) (path : Fs.path) (d n : nat)
           (schedule : nat -> list nat) (duration : nat -> Z)
  : option (string * ending) :=
  match parallelisms given with
  | inr message => Some (EmptyString, Exit1 (InvalidValue message))
  | inl values =>
      loop fs path d n schedule duration 0 values [] (announce raw values)
  end.

End Experiment.

Module Du.

(** The line the debug callback of [du] writes. *)
Definition debug_line (op path info : string) : string :=
  ("    " ++ op ++ " " ++ Js.padEnd 150 (Js.slice 150 path) ++ " [" ++ info ++ "]")%string.

(** The path [diskUsage] hands to the callback: for the stat and the
    read of the root the path as it was given, which is what was queued;
    for every entry below the resolved path, which is what
    [libPath.resolve(path, file)] makes. *)
Definition shown_path (raw : string) (path p : Fs.path) : string :=
  if same_path p path then raw else render p.

Definition debugLog (raw : string) (path : Fs.path) : callback (list string) :=
  fun op p info out => (out ++ [debug_line op (shown_path raw path p) info], None).

(** The values the properties of the report object can have. *)
Inductive js_value :=
| Undefined
| Number (x : Js.number)
| Text (s : string).

(** [report[name]]: the report has the properties [diskUsage] gave it, and
    no other.  Its [parallelism] is the number the program passed, and
    its [path] the resolved one.  The two timestamps are passed
    separately. *)
Definition property (parallelism : Js.number) (report : DiskUsageReport) (name : string)
  : js_value :=
  if String.eqb name "path" then Text (render (r_path report))
  else if String.eqb name "parallelism" then Number parallelism
  else if String.eqb name "maxActive" then Number (Js.Integer (r_maxActive report))
  else if String.eqb name "size" then Number (Js.Integer (r_size report))
  else if String.eqb name "files" then Number (Js.Integer (r_files report))
  else if String.eqb name "directories" then Number (Js.Integer (r_directories report))
  else Undefined.

(** [`${v}`] *)
Definition to_string (v : js_value) : string :=
  match v with
  | Undefined => "undefined"
  | Number x => Js.to_string x
  | Text s => s
  end.

(** [v.length]: reading a property of [undefined] throws. *)
Definition length_of (v : js_value) : js_value + js_error :=
  match v with
  | Undefined => inr TypeError
  | Number _ => inl Undefined
  | Text s => inl (Number (Js.Integer (Z.of_nat (String.length s))))
  end.

(** The callback of [then]: the lines written, and the error thrown if
    the callback does not reach its end. *)
Definition print_report (debug : bool) (parallelism : Js.number)
           (report : DiskUsageReport) (elapsed : Z) (out : list string)
  : list string * option js_error :=
  let get := property parallelism report in
  let out := if debug then out ++ ["-----------"%string] else out in
  let out := out ++ [("       Path: " ++ to_string (get "path"%string))%string] in
  let out := out ++ [("Parallelism: " ++ to_string (get "parallelism"%string))%string] in
  let out := out ++ [("      Files: " ++ to_string (get "files"%string))%string] in
  let out := out ++ [("       Dirs: " ++ to_string (get "directories"%string))%string] in
  match length_of (get "errorPaths"%string) with
  | inr err => (out, Some err)
  | inl errors =>
      let out := out ++ [("     Errors: " ++ to_string errors)%string] in
      let out := out ++ [("    Elapsed: " ++ string_of_Z elapsed ++ "ms")%string] in
      let size :=
        match get "size"%string with
        | Number (Js.Integer z) => Js.format_en_US (Js.round_thousandth z)
        | _ => "NaN"%string
        end in
      (out ++ [("       Size: " ++ size ++ "kb")%string], None)
  end.

(** How the program ends: the callback of [then] returns, the handler of
    [catch] calls [process.exit(1)], or the promise never settles and
    nothing more is written. *)
Inductive ending :=
| Returns
| Exit1 (why : failure)
| Stalls.

(** The first line [du] writes: the path as it was given. *)
Definition tallying (raw : string) (parallelism : Js.number) : string :=
  ("Tallying usage for " ++ raw ++ ", with parallelism = "
   ++ Js.to_string parallelism)%string.

(** The program: [raw] is the path as it was given, [path] the place it
    names, [given] the number [Number(program.parallelism)]. *)
Definition main (fs : Fs.node) (raw : string) (path : Fs.path) (given : Js.number)
           (debug : bool) (elapsed : Z) (d n : nat) (sched : list nat)
  : option (list string * ending) :=
  let parallelism := Js.or_zero given in
  match await_diskUsage fs path (ceiling_of parallelism)
                        (if debug then Some (debugLog raw path) else None) d n sched
                        [tallying raw parallelism] with
  | None => None
  | Some (Resolves report, out) =>
      match print_report debug parallelism report elapsed out with
      | (out', Some err) => Some (out', Exit1 (Rejection err))
      | (out', None) => Some (out', Returns)
      end
  | Some (Rejects err, out) => Some (out, Exit1 (Rejection err))
  | Some (Overflows, out) => Some (out, Exit1 StackOverflow)
  | Some (NeverSettles, out) => Some (out, Stalls)
  end.

End Du.

(** Strings of decimal digits, the form in which a number is written. *)
Definition is_digit (c : ascii) : bool :=
  match Js.digit c with Some _ => true | None => false end.

Fixpoint all_digits (s : string) : bool :=
  match s with
  | EmptyString => true
  | String c r => is_digit c && all_digits r
  end.

(** What [experiment] writes for [k] runs in a row with [parallelism = 1],
    from run number [i] on, and the rows it keeps for them. *)
Fixpoint serial_lines (duration : nat -> Z) (i k : nat) : string :=
  match k with
  | O => EmptyString
  | S k' =>
      (Experiment.running (Js.Integer 1) ++ Experiment.measured (duration i) 0
       ++ serial_lines duration (S i) k')%string
  end.

Fixpoint serial_rows (duration : nat -> Z) (i k : nat) : list (Js.number * Z) :=
  match k with
  | O => []
  | S k' => (Js.Integer 1, duration i) :: serial_rows duration (S i) k'
  end.

(** The spaces of a string: one less than the pieces [split] makes. *)
Fixpoint count_spaces (s : string) : nat :=
  match s with
  | EmptyString => O
  | String c r => if Ascii.eqb c " " then S (count_spaces r) else count_spaces r
  end.

(** The numbers [experiment] accepts: the integers from zero on, and
    [Infinity]. *)
Definition accepted (x : Js.number) : Prop :=
  x = Js.Infinity false \/ exists z, x = Js.Integer z /\ 0 <= z.

(** ** The order of a serial traversal *)

(** The arguments of one call of the debug callback. *)
Definition call := (string * Fs.path * string)%type.

(** The calls a traversal with [parallelism = 1] makes on the tree [n] at
    path [p]: the queue is used as a stack, so that a directory is read
    right after its stat and its entries are visited last one first, each
    with all that is below it. *)
Fixpoint calls_of (p : Fs.path) (n : Fs.node) : list call :=
  match n with
  | Fs.File b => [("STAT"%string, p, (string_of_Z b ++ " bytes")%string)]
  | Fs.Special => [("STAT"%string, p, "---"%string)]
  | Fs.Dir es =>
      ("STAT"%string, p, "DIR"%string)
      :: ("READ"%string, p, (string_of_Z (Z.of_nat (List.length es)) ++ " items")%string)
      :: (fix below (l : list (string * Fs.node)) : list call :=
            match l with
            | [] => []
            | (name, c) :: r => below r ++ calls_of (p ++ [name]) c
            end) es
  end.

Definition calls_below (p : Fs.path) (es : list (string * Fs.node)) : list call :=
  flat_map (fun e => calls_of (p ++ [fst e]) (snd e)) (rev es).

(** The calls an operation leads to, and those a queue leads to, its last
    element first. *)
Definition op_calls (fs : Fs.node) (o : op) : list call :=
  match op_exec o, Fs.resolve fs (op_path o) with
  | ExecStat, inl n => calls_of (op_path o) n
  | ExecRead, inl (Fs.Dir es) =>
      ("READ"%string, op_path o,
       (string_of_Z (Z.of_nat (List.length es)) ++ " items")%string)
      :: calls_below (op_path o) es
  | _, _ => []
  end.

Definition queue_calls (fs : Fs.node) (q : list op) : list call :=
  flat_map (op_calls fs) (rev q).

(** The world after the given calls of the callback, in order. *)
Definition replay {W} (debugLog : option (callback W)) (calls : list call) (w : W) : W :=
  match debugLog with
  | None => w
  | Some cb => fold_left (fun x c => fst (cb (fst (fst c)) (snd (fst c)) (snd c) x)) calls w
  end.

(** ** The model at work *)

(** The calls of the debug callback during the run with
    [parallelism = 1]: the array is used as a stack, so the last entry of
    a directory is visited first. *)
Example serial_traversal_log :
  option_map world
    (diskUsage Samples.deeper_tree [] 1 (Some Samples.logger) 2 40 [] [])
  = Some [("STAT", [], "DIR"); ("READ", [], "3 items");
          ("STAT", ["z"], "5 bytes");
          ("STAT", ["d"], "DIR"); ("READ", ["d"], "2 items");
          ("STAT", ["d"; "e"], "DIR"); ("READ", ["d"; "e"], "1 items");
          ("STAT", ["d"; "e"; "c"], "---");
          ("STAT", ["d"; "b"], "20 bytes");
          ("STAT", ["a"], "10 bytes")]%string.
Proof. vm_compute. reflexivity. Qed.

Example serial_traversal_report :
  option_map (fun s => (resultPromise s, result s))
    (diskUsage Samples.deeper_tree [] 1 None 2 40 [] tt)
  = Some (Fulfilled, mk_report [] 1 0 35 3 3).
Proof. vm_compute. reflexivity. Qed.

(** With [parallelism = 3] two calls of [undefined.exec] are scheduled
    behind the stat of the root; the first of them rejects the run. *)
Example start_with_ceiling_three :
  option_map (fun s => (activeCount s, queue s, microtasks s))
    (start (W := unit) [] 3 10 tt)
  = Some (3, [], [JExec (Some (mk_op [] ExecStat)); JExec None; JExec None]).
Proof. vm_compute. reflexivity. Qed.

(** Without a ceiling the synchronous part uses up the stack, here of
    five frames, and the caller's promise is rejected with [RangeError];
    the five tasks launched until then still run: the first call of
    [undefined.exec] rejects [resultPromise], the stat of the root
    completes after that and counts the root, and [activeCount] is back
    at zero when the event loop has nothing left to do. *)
Example unbounded_run_goes_on :
  let s := reached Samples.small_tree [] 0 (@None (callback unit)) 5 5 20 [] tt in
  (overflows [] 0 5 tt, resultPromise s, activeCount s, idle s, r_directories (result s),
   queue s)
  = (true, Rejected TypeError, 0, true, 1, [mk_op [] ExecRead]).
Proof. vm_compute. reflexivity. Qed.

(** [parseInt] rounds as JavaScript's numbers do, and the numbers are
    printed as JavaScript prints them. *)
Example numbers_are_doubles :
  map Js.parseInt ["9007199254740993"; " +12abc"; "-0"; "x1"]%string
  = [Js.Integer 9007199254740992; Js.Integer 12; Js.Integer 0; Js.NaN]
  /\ map Js.to_string [Js.Integer (2 ^ 53 + 2); Js.Integer (10 ^ 21); Js.Integer (2 ^ 70);
                       Js.Integer (-5); Js.Infinity false]
     = ["9007199254740994"; "1e+21"; "1.1805916207174113e+21"; "-5"; "Infinity"]%string.
Proof. split; vm_compute; reflexivity. Qed.

(** ** Lists, arrays and sums *)

Lemma array_pop_nil {A} : @array_pop A [] = (None, []).
Proof. reflexivity. Qed.

Lemma array_pop_snoc {A} (l : list A) (x : A) : array_pop (l ++ [x]) = (Some x, l).
Proof.
  unfold array_pop. rewrite rev_unit. now rewrite rev_involutive.
Qed.

Lemma array_pop_cases {A} (l : list A) o q :
  array_pop l = (o, q) ->
  (l = [] /\ o = None /\ q = []) \/ (exists x, o = Some x /\ l = q ++ [x]).
Proof.
  destruct l as [|a l'] using rev_ind.
  - rewrite array_pop_nil. intros H; inversion H; auto.
  - rewrite array_pop_snoc. intros H; inversion H; subst. right; eauto.
Qed.

Lemma sum_of_app {A} (g : A -> Z) (l1 l2 : list A) :
  sum_of g (l1 ++ l2) = sum_of g l1 + sum_of g l2.
Proof.
  induction l1 as [|x l1 IH]; simpl; [reflexivity|]. rewrite IH. lia.
Qed.

Lemma sum_of_remove_nth {A} (g : A -> Z) (l : list A) :
  forall i x, nth_error l i = Some x ->
              sum_of g l = g x + sum_of g (remove_nth i l).
Proof.
  induction l as [|y l IH]; intros [|i] x H; simpl in *; try discriminate.
  - now inversion H.
  - rewrite (IH _ _ H). lia.
Qed.

Lemma length_remove_nth {A} (l : list A) :
  forall i x, nth_error l i = Some x ->
              List.length l = S (List.length (remove_nth i l)).
Proof.
  induction l as [|y l IH]; intros [|i] x H; simpl in *; try discriminate.
  - reflexivity.
  - now rewrite (IH _ _ H).
Qed.

Lemma sum_of_map {A B} (g : B -> Z) (h : A -> B) (l : list A) :
  sum_of g (map h l) = sum_of (fun x => g (h x)) l.
Proof.
  induction l as [|x l IH]; simpl; [reflexivity|]. now rewrite IH.
Qed.

Lemma sum_of_ext {A} (g h : A -> Z) (l : list A) :
  (forall x, In x l -> g x = h x) -> sum_of g l = sum_of h l.
Proof.
  induction l as [|x l IH]; simpl; intros E; [reflexivity|].
  rewrite E by auto. rewrite IH; auto.
Qed.

(** ** The shape of [tick] *)

Section TickFacts.

Variable W : Type.
Variable parallelism : Z.

Lemma tick_unfold d (s : state W) :
  tick parallelism (S d) s =
  if completed s then Some s
  else if negb (parallelism =? 0) && (parallelism <=? activeCount s) then Some s
  else if (activeCount s =? 0) && (List.length (queue s) =? 0)%nat then Some (finish s)
  else tick parallelism d (launch (fst (array_pop (queue s))) (snd (array_pop (queue s))) s).
Proof.
  simpl. destruct (array_pop (queue s)); reflexivity.
Qed.

Lemma ceiling_test (s : state W) :
  negb (parallelism =? 0) && (parallelism <=? activeCount s) = false
  <-> below_ceiling parallelism s.
Proof.
  unfold below_ceiling.
  destruct (Z.eqb_spec parallelism 0); destruct (Z.leb_spec parallelism (activeCount s));
    simpl; split; intros; try discriminate; auto; lia.
Qed.

Lemma done_test (s : state W) :
  (activeCount s =? 0) && (List.length (queue s) =? 0)%nat = true
  <-> activeCount s = 0 /\ queue s = [].
Proof.
  rewrite andb_true_iff, Z.eqb_eq, Nat.eqb_eq. split; intros [H1 H2]; split; auto.
  - now apply length_zero_iff_nil.
  - now rewrite H2.
Qed.

(** Induction along the recursion of [tick]: a property kept by
    [finish] and by every [launch] is kept by [tick]. *)
Lemma tick_preserves (P : state W -> Prop) :
  (forall s, P s -> completed s = false -> below_ceiling parallelism s ->
             activeCount s = 0 -> queue s = [] -> P (finish s)) ->
  (forall s o q, P s -> completed s = false -> below_ceiling parallelism s ->
                 ~ (activeCount s = 0 /\ queue s = []) ->
                 array_pop (queue s) = (o, q) -> P (launch o q s)) ->
  forall d s s', P s -> tick parallelism d s = Some s' -> P s'.
Proof.
  intros Hfin Hlaunch. induction d as [|d IH]; intros s s' HP H; [discriminate|].
  rewrite tick_unfold in H.
  destruct (completed s) eqn:Ec; [now inversion H; subst|].
  destruct (negb (parallelism =? 0) && (parallelism <=? activeCount s)) eqn:El;
    [now inversion H; subst|].
  apply ceiling_test in El.
  destruct ((activeCount s =? 0) && (List.length (queue s) =? 0)%nat) eqn:Ed.
  - apply done_test in Ed. destruct Ed. inversion H; subst. now apply Hfin.
  - apply IH in H; [assumption|]. apply Hlaunch; auto.
    + rewrite <- done_test, Ed. discriminate.
    + now destruct (array_pop (queue s)).
Qed.

End TickFacts.

(** ** Frame properties of the two operations *)

Section ExecFacts.

Variable W : Type.
Variable fs : Fs.node.
Variable debugLog : option (callback W).

Lemma call_debugLog_view kind p info (s s1 : state W) r :
  call_debugLog debugLog kind p info s = (s1, r) ->
  scheduler_view s1 = scheduler_view s.
Proof.
  unfold call_debugLog. destruct debugLog as [cb|].
  - destruct (cb kind p info (world s)). intros H; inversion H; reflexivity.
  - intros H; inversion H; reflexivity.
Qed.

Lemma queue_enqueue_all p (files : list string) :
  forall s : state W,
    scheduler_view (fold_left (fun acc file => enqueueStat (p ++ [file]) acc) files s)
    = scheduler_view
        (with_queue (queue s ++ map (fun file => mk_op (p ++ [file]) ExecStat) files) s).
Proof.
  induction files as [|x files IH]; intros s; simpl.
  - unfold scheduler_view; simpl. now rewrite app_nil_r.
  - rewrite IH. unfold scheduler_view; simpl. now rewrite <- app_assoc.
Qed.

(** An operation touches only [result], [queue] and the callback's
    world; the queue only grows. *)
Lemma exec_frame o (s s1 : state W) r :
  exec fs debugLog o s = (s1, r) ->
  activeCount s1 = activeCount s /\ completed s1 = completed s
  /\ resultPromise s1 = resultPromise s /\ microtasks s1 = microtasks s
  /\ pendingIO s1 = pendingIO s /\ exists added, queue s1 = queue s ++ added.
Proof.
  unfold exec, readOp, statOp. intros H.
  assert (K : forall (a b : state W),
             scheduler_view a = scheduler_view b ->
             activeCount a = activeCount b /\ completed a = completed b
             /\ resultPromise a = resultPromise b /\ microtasks a = microtasks b
             /\ pendingIO a = pendingIO b /\ queue a = queue b).
  { unfold scheduler_view. intros a b E. inversion E. auto 10. }
  destruct (op_exec o).
  - destruct (Fs.readdir fs (op_path o)) as [files|e].
    + destruct (call_debugLog _ _ _ _ s) as [s2 thrown] eqn:Ecb.
      apply call_debugLog_view in Ecb. apply K in Ecb.
      destruct Ecb as (Ea & Ec & Ep & Em & Ei & Eq).
      destruct thrown; inversion H; subst.
      * repeat split; auto. exists []. now rewrite app_nil_r.
      * pose proof (queue_enqueue_all (op_path o) files s2) as Q. apply K in Q.
        simpl in Q. destruct Q as (Qa & Qc & Qp & Qm & Qi & Qq).
        repeat split; try congruence.
        eexists. rewrite Qq, Eq. reflexivity.
    + inversion H; subst. repeat split; auto. exists []. now rewrite app_nil_r.
  - destruct (Fs.stat fs (op_path o)) as [stats|e].
    + destruct (Fs.isDirectory stats); [|destruct (Fs.isFile stats)];
        apply call_debugLog_view in H; apply K in H; simpl in H;
        destruct H as (Ea & Ec & Ep & Em & Ei & Eq); repeat split; auto.
      * now exists [mk_op (op_path o) ExecRead].
      * exists []. now rewrite app_nil_r.
      * exists []. now rewrite app_nil_r.
    + inversion H; subst. repeat split; auto. exists []. now rewrite app_nil_r.
Qed.

End ExecFacts.

(** ** The bookkeeping invariant of the scheduler *)

Section Bookkeeping.

Variable W : Type.
Variable fs : Fs.node.
Variable path : Fs.path.
Variable parallelism : Z.
Variable debugLog : option (callback W).

Lemma Inv_finish (s : state W) :
  Inv parallelism s -> completed s = false -> activeCount s = 0 -> queue s = [] ->
  Inv parallelism (finish s).
Proof.
  intros [Hc Hl Hf Hd] Ec Ea Eq. constructor; simpl; auto.
  - split; [intros _|reflexivity]. destruct (resultPromise s); discriminate.
Qed.

Lemma Inv_launch (s : state W) o q :
  Inv parallelism s -> completed s = false -> below_ceiling parallelism s ->
  Inv parallelism (launch o q s).
Proof.
  intros [Hc Hl Hf Hd] Ec Hb. constructor; simpl.
  - rewrite Hc, length_app. simpl. lia.
  - intros Hp. destruct Hb; lia.
  - exact Hf.
  - intros E. exfalso. assert (completed s = true) by (apply Hf; congruence). congruence.
Qed.

Lemma Inv_tick d (s s' : state W) :
  Inv parallelism s -> tick parallelism d s = Some s' -> Inv parallelism s'.
Proof.
  apply tick_preserves.
  - intros; now apply Inv_finish.
  - intros; now apply Inv_launch.
Qed.

Lemma Inv_fulfilled_idle (s : state W) :
  Inv parallelism s -> resultPromise s = Fulfilled ->
  microtasks s = [] /\ pendingIO s = [] /\ queue s = [].
Proof.
  intros [Hc Hl Hf Hd] E. destruct (Hd E) as [Ha Hq]. rewrite Ha in Hc.
  destruct (microtasks s), (pendingIO s); simpl in Hc; auto; lia.
Qed.

Lemma Inv_run_job d j js (s s' : state W) :
  Inv parallelism s -> microtasks s = j :: js ->
  run_job parallelism d j (with_microtasks js s) = Some s' -> Inv parallelism s'.
Proof.
  intros I Em H.
  assert (NF : resultPromise s <> Fulfilled).
  { intros E. apply (Inv_fulfilled_idle _ I) in E. destruct E; congruence. }
  destruct I as [Hc Hl Hf Hd]. rewrite Em in Hc. simpl in Hc.
  destruct j as [[o|]| |err]; simpl in H.
  - inversion H; subst. constructor; simpl; try tauto.
    rewrite Hc, length_app. simpl. lia.
  - inversion H; subst. constructor; simpl; try tauto.
    rewrite Hc, length_app. simpl. lia.
  - eapply Inv_tick; [|exact H]. constructor; simpl; try tauto; lia.
  - inversion H; subst. clear H.
    destruct (completed s) eqn:Ec; constructor; simpl; try tauto; try lia.
    + split; [intros _|reflexivity]. destruct (resultPromise s); discriminate.
    + assert (E : resultPromise s = Pending).
      { destruct (resultPromise s) eqn:E; auto; exfalso;
          assert (false = true) by (apply Hf; discriminate); discriminate. }
      rewrite E. discriminate.
Qed.

Lemma Inv_complete_io i o (s : state W) :
  Inv parallelism s -> nth_error (pendingIO s) i = Some o ->
  Inv parallelism (complete_io fs debugLog i o s).
Proof.
  intros I Hn.
  assert (NF : resultPromise s <> Fulfilled).
  { intros E. apply (Inv_fulfilled_idle _ I) in E. destruct E as (_ & E & _).
    rewrite E in Hn. destruct i; discriminate. }
  destruct I as [Hc Hl Hf Hd].
  unfold complete_io.
  destruct (exec fs debugLog o _) as [s1 r] eqn:E.
  apply exec_frame in E. simpl in E.
  destruct E as (Ea & Ec & Ep & Em & Ei & added & Eq).
  rewrite (length_remove_nth _ _ _ Hn) in Hc.
  constructor; simpl.
  - rewrite Ea, Em, Ei, Hc, length_app. simpl. lia.
  - now rewrite Ea.
  - now rewrite Ec, Ep.
  - rewrite Ep. intros; contradiction.
Qed.

Lemma Inv_loop_step d i (s s' : state W) :
  Inv parallelism s -> loop_step fs parallelism debugLog d i s = Some s' -> Inv parallelism s'.
Proof.
  unfold loop_step. intros I H.
  destruct (microtasks s) as [|j js] eqn:Em.
  - destruct (nth_error (pendingIO s) i) as [o|] eqn:En.
    + inversion H; subst. now apply Inv_complete_io.
    + destruct (pendingIO s) as [|o l] eqn:Ep; [discriminate|].
      inversion H; subst. apply Inv_complete_io; auto. now rewrite Ep.
  - eapply Inv_run_job; eauto.
Qed.

Lemma Inv_run d n :
  forall sched s s',
    Inv parallelism s -> run fs parallelism debugLog d n sched s = Some s' ->
    Inv parallelism s'.
Proof.
  induction n as [|n IH]; intros sched s s' I H; simpl in H.
  - now inversion H; subst.
  - destruct (idle s); [now inversion H; subst|].
    destruct (loop_step fs parallelism debugLog d (hd 0%nat sched) s) as [s1|] eqn:E;
      [|discriminate].
    eapply IH; [|exact H]. eapply Inv_loop_step; eauto.
Qed.

Lemma Inv_seed (w : W) : Inv parallelism (enqueueStat path (initial path parallelism w)).
Proof.
  constructor; simpl; try lia.
  - split; [discriminate|congruence].
  - discriminate.
Qed.

Lemma Inv_diskUsage d n sched w (s : state W) :
  diskUsage fs path parallelism debugLog d n sched w = Some s -> Inv parallelism s.
Proof.
  unfold diskUsage, start. intros H.
  destruct (tick parallelism d _) as [s0|] eqn:E; [|discriminate].
  eapply Inv_run; [|exact H]. eapply Inv_tick; [|exact E]. apply Inv_seed.
Qed.

End Bookkeeping.

(** ** Facts about the filesystem tree *)

Lemma measure_Dir f es :
  measure f (Fs.Dir es) =
  (match f with Directories => 1 | _ => 0 end) + sum_of (fun e => measure f (snd e)) es.
Proof.
  assert (K : forall g : Fs.node -> Z,
             (fix sum (l : list (string * Fs.node)) : Z :=
                match l with
                | [] => 0
                | (_, c) :: r => g c + sum r
                end) es = sum_of (fun e => g (snd e)) es).
  { intros g. induction es as [|[n c] r IH]; simpl; [reflexivity|]. now rewrite IH. }
  destruct f; unfold measure; cbn -[Z.add sum_of]; rewrite K; reflexivity.
Qed.

Lemma resolve_snoc c : forall p n es,
  Fs.resolve n p = inl (Fs.Dir es) ->
  Fs.resolve n (p ++ [c]) =
  match Fs.find_entry es c with Some m => inl m | None => inr Fs.ENOENT end.
Proof.
  induction p as [|x p IH]; intros n es H; simpl in *.
  - inversion H; subst. destruct (Fs.find_entry es c); reflexivity.
  - destruct n as [b| |es']; try discriminate.
    destruct (Fs.find_entry es' x); [|discriminate]. now apply IH.
Qed.

Lemma well_formed_Dir es :
  Fs.well_formed (Fs.Dir es) = true ->
  Fs.names_distinct (map fst es) = true
  /\ forall n c, In (n, c) es -> Fs.well_formed c = true.
Proof.
  simpl. rewrite andb_true_iff. intros [Hn Ha]. split; [assumption|]. clear Hn.
  induction es as [|[n' c'] r IH]; intros n c Hin; [contradiction|].
  apply andb_true_iff in Ha. destruct Ha as [Hc Hr].
  destruct Hin as [E|Hin]; [now inversion E; subst|]. eapply IH; eauto.
Qed.

Lemma find_entry_In es c m : Fs.find_entry es c = Some m -> exists n, In (n, m) es.
Proof.
  induction es as [|[n' c'] r IH]; simpl; [discriminate|].
  destruct (String.eqb n' c).
  - intros H; inversion H; subst. eauto.
  - intros H. destruct (IH H) as [n Hn]. eauto.
Qed.

Lemma well_formed_resolve : forall p n m,
  Fs.well_formed n = true -> Fs.resolve n p = inl m -> Fs.well_formed m = true.
Proof.
  induction p as [|x p IH]; intros n m Hw H; simpl in H.
  - now inversion H; subst.
  - destruct n as [b| |es]; try discriminate.
    destruct (Fs.find_entry es x) as [k|] eqn:E; [|discriminate].
    apply IH with (n := k); [|assumption].
    destruct (find_entry_In _ _ _ E) as [nm Hin].
    apply well_formed_Dir in Hw. destruct Hw as [_ Hall]. eapply Hall; eauto.
Qed.

(** With distinct names, looking every name of a directory up again
    finds every entry exactly once. *)
Lemma sum_over_names (g : Fs.node -> Z) es :
  Fs.names_distinct (map fst es) = true ->
  sum_of (fun name => match Fs.find_entry es name with Some m => g m | None => 0 end)
         (map fst es)
  = sum_of (fun e => g (snd e)) es.
Proof.
  induction es as [|[n c] r IH]; simpl; [reflexivity|].
  rewrite andb_true_iff, negb_true_iff. intros [Hn Hr].
  rewrite String.eqb_refl. f_equal. rewrite <- (IH Hr).
  apply sum_of_ext. intros x Hx.
  destruct (String.eqb n x) eqn:E; [|reflexivity].
  exfalso. assert (K : existsb (String.eqb n) (map fst r) = true).
  { apply existsb_exists. eauto. }
  congruence.
Qed.

Lemma view_fields {W1 W2} (a : state W1) (b : state W2) :
  scheduler_view a = scheduler_view b ->
  result a = result b /\ activeCount a = activeCount b /\ queue a = queue b
  /\ completed a = completed b /\ resultPromise a = resultPromise b
  /\ microtasks a = microtasks b /\ pendingIO a = pendingIO b.
Proof.
  unfold scheduler_view. intros E. inversion E. auto 10.
Qed.

(** ** The totals invariant: what is counted plus what is still to be
       visited is the whole tree *)

Section Totals.

Variable W : Type.
Variable fs : Fs.node.
Variable path : Fs.path.
Variable parallelism : Z.
Variable debugLog : option (callback W).
Hypothesis fs_wf : Fs.well_formed fs = true.

Lemma child_weights f p es :
  Fs.resolve fs p = inl (Fs.Dir es) ->
  sum_of (op_weight fs f) (map (fun file => mk_op (p ++ [file]) ExecStat) (map fst es))
  = sum_of (fun e => measure f (snd e)) es.
Proof.
  intros H. rewrite sum_of_map.
  rewrite <- (sum_over_names (measure f) es).
  - apply sum_of_ext. intros x _. unfold op_weight. simpl.
    rewrite (resolve_snoc x _ _ _ H). destruct (Fs.find_entry es x); reflexivity.
  - apply well_formed_resolve in H; [|assumption]. now apply well_formed_Dir in H.
Qed.

Lemma exec_totals o (s s1 : state W) :
  exec fs debugLog o s = (s1, None) ->
  forall f, get f (result s1) + sum_of (op_weight fs f) (queue s1)
            = get f (result s) + sum_of (op_weight fs f) (queue s) + op_weight fs f o.
Proof.
  destruct o as [p k]. unfold exec, readOp, statOp, Fs.readdir, Fs.stat. simpl.
  intros H f.
  assert (Ew : op_weight fs f (mk_op p k) =
               match k, Fs.resolve fs p with
               | ExecStat, inl n => measure f n
               | ExecRead, inl (Fs.Dir es) => sum_of (fun e => measure f (snd e)) es
               | _, _ => 0
               end) by reflexivity.
  rewrite Ew; clear Ew. destruct k.
  - destruct (Fs.resolve fs p) as [[b| |es]|e] eqn:Er; try discriminate.
    destruct (call_debugLog _ _ _ _ s) as [s2 thrown] eqn:Ecb.
    destruct thrown; [discriminate|]. inversion H; subst; clear H.
    apply call_debugLog_view, view_fields in Ecb.
    destruct Ecb as (Rr & _ & Rq & _).
    pose proof (queue_enqueue_all W p (map fst es) s2) as Q.
    apply view_fields in Q. simpl in Q. destruct Q as (Qr & _ & Qq & _).
    rewrite Qr, Qq, Rr, Rq, sum_of_app, (child_weights f p es Er). lia.
  - destruct (Fs.resolve fs p) as [[b| |es]|e] eqn:Er; try discriminate; simpl in H;
      apply call_debugLog_view, view_fields in H; simpl in H;
      destruct H as (Rr & _ & Rq & _); rewrite Rr, Rq.
    + destruct f; simpl; lia.
    + destruct f; simpl; lia.
    + rewrite sum_of_app, measure_Dir.
      replace (sum_of (op_weight fs f) [mk_op p ExecRead])
        with (sum_of (fun e => measure f (snd e)) es + 0)
        by (unfold op_weight; simpl; now rewrite Er).
      generalize (sum_of (fun e => measure f (snd e)) es).
      generalize (sum_of (op_weight fs f) (queue s)).
      intros x y. destruct f; cbn [get r_files r_directories r_size]; lia.
Qed.

Lemma has_catch_app l1 l2 :
  existsb is_catch (l1 ++ l2) = existsb is_catch l1 || existsb is_catch l2.
Proof. apply existsb_app. Qed.

Lemma Totals_finish (s : state W) : Totals fs path s -> Totals fs path (finish s).
Proof.
  intros [[[e He]|Hc]|Heq].
  - left; left. exists e. simpl. now rewrite He.
  - left; right. exact Hc.
  - right. exact Heq.
Qed.

Lemma Totals_launch (s : state W) o q :
  Totals fs path s -> array_pop (queue s) = (o, q) -> Totals fs path (launch o q s).
Proof.
  intros [[He|Hc]|Heq] Hp.
  - left; left. exact He.
  - left; right. simpl. rewrite has_catch_app, Hc. reflexivity.
  - right. intros f. rewrite <- (Heq f). unfold pending_weight. simpl.
    rewrite sum_of_app. simpl.
    apply array_pop_cases in Hp. destruct Hp as [(Eq & Eo & Eq')|(x & Eo & Eq)]; subst.
    + rewrite Eq. simpl. lia.
    + rewrite Eq, sum_of_app. simpl. lia.
Qed.

Lemma Totals_tick d (s s' : state W) :
  Totals fs path s -> tick parallelism d s = Some s' -> Totals fs path s'.
Proof.
  apply tick_preserves.
  - intros; now apply Totals_finish.
  - intros; now apply Totals_launch.
Qed.

Lemma Totals_run_job d j js (s s' : state W) :
  Inv parallelism s -> Totals fs path s -> microtasks s = j :: js ->
  run_job parallelism d j (with_microtasks js s) = Some s' -> Totals fs path s'.
Proof.
  intros I T Em H.
  assert (NF : resultPromise s <> Fulfilled).
  { intros E. apply (Inv_fulfilled_idle _ _ _ I) in E. destruct E; congruence. }
  destruct j as [[o|]| |err]; simpl in H.
  - inversion H; subst; clear H. destruct T as [[He|Hc]|Heq].
    + left; left. exact He.
    + left; right. simpl. now rewrite Em in Hc.
    + right. intros f. rewrite <- (Heq f). unfold pending_weight. simpl.
      rewrite Em, sum_of_app. simpl. lia.
  - inversion H; subst; clear H. left; right. simpl.
    rewrite has_catch_app. simpl. apply orb_true_r.
  - eapply Totals_tick; [|exact H]. destruct T as [[He|Hc]|Heq].
    + left; left. exact He.
    + left; right. simpl. now rewrite Em in Hc.
    + right. intros f. rewrite <- (Heq f). unfold pending_weight. simpl.
      rewrite Em. simpl. lia.
  - inversion H; subst; clear H. left; left. simpl.
    destruct I as [_ _ Hf _].
    destruct (completed s) eqn:Ec; simpl.
    + destruct (resultPromise s) as [| |e] eqn:Ep.
      * exfalso. now apply Hf.
      * contradiction.
      * eauto.
    + destruct (resultPromise s) as [| |e] eqn:Ep; simpl; eauto.
      contradiction.
Qed.

Lemma Totals_complete_io i o (s : state W) :
  Totals fs path s -> nth_error (pendingIO s) i = Some o ->
  Totals fs path (complete_io fs debugLog i o s).
Proof.
  intros T Hn. unfold complete_io.
  destruct (exec fs debugLog o _) as [s1 r] eqn:E.
  pose proof (exec_frame _ _ _ _ _ _ _ E) as F. simpl in F.
  destruct F as (Fa & Fc & Fp & Fm & Fi & _).
  destruct r as [e|].
  - left; right. simpl. rewrite has_catch_app. simpl. apply orb_true_r.
  - destruct T as [[He|Hc]|Heq].
    + left; left. simpl. now rewrite Fp.
    + left; right. simpl. rewrite has_catch_app, Fm, Hc. reflexivity.
    + right. intros f. rewrite <- (Heq f). unfold pending_weight. simpl.
      pose proof (exec_totals _ _ _ E f) as X. simpl in X.
      rewrite sum_of_app, Fm, Fi, (sum_of_remove_nth (op_weight fs f) _ _ _ Hn).
      simpl. lia.
Qed.

Lemma Totals_loop_step d i (s s' : state W) :
  Inv parallelism s -> Totals fs path s ->
  loop_step fs parallelism debugLog d i s = Some s' -> Totals fs path s'.
Proof.
  unfold loop_step. intros I T H.
  destruct (microtasks s) as [|j js] eqn:Em.
  - destruct (nth_error (pendingIO s) i) as [o|] eqn:En.
    + inversion H; subst. now apply Totals_complete_io.
    + destruct (pendingIO s) as [|o l] eqn:Ep; [discriminate|].
      inversion H; subst. apply Totals_complete_io; auto. now rewrite Ep.
  - eapply Totals_run_job; eauto.
Qed.

Lemma Totals_run d n :
  forall sched s s',
    Inv parallelism s -> Totals fs path s ->
    run fs parallelism debugLog d n sched s = Some s' -> Totals fs path s'.
Proof.
  induction n as [|n IH]; intros sched s s' I T H; simpl in H.
  - now inversion H; subst.
  - destruct (idle s); [now inversion H; subst|].
    destruct (loop_step fs parallelism debugLog d (hd 0%nat sched) s) as [s1|] eqn:E;
      [|discriminate].
    eapply IH; [| |exact H].
    + eapply Inv_loop_step; eauto.
    + eapply Totals_loop_step; eauto.
Qed.

Lemma Totals_seed (w : W) : Totals fs path (enqueueStat path (initial path parallelism w)).
Proof.
  right. intros f. unfold pending_weight, expected. simpl. destruct f; simpl; lia.
Qed.

Lemma Totals_diskUsage d n sched w (s : state W) :
  diskUsage fs path parallelism debugLog d n sched w = Some s -> Totals fs path s.
Proof.
  unfold diskUsage, start. intros H.
  destruct (tick parallelism d _) as [s0|] eqn:E; [|discriminate].
  eapply Totals_run; [| |exact H].
  - eapply Inv_tick; [|exact E]. apply Inv_seed.
  - eapply Totals_tick; [|exact E]. apply Totals_seed.
Qed.

(** A fulfilled run has counted the whole tree below [path]. *)
Lemma fulfilled_totals d n sched w (s : state W) :
  diskUsage fs path parallelism debugLog d n sched w = Some s ->
  resultPromise s = Fulfilled ->
  forall f, get f (result s) = expected fs path f.
Proof.
  intros H E f.
  pose proof (Inv_diskUsage _ _ _ _ _ _ _ _ _ _ H) as I.
  pose proof (Totals_diskUsage _ _ _ _ _ H) as T.
  destruct (Inv_fulfilled_idle _ _ _ I E) as (Em & Ei & Eq).
  destruct T as [[[e He]|Hc]|Heq].
  - congruence.
  - rewrite Em in Hc. discriminate.
  - rewrite <- (Heq f). unfold pending_weight. rewrite Em, Ei, Eq. simpl. lia.
Qed.

End Totals.

Lemma count_directories_nonneg : forall n, 0 <= count_directories n.
Proof.
  fix IH 1. intros [b| |es]; cbn -[Z.add]; try lia.
  assert (K : 0 <= (fix sum (l : list (string * Fs.node)) : Z :=
                      match l with
                      | [] => 0
                      | (_, c) :: r => count_directories c + sum r
                      end) es).
  { induction es as [|[nm c] r IHr]; [lia|]. specialize (IH c). lia. }
  lia.
Qed.

(** ** After the outcome is settled *)

Section Settled.

Variable W : Type.
Variable fs : Fs.node.
Variable parallelism : Z.
Variable debugLog : option (callback W).

Lemma tick_completed d (s : state W) :
  completed s = true -> tick parallelism (S d) s = Some s.
Proof. intros E. rewrite tick_unfold, E. reflexivity. Qed.

Lemma tick_activeCount_grows d (s s' : state W) :
  tick parallelism d s = Some s' -> activeCount s <= activeCount s'.
Proof.
  apply (tick_preserves W parallelism (fun x => activeCount s <= activeCount x)).
  - intros x Hx _ _ _ _. exact Hx.
  - intros x o q Hx _ _ _ _. simpl. lia.
  - lia.
Qed.

Lemma tick_settled d (s s' : state W) :
  resultPromise s <> Pending ->
  tick parallelism d s = Some s' -> resultPromise s' = resultPromise s.
Proof.
  intros Hs.
  apply (tick_preserves W parallelism (fun x => resultPromise x = resultPromise s)).
  - intros x Hx _ _ _ _. simpl. rewrite Hx.
    destruct (resultPromise s) eqn:E; simpl; congruence.
  - intros x o q Hx _ _ _ _. exact Hx.
  - reflexivity.
Qed.

Lemma loop_step_settled d i (s s' : state W) :
  resultPromise s <> Pending ->
  loop_step fs parallelism debugLog d i s = Some s' ->
  resultPromise s' = resultPromise s.
Proof.
  unfold loop_step. intros Hs H.
  assert (K : forall o k, resultPromise (complete_io fs debugLog k o s) = resultPromise s).
  { intros o k. unfold complete_io.
    destruct (exec fs debugLog o _) as [s1 r] eqn:E.
    apply exec_frame in E. simpl in E. destruct E as (_ & _ & Ep & _). exact Ep. }
  destruct (microtasks s) as [|j js].
  - destruct (nth_error (pendingIO s) i) as [o|].
    + inversion H; subst. apply K.
    + destruct (pendingIO s) as [|o l]; [discriminate|]. inversion H; subst. apply K.
  - destruct j as [[o|]| |err]; simpl in H.
    + now inversion H; subst.
    + now inversion H; subst.
    + apply tick_settled in H; assumption.
    + inversion H; subst; clear H. destruct (completed s); simpl; [reflexivity|].
      destruct (resultPromise s) eqn:E; simpl; congruence.
Qed.

Lemma run_settled d n :
  forall sched (s s' : state W),
    resultPromise s <> Pending ->
    run fs parallelism debugLog d n sched s = Some s' ->
    resultPromise s' = resultPromise s.
Proof.
  induction n as [|n IH]; intros sched s s' Hs H; simpl in H.
  - now inversion H; subst.
  - destruct (idle s); [now inversion H; subst|].
    destruct (loop_step fs parallelism debugLog d (hd 0%nat sched) s) as [s1|] eqn:E;
      [|discriminate].
    pose proof (loop_step_settled _ _ _ _ Hs E) as E1.
    rewrite <- E1. eapply IH; [|exact H]. now rewrite E1.
Qed.

Lemma nothing_launched_refl (s : state W) : completed s = true -> nothing_launched s s.
Proof.
  intros E. repeat split; auto; try lia. exists []. now rewrite app_nil_r.
Qed.

Lemma nothing_launched_trans (s1 s2 s3 : state W) :
  nothing_launched s1 s2 -> nothing_launched s2 s3 -> nothing_launched s1 s3.
Proof.
  intros (_ & P1 & A1 & (q1 & Q1) & X1) (C2 & P2 & A2 & (q2 & Q2) & X2).
  repeat split; auto; try congruence; try lia.
  exists (q1 ++ q2). now rewrite Q2, Q1, app_assoc.
Qed.

Lemma loop_step_after_completion d i (s s' : state W) :
  completed s = true ->
  loop_step fs parallelism debugLog d i s = Some s' -> nothing_launched s s'.
Proof.
  unfold loop_step. intros Hc H.
  assert (K : forall o k, microtasks s = [] -> nothing_launched s (complete_io fs debugLog k o s)).
  { intros o k Em. unfold complete_io.
    destruct (exec fs debugLog o _) as [s1 r] eqn:E.
    apply exec_frame in E. simpl in E.
    destruct E as (Ea & Ec & Ep & Emi & _ & Eq).
    repeat split; simpl; try congruence; try lia.
    rewrite Emi, Em. destruct r; simpl; lia. }
  destruct (microtasks s) as [|j js] eqn:Em.
  - destruct (nth_error (pendingIO s) i) as [o|].
    + inversion H; subst. now apply K.
    + destruct (pendingIO s) as [|o l]; [discriminate|]. inversion H; subst. now apply K.
  - assert (Q : exists added : list op, queue s = queue s ++ added)
      by (exists []; now rewrite app_nil_r).
    unfold nothing_launched. rewrite Em.
    destruct j as [[o|]| |err]; simpl in H.
    + inversion H; subst. repeat split; simpl; auto; lia.
    + inversion H; subst. repeat split; simpl; auto; try lia.
      rewrite filter_app, length_app. simpl. lia.
    + destruct d as [|d]; [discriminate|]. rewrite tick_completed in H by exact Hc.
      inversion H; subst. repeat split; simpl; auto; lia.
    + inversion H; subst. simpl. rewrite Hc. repeat split; simpl; auto; lia.
Qed.

Lemma run_after_completion d n :
  forall sched (s s' : state W),
    completed s = true ->
    run fs parallelism debugLog d n sched s = Some s' -> nothing_launched s s'.
Proof.
  induction n as [|n IH]; intros sched s s' Hc H; simpl in H.
  - inversion H; subst. now apply nothing_launched_refl.
  - destruct (idle s); [inversion H; subst; now apply nothing_launched_refl|].
    destruct (loop_step fs parallelism debugLog d (hd 0%nat sched) s) as [s1|] eqn:E;
      [|discriminate].
    pose proof (loop_step_after_completion _ _ _ _ Hc E) as N.
    eapply nothing_launched_trans; [exact N|].
    eapply IH; [|exact H]. now destruct N.
Qed.

End Settled.

(** ** [tick] on an empty queue with tasks in flight *)

Section EmptyQueue.

Variable W : Type.
Variable parallelism : Z.

Lemma tick_launch_step d (s : state W) :
  completed s = false -> below_ceiling parallelism s ->
  ~ (activeCount s = 0 /\ queue s = []) ->
  tick parallelism (S d) s
  = tick parallelism d
      (launch (fst (array_pop (queue s))) (snd (array_pop (queue s))) s).
Proof.
  intros Ec Hb Hn. rewrite tick_unfold, Ec.
  apply ceiling_test in Hb. rewrite Hb.
  destruct ((activeCount s =? 0) && (List.length (queue s) =? 0)%nat) eqn:Ed;
    [|reflexivity].
  apply done_test in Ed. contradiction.
Qed.

(** Without a ceiling the recursion of [tick] has no way out once a task
    is in flight: whatever the depth allowed, it is used up. *)
Lemma tick_unbounded_diverges :
  parallelism = 0 ->
  forall d (s : state W),
    completed s = false -> 0 < activeCount s -> tick parallelism d s = None.
Proof.
  intros Hp. induction d as [|d IH]; intros s Ec Ha; [reflexivity|].
  rewrite tick_launch_step; auto.
  - apply IH; simpl; [assumption|lia].
  - now left.
  - intros [E _]. lia.
Qed.

End EmptyQueue.

(** ** With a ceiling of two or more the run is lost from the start *)

Section Doomed.

Variable W : Type.
Variable fs : Fs.node.
Variable path : Fs.path.
Variable parallelism : Z.
Variable debugLog : option (callback W).
Hypothesis ceiling_above_one : 2 <= parallelism.

Lemma Doomed_tick d (s s' : state W) : Doomed s -> tick parallelism d s = Some s' -> Doomed s'.
Proof.
  apply tick_preserves.
  - intros x [[Ec _]|(_ & _ & Ha & _)] Ec' _ E0 _; [congruence|lia].
  - intros x o q [[Ec _]|(Ec & Ep & Ha & Ht & Hb)] Ec' _ _ _; [congruence|].
    right. simpl. rewrite !existsb_app, Ht, Hb. simpl.
    repeat split; auto. lia.
Qed.

Lemma Doomed_start d w (s : state W) : start path parallelism d w = Some s -> Doomed s.
Proof.
  unfold start. set (seed := enqueueStat path (initial path parallelism w)).
  assert (E1 : forall k, tick parallelism (S k) seed
                         = tick parallelism k (launch (Some (mk_op path ExecStat)) [] seed)).
  { intros k. rewrite tick_launch_step; [reflexivity|reflexivity| |].
    - right. simpl. lia.
    - intros [_ E]. discriminate. }
  assert (E2 : forall k, tick parallelism (S k) (launch (Some (mk_op path ExecStat)) [] seed)
                         = tick parallelism k
                             (launch None [] (launch (Some (mk_op path ExecStat)) [] seed))).
  { intros k. rewrite tick_launch_step; [reflexivity|reflexivity| |].
    - right. simpl. lia.
    - intros [E _]. discriminate. }
  destruct d as [|[|d]]; [discriminate| |].
  - rewrite E1. discriminate.
  - rewrite E1, E2. apply Doomed_tick. right. simpl. repeat split; auto.
Qed.

Lemma Doomed_loop_step d i (s s' : state W) :
  Doomed s -> loop_step fs parallelism debugLog d i s = Some s' -> Doomed s'.
Proof.
  intros [[Ec [e Ee]]|(Ec & Ep & Ha & Ht & Hb)] H.
  - left. split.
    + apply loop_step_after_completion in H; [|exact Ec]. now destruct H.
    + exists e. rewrite <- Ee. eapply loop_step_settled; [|exact H]. congruence.
  - unfold loop_step in H. destruct (microtasks s) as [|j js]; [discriminate|].
    simpl in Ht, Hb. apply orb_false_iff in Ht. destruct Ht as [Hj Ht].
    destruct j as [[o|]| |err]; simpl in H, Hb; try discriminate.
    + inversion H; subst. right. simpl. auto.
    + inversion H; subst. right. simpl. rewrite !existsb_app, Ht. simpl.
      repeat split; auto. apply orb_true_r.
    + inversion H; subst. left. simpl. rewrite Ec, Ep. simpl. eauto.
Qed.

Lemma Doomed_run d n :
  forall sched s s',
    Doomed s -> run fs parallelism debugLog d n sched s = Some s' -> Doomed s'.
Proof.
  induction n as [|n IH]; intros sched s s' D H; simpl in H.
  - now inversion H; subst.
  - destruct (idle s); [now inversion H; subst|].
    destruct (loop_step fs parallelism debugLog d (hd 0%nat sched) s) as [s1|] eqn:E;
      [|discriminate].
    eapply IH; [|exact H]. eapply Doomed_loop_step; eauto.
Qed.

Lemma Doomed_not_fulfilled (s : state W) : Doomed s -> resultPromise s <> Fulfilled.
Proof.
  intros [[_ [e Ee]]|(_ & Ep & _)]; congruence.
Qed.

End Doomed.

Lemma start_unbounded_diverges W path d (w : W) : start path 0 d w = None.
Proof.
  unfold start. destruct d as [|d]; [reflexivity|].
  rewrite tick_launch_step.
  - apply tick_unbounded_diverges; simpl; auto. lia.
  - reflexivity.
  - now left.
  - intros [_ E]. discriminate.
Qed.

Lemma never_fulfilled_above_one
  W fs path parallelism debugLog d n sched (w : W) s :
  2 <= parallelism ->
  diskUsage fs path parallelism debugLog d n sched w = Some s ->
  resultPromise s <> Fulfilled.
Proof.
  unfold diskUsage. intros Hp H.
  destruct (start path parallelism d w) as [s0|] eqn:E; [|discriminate].
  apply (Doomed_not_fulfilled W). eapply Doomed_run; [|exact H].
  eapply Doomed_start; eauto.
Qed.

(** Whatever the ceiling, the schedule and the callback, two runs over the
    same tree that both succeed report the same totals. *)
Lemma fulfilled_reports_agree
  W1 W2 fs path p1 p2 cb1 cb2 d1 d2 n1 n2 sched1 sched2 (w1 : W1) (w2 : W2) s1 s2 :
  Fs.well_formed fs = true ->
  diskUsage fs path p1 cb1 d1 n1 sched1 w1 = Some s1 -> resultPromise s1 = Fulfilled ->
  diskUsage fs path p2 cb2 d2 n2 sched2 w2 = Some s2 -> resultPromise s2 = Fulfilled ->
  forall f, get f (result s1) = get f (result s2).
Proof.
  intros Hw H1 E1 H2 E2 f.
  rewrite (fulfilled_totals W1 fs path p1 cb1 Hw d1 n1 sched1 w1 s1 H1 E1 f).
  rewrite (fulfilled_totals W2 fs path p2 cb2 Hw d2 n2 sched2 w2 s2 H2 E2 f).
  reflexivity.
Qed.

(** ** A root that does not exist *)

Section MissingRoot.

Variable W : Type.
Variable fs : Fs.node.
Variable path : Fs.path.
Variable parallelism : Z.
Variable debugLog : option (callback W).
Variable errno : Fs.errno.
Hypothesis root_missing : Fs.resolve fs path = inr errno.

Lemma Fruitless_tick d (s s' : state W) :
  (Fruitless path s /\ 0 <= activeCount s /\ (0 < activeCount s \/ queue s <> [])
   /\ forall o, In o (queue s) -> o = mk_op path ExecStat) ->
  tick parallelism d s = Some s' -> Fruitless path s'.
Proof.
  intros P H.
  cut (Fruitless path s' /\ 0 <= activeCount s' /\ (0 < activeCount s' \/ queue s' <> [])
       /\ forall o, In o (queue s') -> o = mk_op path ExecStat); [tauto|].
  revert d s s' P H. apply tick_preserves.
  - intros x (_ & _ & [Ha|Hq] & _) _ _ E0 Eq; [lia|contradiction].
  - intros x o q ([Fp Ft Fm Fi] & Ha & _ & Hq) _ _ _ Hpop.
    assert (Ho : forall y, o = Some y -> y = mk_op path ExecStat).
    { intros y Ey. apply array_pop_cases in Hpop.
      destruct Hpop as [(_ & E & _)|(z & E & El)]; [congruence|].
      apply Hq. rewrite El. apply in_or_app. right. left. congruence. }
    assert (Hq' : forall y, In y q -> y = mk_op path ExecStat).
    { intros y Hy. apply array_pop_cases in Hpop.
      destruct Hpop as [(_ & _ & E)|(z & _ & El)]; [subst; contradiction|].
      apply Hq. rewrite El. apply in_or_app. now left. }
    split; [constructor|]; simpl; auto.
    + rewrite existsb_app, Ft. destruct o; reflexivity.
    + intros y Hy. apply in_app_or in Hy. destruct Hy as [Hy|[Hy|[]]]; auto.
      inversion Hy; subst. now apply Ho.
    + split; [lia|]. split; [left; lia|assumption].
Qed.

Lemma Fruitless_loop_step d i (s s' : state W) :
  Fruitless path s -> loop_step fs parallelism debugLog d i s = Some s' -> Fruitless path s'.
Proof.
  intros [Fp Ft Fm Fi] H. unfold loop_step in H.
  assert (K : forall k o, In o (pendingIO s) -> microtasks s = [] ->
                          Fruitless path (complete_io fs debugLog k o s)).
  { intros k o Hin Em. rewrite (Fi o Hin). unfold complete_io, exec, statOp, Fs.stat. simpl.
    rewrite root_missing. constructor; simpl; auto.
    - rewrite Em. reflexivity.
    - rewrite Em. intros y [Hy|[]]. discriminate.
    - intros y Hy. apply Fi. clear - Hy. revert k Hy.
      induction (pendingIO s) as [|z l IH]; intros [|k] Hy; simpl in *; auto.
      destruct Hy as [Hy|Hy]; eauto. }
  destruct (microtasks s) as [|j js] eqn:Em.
  - destruct (nth_error (pendingIO s) i) as [o|] eqn:En.
    + inversion H; subst. apply K; auto. eapply nth_error_In; eauto.
    + destruct (pendingIO s) as [|o l] eqn:Ep; [discriminate|].
      inversion H; subst. apply K; auto. now left.
  - simpl in Ft. apply orb_false_iff in Ft. destruct Ft as [Hj Ft].
    destruct j as [[o|]| |err]; simpl in H, Hj; try discriminate.
    + inversion H; subst. constructor; simpl; auto.
      * intros y Hy. apply Fm. now right.
      * intros y Hy. apply in_app_or in Hy. destruct Hy as [Hy|[Hy|[]]]; auto.
        subst. apply Fm. now left.
    + inversion H; subst. constructor; simpl; auto.
      * rewrite existsb_app, Ft. reflexivity.
      * intros y Hy. apply in_app_or in Hy. destruct Hy as [Hy|[Hy|[]]];
          [|discriminate]. apply Fm. now right.
    + inversion H; subst. clear H.
      destruct (completed s); constructor; simpl; auto;
        try (intros y Hy; apply Fm; now right).
      destruct (resultPromise s); simpl; congruence.
Qed.

Lemma Fruitless_run d n :
  forall sched s s',
    Fruitless path s -> run fs parallelism debugLog d n sched s = Some s' -> Fruitless path s'.
Proof.
  induction n as [|n IH]; intros sched s s' D H; simpl in H.
  - now inversion H; subst.
  - destruct (idle s); [now inversion H; subst|].
    destruct (loop_step fs parallelism debugLog d (hd 0%nat sched) s) as [s1|] eqn:E;
      [|discriminate].
    eapply IH; [|exact H]. eapply Fruitless_loop_step; eauto.
Qed.

Lemma Fruitless_diskUsage d n sched w (s : state W) :
  diskUsage fs path parallelism debugLog d n sched w = Some s -> Fruitless path s.
Proof.
  unfold diskUsage, start. intros H.
  destruct (tick parallelism d _) as [s0|] eqn:E; [|discriminate].
  eapply Fruitless_run; [|exact H]. eapply Fruitless_tick; [|exact E].
  split; [constructor; simpl; try discriminate; try contradiction; reflexivity|].
  simpl. split; [lia|]. split; [right; discriminate|].
  intros o [Ho|[]]. now subst.
Qed.

End MissingRoot.

Lemma missing_root_serial W fs path debugLog errno sched (w : W) :
  Fs.resolve fs path = inr errno ->
  exists s,
    diskUsage fs path 1 debugLog 2 3 sched w = Some s
    /\ idle s = true
    /\ resultPromise s = Rejected (SystemError errno).
Proof.
  intros Hr. unfold diskUsage, start. simpl.
  assert (E : forall k, complete_io fs debugLog k (mk_op path ExecStat)
                (mk_state (mk_report path 1 0 0 0 0) 1 [] false Pending []
                          [mk_op path ExecStat] w)
              = mk_state (mk_report path 1 0 0 0 0) 1 [] false Pending
                         [JCatch (SystemError errno)]
                         (remove_nth k [mk_op path ExecStat]) w).
  { intros k. unfold complete_io, exec, statOp, Fs.stat. simpl. now rewrite Hr. }
  unfold loop_step at 2. simpl.
  destruct (hd 0%nat sched) as [|[|k]]; simpl; rewrite E; simpl;
    eexists; repeat split; reflexivity.
Qed.

(** ** The debug callback as an observer *)

Section Observer.

Variable W : Type.
Variable fs : Fs.node.
Variable path : Fs.path.
Variable parallelism : Z.
Variable debugLog : option (callback W).
Hypothesis quiet : forall cb, debugLog = Some cb -> returns_normally cb.

Lemma tick_erase d :
  forall s : state W,
    tick parallelism d (erase s) = option_map erase (tick parallelism d s).
Proof.
  induction d as [|d IH]; intros s; [reflexivity|].
  rewrite !tick_unfold. simpl.
  destruct (completed s); [reflexivity|].
  destruct (negb (parallelism =? 0) && (parallelism <=? activeCount s)); [reflexivity|].
  destruct ((activeCount s =? 0) && (List.length (queue s) =? 0)%nat); [reflexivity|].
  rewrite <- IH. reflexivity.
Qed.

Lemma call_debugLog_erase kind p info (s : state W) :
  snd (call_debugLog debugLog kind p info s) = None
  /\ erase (fst (call_debugLog debugLog kind p info s)) = erase s.
Proof.
  unfold call_debugLog. destruct debugLog as [cb|] eqn:E; [|split; reflexivity].
  pose proof (quiet cb eq_refl kind p info (world s)) as Q.
  destruct (cb kind p info (world s)) as [w' r]. simpl in *. split; [exact Q|reflexivity].
Qed.

Lemma enqueue_all_erase p files :
  forall s : state W,
    fold_left (fun acc file => enqueueStat (p ++ [file]) acc) files (erase s)
    = erase (fold_left (fun acc file => enqueueStat (p ++ [file]) acc) files s).
Proof.
  induction files as [|x files IH]; intros s; [reflexivity|]. simpl. rewrite <- IH. reflexivity.
Qed.

Lemma exec_erase o (s : state W) :
  exec fs None o (erase s)
  = (erase (fst (exec fs debugLog o s)), snd (exec fs debugLog o s)).
Proof.
  unfold exec, readOp, statOp. destruct (op_exec o).
  - destruct (Fs.readdir fs (op_path o)) as [files|e]; [|reflexivity].
    match goal with
    | |- context [call_debugLog debugLog ?k ?p ?i s] =>
        destruct (call_debugLog_erase k p i s) as [Q1 Q2];
        destruct (call_debugLog debugLog k p i s) as [s1 r]
    end.
    simpl in Q1, Q2. subst r. simpl. rewrite <- Q2. now rewrite enqueue_all_erase.
  - destruct (Fs.stat fs (op_path o)) as [stats|e]; [|reflexivity].
    destruct (Fs.isDirectory stats); [|destruct (Fs.isFile stats)];
      match goal with
      | |- context [call_debugLog debugLog ?k ?p ?i ?x] =>
          destruct (call_debugLog_erase k p i x) as [Q1 Q2];
          destruct (call_debugLog debugLog k p i x) as [s1 r]
      end;
      simpl in Q1, Q2; subst r; simpl; rewrite Q2; reflexivity.
Qed.

Lemma complete_io_erase i o (s : state W) :
  complete_io fs None i o (erase s) = erase (complete_io fs debugLog i o s).
Proof.
  unfold complete_io.
  change (with_pendingIO (remove_nth i (pendingIO (erase s))) (erase s))
    with (erase (with_pendingIO (remove_nth i (pendingIO s)) s)).
  rewrite exec_erase.
  destruct (exec fs debugLog o _) as [s1 r]. reflexivity.
Qed.

Lemma loop_step_erase d i (s : state W) :
  loop_step fs parallelism None d i (erase s)
  = option_map erase (loop_step fs parallelism debugLog d i s).
Proof.
  unfold loop_step. simpl. destruct (microtasks s) as [|j js].
  - destruct (nth_error (pendingIO s) i) as [o|].
    + simpl. now rewrite complete_io_erase.
    + destruct (pendingIO s) as [|o l]; [reflexivity|]. simpl. now rewrite complete_io_erase.
  - destruct j as [[o|]| |err]; simpl; try reflexivity.
    + apply (tick_erase d (with_activeCount (activeCount s - 1) (with_microtasks js s))).
    + destruct (completed s); reflexivity.
Qed.

Lemma run_erase d n :
  forall sched (s : state W),
    run fs parallelism None d n sched (erase s)
    = option_map erase (run fs parallelism debugLog d n sched s).
Proof.
  induction n as [|n IH]; intros sched s; [reflexivity|]. simpl.
  change (idle (erase s)) with (idle s). destruct (idle s); [reflexivity|].
  rewrite loop_step_erase.
  destruct (loop_step fs parallelism debugLog d (hd 0%nat sched) s) as [s1|];
    [|reflexivity].
  simpl. apply IH.
Qed.

Lemma diskUsage_erase d n sched (w : W) :
  diskUsage fs path parallelism None d n sched tt
  = option_map erase (diskUsage fs path parallelism debugLog d n sched w).
Proof.
  unfold diskUsage, start.
  change (enqueueStat path (initial path parallelism tt))
    with (erase (enqueueStat path (initial path parallelism w))).
  rewrite tick_erase.
  destruct (tick parallelism d _) as [s0|]; [|reflexivity]. simpl. apply run_erase.
Qed.

Lemma view_erase d n sched (w : W) :
  option_map scheduler_view (diskUsage fs path parallelism debugLog d n sched w)
  = option_map scheduler_view
      (diskUsage fs path parallelism (@None (callback unit)) d n sched tt).
Proof.
  rewrite (diskUsage_erase d n sched w).
  destruct (diskUsage fs path parallelism debugLog d n sched w); reflexivity.
Qed.

End Observer.

(** ** One task at a time: the run that succeeds *)

Lemma visits_positive : forall n, 1 <= visits n.
Proof.
  fix IH 1. intros [b| |es]; cbn -[Z.add]; try lia.
  assert (K : 0 <= (fix sum (l : list (string * Fs.node)) : Z :=
                      match l with
                      | [] => 0
                      | (_, c) :: r => visits c + sum r
                      end) es).
  { induction es as [|[nm c] r IHr]; [lia|]. specialize (IH c). lia. }
  lia.
Qed.

Lemma visits_Dir es :
  visits (Fs.Dir es) = 2 + sum_of (fun e => visits (snd e)) es.
Proof.
  cbn -[Z.add sum_of]. f_equal.
  induction es as [|[n c] r IH]; simpl; [reflexivity|]. now rewrite IH.
Qed.

Lemma find_entry_name es name :
  In name (map fst es) -> exists m, Fs.find_entry es name = Some m.
Proof.
  induction es as [|[n c] r IH]; simpl; [contradiction|].
  intros [E|Hin].
  - subst. rewrite String.eqb_refl. eauto.
  - destruct (String.eqb n name); eauto.
Qed.

Section Serial.

Variable W : Type.
Variable fs : Fs.node.
Variable debugLog : option (callback W).
Hypothesis fs_wf : Fs.well_formed fs = true.
Hypothesis quiet : forall cb, debugLog = Some cb -> returns_normally cb.

Lemma op_visits_positive o : valid_op fs o -> 1 <= op_visits fs o.
Proof.
  unfold valid_op, op_visits. destruct (op_exec o).
  - destruct (Fs.resolve fs (op_path o)) as [[b| |es]|e]; try contradiction.
    intros _. assert (0 <= sum_of (fun e => visits (snd e)) es); [|lia].
    induction es as [|[nm c] r IH]; [simpl; lia|].
    pose proof (visits_positive c).
    change (0 <= visits c + sum_of (fun e => visits (snd e)) r). lia.
  - destruct (Fs.resolve fs (op_path o)) as [n|e]; [|contradiction].
    intros _. apply visits_positive.
Qed.

Lemma queue_visits_nonneg q : Forall (valid_op fs) q -> 0 <= sum_of (op_visits fs) q.
Proof.
  induction 1 as [|o q Ho _ IH]; simpl; [lia|].
  pose proof (op_visits_positive o Ho). lia.
Qed.

Lemma call_debugLog_quiet kind p info (s s1 : state W) r :
  call_debugLog debugLog kind p info s = (s1, r) -> r = None.
Proof.
  unfold call_debugLog. destruct debugLog as [cb|] eqn:E.
  - pose proof (quiet cb eq_refl kind p info (world s)) as Q.
    destruct (cb kind p info (world s)) as [w' r']. simpl in Q.
    intros H; inversion H; subst. reflexivity.
  - intros H; inversion H; reflexivity.
Qed.

(** A valid operation succeeds; what it enqueues is valid and stands for
    one visit less than the operation itself. *)
Lemma exec_valid o (s s1 : state W) r :
  valid_op fs o ->
  exec fs debugLog o s = (s1, r) ->
  r = None
  /\ exists added,
      queue s1 = queue s ++ added
      /\ Forall (valid_op fs) added
      /\ sum_of (op_visits fs) added + 1 = op_visits fs o.
Proof.
  destruct o as [p k]. unfold valid_op. simpl.
  unfold exec, readOp, statOp, Fs.readdir, Fs.stat. simpl. intros Hv H.
  assert (Ew : op_visits fs (mk_op p k) =
               match k, Fs.resolve fs p with
               | ExecStat, inl n => visits n
               | ExecRead, inl (Fs.Dir es) => 1 + sum_of (fun e => visits (snd e)) es
               | _, _ => 0
               end) by reflexivity.
  rewrite Ew; clear Ew. destruct k.
  - destruct (Fs.resolve fs p) as [[b| |es]|e] eqn:Er; try contradiction.
    destruct (call_debugLog _ _ _ _ s) as [s2 thrown] eqn:Ecb.
    pose proof (call_debugLog_quiet _ _ _ _ _ _ Ecb). subst thrown.
    inversion H; subst; clear H. split; [reflexivity|].
    apply call_debugLog_view, view_fields in Ecb. destruct Ecb as (_ & _ & Rq & _).
    pose proof (queue_enqueue_all W p (map fst es) s2) as Q.
    apply view_fields in Q. simpl in Q. destruct Q as (_ & _ & Qq & _).
    eexists. split; [rewrite Qq, Rq; reflexivity|]. split.
    + apply Forall_forall. intros o Ho. apply in_map_iff in Ho.
      destruct Ho as (name & Eo & Hname). subst o. unfold valid_op. simpl.
      rewrite (resolve_snoc name _ _ _ Er).
      destruct (find_entry_name _ _ Hname) as [m Em]. now rewrite Em.
    + assert (E : sum_of (op_visits fs)
                    (map (fun file => mk_op (p ++ [file]) ExecStat) (map fst es))
                  = sum_of (fun e => visits (snd e)) es).
      { rewrite sum_of_map, <- (sum_over_names visits es).
        - apply sum_of_ext. intros x _. unfold op_visits. simpl.
          rewrite (resolve_snoc x _ _ _ Er). destruct (Fs.find_entry es x); reflexivity.
        - apply well_formed_resolve in Er; [|assumption]. now apply well_formed_Dir in Er. }
      rewrite E. lia.
  - destruct (Fs.resolve fs p) as [[b| |es]|e] eqn:Er; try contradiction; simpl in H;
      pose proof (call_debugLog_quiet _ _ _ _ _ _ H); subst r;
      apply call_debugLog_view, view_fields in H; simpl in H;
      destruct H as (_ & _ & Rq & _); (split; [reflexivity|]).
    + exists []. rewrite app_nil_r. repeat split; auto.
    + exists []. rewrite app_nil_r. repeat split; auto.
    + exists [mk_op p ExecRead]. split; [assumption|]. split.
      * constructor; [|constructor]. unfold valid_op. simpl. now rewrite Er.
      * rewrite visits_Dir.
        replace (sum_of (op_visits fs) [mk_op p ExecRead])
          with (1 + sum_of (fun e => visits (snd e)) es + 0)
          by (unfold op_visits; simpl; now rewrite Er).
        lia.
Qed.

Lemma run_turn parallelism d n sched (s s1 : state W) :
  idle s = false ->
  loop_step fs parallelism debugLog d (hd 0%nat sched) s = Some s1 ->
  run fs parallelism debugLog d (S n) sched s
  = run fs parallelism debugLog d n
        (match microtasks s with [] => tl sched | _ => sched end) s1.
Proof. intros Hi Hl. simpl. now rewrite Hi, Hl. Qed.

Lemma run_idle parallelism d n sched (s : state W) :
  idle s = true -> run fs parallelism debugLog d n sched s = Some s.
Proof. intros Hi. destruct n; simpl; [reflexivity|]. now rewrite Hi. Qed.

(** The only pending call is the one that completes, whatever the
    schedule says. *)
Lemma loop_step_single_io parallelism d i o (s : state W) :
  microtasks s = [] -> pendingIO s = [o] ->
  loop_step fs parallelism debugLog d i s = Some (complete_io fs debugLog 0 o s).
Proof.
  unfold loop_step. intros Em Ei. rewrite Em, Ei.
  destruct i as [|[|i]]; reflexivity.
Qed.

(** Three turns of the event loop carry out the task that was launched:
    its call is issued, the call completes, and the success handler
    either finishes the run or launches the next task. *)
Lemma serial_cycle sched o (s : state W) :
  serial_ready o s -> valid_op fs o -> Forall (valid_op fs) (queue s) ->
  exists s3,
    (forall n, run fs 1 debugLog 2 (S (S (S n))) sched s
               = run fs 1 debugLog 2 n (tl sched) s3)
    /\ ((idle s3 = true /\ resultPromise s3 = Fulfilled
         /\ op_visits fs o + sum_of (op_visits fs) (queue s) = 1)
        \/ exists o',
            serial_ready o' s3 /\ valid_op fs o' /\ Forall (valid_op fs) (queue s3)
            /\ op_visits fs o' + sum_of (op_visits fs) (queue s3) + 1
               = op_visits fs o + sum_of (op_visits fs) (queue s)).
Proof.
  destruct s as [r a q c pr m io w].
  intros (Ea & Ec & Ep & Em & Ei) Hv Hq. simpl in Ea, Ec, Ep, Em, Ei, Hq. subst.
  cbn [queue].
  set (s1 := mk_state r 1 q false Pending [] [o] w).
  destruct (exec fs debugLog o (mk_state r 1 q false Pending [] [] w)) as [s2 rr] eqn:Ex.
  pose proof (exec_frame _ _ _ _ _ _ _ Ex) as F. simpl in F.
  destruct F as (Fa & Fc & Fp & Fm & Fi & _).
  destruct (exec_valid _ _ _ _ Hv Ex) as (Er & added & Eq & Hadd & Hsum).
  subst rr. destruct s2 as [r2 a2 q2 c2 p2 m2 io2 w2].
  simpl in Fa, Fc, Fp, Fm, Fi, Eq. subst.
  set (s2 := mk_state r2 1 (q ++ added) false Pending [JThen] [] w2).
  assert (T1 : forall n, run fs 1 debugLog 2 (S (S (S n))) sched
                             (mk_state r 1 q false Pending [JExec (Some o)] [] w)
                         = run fs 1 debugLog 2 (S n) (tl sched) s2).
  { intros n.
    rewrite (run_turn 1 2 _ sched _ s1); [|reflexivity|reflexivity].
    rewrite (run_turn 1 2 _ sched s1 s2); [reflexivity|reflexivity|].
    rewrite (loop_step_single_io 1 2 _ o s1); [|reflexivity|reflexivity].
    unfold complete_io, with_pendingIO, s1, s2.
    cbn [pendingIO remove_nth result activeCount queue completed resultPromise
         microtasks world].
    now rewrite Ex. }
  assert (Hq2 : Forall (valid_op fs) (q ++ added)) by (apply Forall_app; auto).
  destruct (array_pop (q ++ added)) as [o' q'] eqn:Epop.
  apply array_pop_cases in Epop. destruct Epop as [(E0 & _ & _)|(x & Eo & El)].
  - exists (mk_state r2 0 [] true Fulfilled [] [] w2). split.
    + intros n. rewrite T1.
      rewrite (run_turn 1 2 _ _ s2 (mk_state r2 0 [] true Fulfilled [] [] w2));
        [reflexivity|reflexivity|].
      unfold loop_step, s2. simpl. rewrite E0. reflexivity.
    + left. simpl. repeat split; auto.
      apply app_eq_nil in E0. destruct E0; subst. simpl in *. lia.
  - exists (mk_state r2 1 q' false Pending [JExec (Some x)] [] w2). split.
    + intros n. rewrite T1.
      rewrite (run_turn 1 2 _ _ s2
                 (mk_state r2 1 q' false Pending [JExec (Some x)] [] w2));
        [reflexivity|reflexivity|].
      unfold loop_step, s2. simpl. rewrite El.
      rewrite length_app. simpl. rewrite Nat.add_comm. simpl.
      rewrite array_pop_snoc. reflexivity.
    + right. exists x. simpl. rewrite El in Hq2. apply Forall_app in Hq2.
      destruct Hq2 as [Hq' Hx]. inversion Hx; subst.
      repeat split; auto.
      assert (E : sum_of (op_visits fs) (q ++ added) = sum_of (op_visits fs) (q' ++ [x]))
        by now rewrite El.
      rewrite !sum_of_app in E. simpl in E. lia.
Qed.

Lemma serial_progress k :
  forall sched o (s : state W),
    serial_ready o s -> valid_op fs o -> Forall (valid_op fs) (queue s) ->
    op_visits fs o + sum_of (op_visits fs) (queue s) = Z.of_nat k ->
    exists s', run fs 1 debugLog 2 (3 * k) sched s = Some s'
               /\ idle s' = true /\ resultPromise s' = Fulfilled.
Proof.
  induction k as [|k IH]; intros sched o s Hr Hv Hq Hm.
  - pose proof (op_visits_positive o Hv). pose proof (queue_visits_nonneg _ Hq). lia.
  - destruct (serial_cycle sched o s Hr Hv Hq) as (s3 & Hrun & Hnext).
    replace (3 * S k)%nat with (S (S (S (3 * k)))) by lia. rewrite Hrun.
    destruct Hnext as [(Hi & Hf & _)|(o' & Hr' & Hv' & Hq' & Hm')].
    + exists s3. rewrite run_idle by exact Hi. auto.
    + apply (IH (tl sched) o' s3); auto. lia.
Qed.

End Serial.

(** With [parallelism = 1], on a path that exists and with a callback
    that returns normally, the run does end, after three turns of the
    event loop per operation, and it ends with the report of the whole
    tree. *)
Lemma serial_run_succeeds W fs path debugLog sched (w : W) node :
  Fs.well_formed fs = true ->
  (forall cb, debugLog = Some cb -> returns_normally cb) ->
  Fs.resolve fs path = inl node ->
  exists s,
    diskUsage fs path 1 debugLog 2 (3 * Z.to_nat (visits node)) sched w = Some s
    /\ idle s = true /\ resultPromise s = Fulfilled
    /\ r_files (result s) = count_files node
    /\ r_directories (result s) = count_directories node
    /\ r_size (result s) = total_size node.
Proof.
  intros Hw Hq Hr.
  assert (Hv : valid_op fs (mk_op path ExecStat)) by (unfold valid_op; simpl; now rewrite Hr).
  assert (Hm : op_visits fs (mk_op path ExecStat) = visits node)
    by (unfold op_visits; simpl; now rewrite Hr).
  destruct (serial_progress W fs debugLog Hw Hq (Z.to_nat (visits node)) sched
              (mk_op path ExecStat)
              (mk_state (mk_report path 1 0 0 0 0) 1 [] false Pending
                        [JExec (Some (mk_op path ExecStat))] [] w))
    as (s & Hrun & Hi & Hf).
  - repeat split.
  - exact Hv.
  - constructor.
  - simpl. rewrite Hm. pose proof (visits_positive node). lia.
  - assert (H : diskUsage fs path 1 debugLog 2 (3 * Z.to_nat (visits node)) sched w = Some s)
      by exact Hrun.
    exists s. do 3 (split; [assumption|]).
    pose proof (fulfilled_totals W fs path 1 debugLog Hw _ _ _ _ _ H Hf) as T.
    pose proof (T Files) as TF. pose proof (T Directories) as TD. pose proof (T Size) as TS.
    unfold expected, op_weight in TF, TD, TS. simpl in TF, TD, TS.
    rewrite Hr in TF, TD, TS. auto.
Qed.

(** ** More stack, more turns *)

Section Fuel.

Variable W : Type.
Variable fs : Fs.node.
Variable parallelism : Z.
Variable debugLog : option (callback W).

Lemma tick_more_stack d :
  forall k (s s' : state W),
    tick parallelism d s = Some s' -> tick parallelism (d + k) s = Some s'.
Proof.
  induction d as [|d IH]; intros k s s' H; [discriminate|].
  change (S d + k)%nat with (S (d + k)). rewrite tick_unfold in *.
  destruct (completed s); [assumption|].
  destruct (negb (parallelism =? 0) && (parallelism <=? activeCount s)); [assumption|].
  destruct ((activeCount s =? 0) && (List.length (queue s) =? 0)%nat); [assumption|].
  now apply IH.
Qed.

Lemma loop_step_more_stack d k i (s s' : state W) :
  loop_step fs parallelism debugLog d i s = Some s' ->
  loop_step fs parallelism debugLog (d + k) i s = Some s'.
Proof.
  unfold loop_step. destruct (microtasks s) as [|j js]; [auto|].
  destruct j as [[o|]| |err]; simpl; auto. apply tick_more_stack.
Qed.

Lemma run_more_stack d k n :
  forall sched (s s' : state W),
    run fs parallelism debugLog d n sched s = Some s' ->
    run fs parallelism debugLog (d + k) n sched s = Some s'.
Proof.
  induction n as [|n IH]; intros sched s s' H; simpl in *; [assumption|].
  destruct (idle s); [assumption|].
  destruct (loop_step fs parallelism debugLog d (hd 0%nat sched) s) as [s1|] eqn:E;
    [|discriminate].
  rewrite (loop_step_more_stack _ k _ _ _ E). now apply IH.
Qed.

Lemma run_more_turns d n :
  forall k sched (s s' : state W),
    run fs parallelism debugLog d n sched s = Some s' -> idle s' = true ->
    run fs parallelism debugLog d (n + k) sched s = Some s'.
Proof.
  induction n as [|n IH]; intros k sched s s' H Hi; simpl in H.
  - inversion H; subst. destruct k; simpl; [reflexivity|]. now rewrite Hi.
  - change (S n + k)%nat with (S (n + k)). simpl.
    destruct (idle s); [assumption|].
    destruct (loop_step fs parallelism debugLog d (hd 0%nat sched) s) as [s1|];
      [|discriminate].
    now apply IH.
Qed.

End Fuel.

(** Enough stack and enough turns: a run that has come to rest is the
    result of every longer run. *)
Lemma diskUsage_more W fs path parallelism debugLog d n sched (w : W) s d' n' :
  diskUsage fs path parallelism debugLog d n sched w = Some s -> idle s = true ->
  (d <= d')%nat -> (n <= n')%nat ->
  diskUsage fs path parallelism debugLog d' n' sched w = Some s.
Proof.
  unfold diskUsage, start. intros H Hi Hd Hn.
  destruct (tick parallelism d _) as [s0|] eqn:E; [|discriminate].
  replace d' with (d + (d' - d))%nat by lia. replace n' with (n + (n' - n))%nat by lia.
  rewrite (tick_more_stack W parallelism d _ _ _ E).
  apply run_more_turns; [|assumption]. now apply run_more_stack.
Qed.

(** ** What a run leaves alone, and what only grows *)

Section ReportFacts.

Variable W : Type.
Variable fs : Fs.node.
Variable path : Fs.path.
Variable parallelism : Z.
Variable debugLog : option (callback W).

Lemma sizes_nonneg_resolve : forall p n m,
  sizes_nonneg n = true -> Fs.resolve n p = inl m -> sizes_nonneg m = true.
Proof.
  induction p as [|x p IH]; intros n m Hs H; simpl in H.
  - now inversion H; subst.
  - destruct n as [b| |es]; try discriminate.
    destruct (Fs.find_entry es x) as [k|] eqn:E; [|discriminate].
    apply IH with (n := k); [|assumption].
    clear - Hs E. simpl in Hs.
    induction es as [|[n' c'] r IHr]; simpl in E; [discriminate|].
    apply andb_true_iff in Hs. destruct Hs as [Hc Hr].
    destruct (String.eqb n' x); [now inversion E; subst|]. now apply IHr.
Qed.

(** An operation leaves the header of the report alone and never lowers
    a counter. *)
Lemma exec_report o (s s1 : state W) r :
  exec fs debugLog o s = (s1, r) ->
  report_header (result s1) = report_header (result s)
  /\ counters_le (result s) (result s1)
  /\ (sizes_nonneg fs = true -> r_size (result s) <= r_size (result s1)).
Proof.
  unfold exec, readOp, statOp, Fs.readdir, Fs.stat, counters_le. intros H.
  destruct (op_exec o).
  - destruct (Fs.resolve fs (op_path o)) as [[b| |es]|e];
      try (inversion H; subst; repeat split; lia).
    destruct (call_debugLog _ _ _ _ s) as [s2 thrown] eqn:Ecb.
    apply call_debugLog_view, view_fields in Ecb. destruct Ecb as (Rr & _).
    destruct thrown; inversion H; subst; clear H.
    + rewrite Rr. repeat split; lia.
    + pose proof (queue_enqueue_all W (op_path o) (map fst es) s2) as Q.
      apply view_fields in Q. simpl in Q. destruct Q as (Qr & _).
      rewrite Qr, Rr. repeat split; lia.
  - destruct (Fs.resolve fs (op_path o)) as [[b| |es]|e] eqn:Er;
      try (inversion H; subst; repeat split; lia); simpl in H;
      apply call_debugLog_view, view_fields in H; simpl in H;
      destruct H as (Rr & _); rewrite Rr; simpl; repeat split; try lia.
    intros Hs. apply (sizes_nonneg_resolve _ _ _ Hs) in Er. simpl in Er.
    apply Z.leb_le in Er. lia.
Qed.

Lemma tick_result d (s s' : state W) :
  tick parallelism d s = Some s' -> result s' = result s.
Proof.
  apply (tick_preserves W parallelism (fun x => result x = result s)); auto.
Qed.

Lemma loop_step_report d i (s s' : state W) :
  loop_step fs parallelism debugLog d i s = Some s' ->
  report_header (result s') = report_header (result s)
  /\ counters_le (result s) (result s')
  /\ (sizes_nonneg fs = true -> r_size (result s) <= r_size (result s')).
Proof.
  unfold loop_step. intros H.
  assert (Same : forall x : state W, result x = result s ->
                 report_header (result x) = report_header (result s)
                 /\ counters_le (result s) (result x)
                 /\ (sizes_nonneg fs = true -> r_size (result s) <= r_size (result x))).
  { intros x E. rewrite E. unfold counters_le. repeat split; lia. }
  assert (K : forall k o,
             report_header (result (complete_io fs debugLog k o s))
             = report_header (result s)
             /\ counters_le (result s) (result (complete_io fs debugLog k o s))
             /\ (sizes_nonneg fs = true ->
                 r_size (result s) <= r_size (result (complete_io fs debugLog k o s)))).
  { intros k o. unfold complete_io.
    destruct (exec fs debugLog o _) as [s1 r] eqn:E.
    apply exec_report in E. exact E. }
  destruct (microtasks s) as [|j js].
  - destruct (nth_error (pendingIO s) i) as [o|].
    + inversion H; subst. apply K.
    + destruct (pendingIO s) as [|o l]; [discriminate|]. inversion H; subst. apply K.
  - destruct j as [[o|]| |err]; simpl in H.
    + inversion H; subst. now apply Same.
    + inversion H; subst. now apply Same.
    + apply tick_result in H. now apply Same.
    + inversion H; subst. apply Same. simpl. destruct (completed s); reflexivity.
Qed.

Lemma run_report d n :
  forall sched (s s' : state W),
    run fs parallelism debugLog d n sched s = Some s' ->
    report_header (result s') = report_header (result s)
    /\ counters_le (result s) (result s')
    /\ (sizes_nonneg fs = true -> r_size (result s) <= r_size (result s')).
Proof.
  induction n as [|n IH]; intros sched s s' H; simpl in H.
  - inversion H; subst. unfold counters_le. repeat split; lia.
  - destruct (idle s).
    + inversion H; subst. unfold counters_le. repeat split; lia.
    + destruct (loop_step fs parallelism debugLog d (hd 0%nat sched) s) as [s1|] eqn:E;
        [|discriminate].
      apply loop_step_report in E. apply IH in H.
      destruct E as (E1 & (E2 & E3) & E4). destruct H as (H1 & (H2 & H3) & H4).
      unfold counters_le. repeat split; try congruence; try lia.
      intros Hs. specialize (E4 Hs). specialize (H4 Hs). lia.
Qed.

Lemma diskUsage_header d n sched (w : W) s :
  diskUsage fs path parallelism debugLog d n sched w = Some s ->
  report_header (result s) = (path, parallelism, 0).
Proof.
  unfold diskUsage, start. intros H.
  destruct (tick parallelism d _) as [s0|] eqn:E; [|discriminate].
  apply run_report in H. destruct H as (H & _). rewrite H.
  apply tick_result in E. rewrite E. reflexivity.
Qed.

End ReportFacts.

(** ** A ceiling of two or more: which error, and when *)

Section Overcommitted.

Variable W : Type.
Variable fs : Fs.node.
Variable path : Fs.path.
Variable parallelism : Z.
Variable debugLog : option (callback W).
Hypothesis ceiling_above_one : 2 <= parallelism.

Lemma Masked_tick d (s s' : state W) :
  Masked s -> tick parallelism d s = Some s' -> Masked s'.
Proof.
  apply tick_preserves.
  - intros x [[Ec _]|(_ & _ & Ha & _)] Ec' _ E0 _; [congruence|lia].
  - intros x o q [[Ec _]|(Ec & Ep & Ha & Ht & Hb & Ho)] Ec' _ _ _; [congruence|].
    right. simpl. rewrite !existsb_app, Ht, Hb, Ho. simpl.
    repeat split; auto; lia.
Qed.

Lemma Masked_start d w (s : state W) :
  start path parallelism d w = Some s -> Masked s.
Proof.
  unfold start. set (seed := enqueueStat path (initial path parallelism w)).
  assert (E1 : forall k, tick parallelism (S k) seed
                         = tick parallelism k (launch (Some (mk_op path ExecStat)) [] seed)).
  { intros k. rewrite tick_launch_step; [reflexivity|reflexivity| |].
    - right. simpl. lia.
    - intros [_ E]. discriminate. }
  assert (E2 : forall k, tick parallelism (S k) (launch (Some (mk_op path ExecStat)) [] seed)
                         = tick parallelism k
                             (launch None [] (launch (Some (mk_op path ExecStat)) [] seed))).
  { intros k. rewrite tick_launch_step; [reflexivity|reflexivity| |].
    - right. simpl. lia.
    - intros [E _]. discriminate. }
  destruct d as [|[|d]]; [discriminate| |].
  - rewrite E1. discriminate.
  - rewrite E1, E2. apply Masked_tick. right. simpl. repeat split; auto.
Qed.

Lemma Masked_loop_step d i (s s' : state W) :
  Masked s -> loop_step fs parallelism debugLog d i s = Some s' -> Masked s'.
Proof.
  intros [[Ec Ee]|(Ec & Ep & Ha & Ht & Hb & Ho)] H.
  - left. apply loop_step_after_completion in H; [|exact Ec].
    destruct H as (Hc & Hp & _). split; [assumption|congruence].
  - unfold loop_step in H. destruct (microtasks s) as [|j js]; [discriminate|].
    simpl in Ht, Hb, Ho. apply orb_false_iff in Ht. destruct Ht as [Hj Ht].
    apply orb_false_iff in Ho. destruct Ho as [Hoj Ho].
    destruct j as [[o|]| |err]; simpl in H, Hb; try discriminate.
    + inversion H; subst. right. simpl. auto 10.
    + inversion H; subst. right. simpl. rewrite !existsb_app, Ht, Ho. simpl.
      repeat split; auto. apply orb_true_r.
    + inversion H; subst. left. simpl. rewrite Ec, Ep. simpl.
      destruct err; try discriminate. auto.
Qed.

Lemma Masked_run d n :
  forall sched (s s' : state W),
    Masked s -> run fs parallelism debugLog d n sched s = Some s' -> Masked s'.
Proof.
  induction n as [|n IH]; intros sched s s' D H; simpl in H.
  - now inversion H; subst.
  - destruct (idle s); [now inversion H; subst|].
    destruct (loop_step fs parallelism debugLog d (hd 0%nat sched) s) as [s1|] eqn:E;
      [|discriminate].
    eapply IH; [|exact H]. eapply Masked_loop_step; eauto.
Qed.

Lemma Masked_diskUsage d n sched w (s : state W) :
  diskUsage fs path parallelism debugLog d n sched w = Some s -> Masked s.
Proof.
  unfold diskUsage. intros H.
  destruct (start path parallelism d w) as [s0|] eqn:E; [|discriminate].
  eapply Masked_run; [|exact H]. eapply Masked_start; eauto.
Qed.

(** [tick] fills the ceiling: with an empty queue it launches
    [undefined] until [activeCount] is [parallelism]. *)
Lemma tick_fills k :
  forall d (s : state W),
    completed s = false -> queue s = [] -> 0 < activeCount s ->
    activeCount s + Z.of_nat k = parallelism -> (k < d)%nat ->
    tick parallelism d s
    = Some (mk_state (result s) parallelism [] false (resultPromise s)
                     (microtasks s ++ repeat (JExec None) k) (pendingIO s) (world s)).
Proof.
  induction k as [|k IH]; intros d s Ec Eq Ha Hk Hd.
  - destruct d as [|d]; [lia|]. rewrite tick_unfold, Ec.
    destruct (Z.eqb_spec parallelism 0); [lia|].
    destruct (Z.leb_spec parallelism (activeCount s)); [|lia]. simpl.
    destruct s as [r a q c pr m io w]. simpl in *. subst.
    rewrite app_nil_r. do 2 f_equal. lia.
  - destruct d as [|d]; [lia|]. rewrite tick_launch_step; auto.
    + rewrite Eq. simpl. rewrite IH; simpl; auto; try lia.
      rewrite <- app_assoc. reflexivity.
    + right. lia.
    + intros [E _]. lia.
Qed.

Lemma run_microtask d n sched (s s1 : state W) j js :
  microtasks s = j :: js ->
  run_job parallelism d j (with_microtasks js s) = Some s1 ->
  run fs parallelism debugLog d (S n) sched s
  = run fs parallelism debugLog d n sched s1.
Proof.
  intros Em H. simpl. unfold idle, loop_step. rewrite Em, H. reflexivity.
Qed.

(** Every call of [undefined.exec] throws, and its error handler joins
    the end of the microtask queue. *)
Lemma drain_undefined d sched i :
  forall j (s : state W),
    microtasks s = repeat (JExec None) i ++ repeat (JCatch TypeError) j ->
    forall n, run fs parallelism debugLog d (i + n) sched s
              = run fs parallelism debugLog d n sched
                    (with_microtasks (repeat (JCatch TypeError) (j + i)) s).
Proof.
  induction i as [|i IH]; intros j s Em n.
  - simpl in Em. change (0 + n)%nat with n. rewrite Nat.add_0_r, <- Em.
    destruct s; reflexivity.
  - change (S i + n)%nat with (S (i + n)). simpl in Em.
    rewrite (run_microtask d _ sched s _ _ _ Em eq_refl).
    rewrite (IH (S j)).
    + simpl. replace (j + S i)%nat with (S (j + i)) by lia. reflexivity.
    + simpl. rewrite <- app_assoc. f_equal. simpl. symmetry. apply repeat_cons.
Qed.

(** Once the run is completed, an error handler only decrements
    [activeCount]. *)
Lemma drain_catches d sched e i :
  forall (s : state W),
    completed s = true -> microtasks s = repeat (JCatch e) i ->
    forall n, run fs parallelism debugLog d (i + n) sched s
              = run fs parallelism debugLog d n sched
                    (with_microtasks [] (with_activeCount (activeCount s - Z.of_nat i) s)).
Proof.
  induction i as [|i IH]; intros s Ec Em n.
  - simpl. simpl in Em. rewrite Z.sub_0_r. destruct s; simpl in *; subst. reflexivity.
  - change (S i + n)%nat with (S (i + n)). simpl in Em.
    assert (H : run_job parallelism d (JCatch e) (with_microtasks (repeat (JCatch e) i) s)
                = Some (with_activeCount (activeCount s - 1)
                          (with_microtasks (repeat (JCatch e) i) s))).
    { simpl. rewrite Ec. reflexivity. }
    rewrite (run_microtask d _ sched s _ _ _ Em H).
    rewrite IH; [|exact Ec|reflexivity].
    replace (Z.of_nat (S i)) with (Z.of_nat i + 1) by lia.
    f_equal. unfold with_microtasks, with_activeCount.
    cbn [result activeCount queue completed resultPromise microtasks pendingIO world].
    f_equal. lia.
Qed.

(** The whole run under a ceiling of [k + 2]: the stat of the root is
    issued, [k + 1] calls of [undefined.exec] throw, the first handler
    rejects the run, the others and the one filesystem call follow. *)
Lemma overcommitted_run k sched (w : W) :
  parallelism = Z.of_nat k + 2 ->
  exists s,
    diskUsage fs path parallelism debugLog (S (S (S k))) (2 * k + 5) sched w = Some s
    /\ idle s = true /\ resultPromise s = Rejected TypeError
    /\ completed s = true /\ activeCount s = 0.
Proof.
  intros Hk. unfold diskUsage, start.
  set (root := mk_op path ExecStat).
  set (seed := enqueueStat path (initial path parallelism w)).
  assert (E0 : tick parallelism (S (S (S k))) seed
               = Some (mk_state (mk_report path parallelism 0 0 0 0) parallelism [] false
                                Pending (JExec (Some root) :: repeat (JExec None) (S k))
                                [] w)).
  { assert (E1 : tick parallelism (S (S (S k))) seed
                 = tick parallelism (S (S k)) (launch (Some root) [] seed)).
    { rewrite tick_launch_step; [reflexivity|reflexivity| |].
      - right. simpl. lia.
      - intros [_ E]. discriminate. }
    rewrite E1, (tick_fills (S k)); [reflexivity|reflexivity|reflexivity| | |lia].
    - simpl. lia.
    - cbn [activeCount launch enqueue_job with_microtasks with_activeCount with_queue].
      change (activeCount seed) with 0. lia. }
  rewrite E0. clear E0.
  set (R := mk_report path parallelism 0 0 0 0).
  set (d := S (S (S k))).
  set (S1 := mk_state R parallelism [] false Pending (repeat (JExec None) (S k)) [root] w).
  set (S2 := mk_state R parallelism [] false Pending (repeat (JCatch TypeError) (S k))
                      [root] w).
  set (S3 := mk_state R (parallelism - 1) [] true (Rejected TypeError)
                      (repeat (JCatch TypeError) k) [root] w).
  set (S4 := mk_state R 1 [] true (Rejected TypeError) [] [root] w).
  replace (2 * k + 5)%nat with (S (S k + (S (k + 2)))) by lia.
  rewrite (run_microtask d _ sched
             (mk_state R parallelism [] false Pending
                       (JExec (Some root) :: repeat (JExec None) (S k)) [] w)
             S1 (JExec (Some root)) (repeat (JExec None) (S k)) eq_refl eq_refl).
  rewrite (drain_undefined d sched (S k) 0 S1);
    [|unfold S1; simpl; now rewrite app_nil_r].
  change (with_microtasks (repeat (JCatch TypeError) (0 + S k)) S1) with S2.
  rewrite (run_microtask d _ sched S2 S3 (JCatch TypeError)
             (repeat (JCatch TypeError) k) eq_refl eq_refl).
  rewrite (drain_catches d sched TypeError k S3 eq_refl eq_refl).
  replace (with_microtasks [] (with_activeCount (activeCount S3 - Z.of_nat k) S3)) with S4
    by (unfold S4, S3, with_microtasks, with_activeCount; simpl; f_equal; lia).
  destruct (exec fs debugLog root (with_pendingIO [] S4)) as [sx r] eqn:Ex.
  pose proof (exec_frame _ _ _ _ _ _ _ Ex) as F. simpl in F.
  destruct F as (Fa & Fc & Fp & Fm & Fi & _).
  destruct sx as [rx ax qx cx px mx iox wx]. simpl in Fa, Fc, Fp, Fm, Fi.
  subst ax cx px mx iox.
  rewrite (run_turn W fs debugLog parallelism d 1 sched S4
             (complete_io fs debugLog 0 root S4));
    [|reflexivity|now apply loop_step_single_io].
  unfold complete_io.
  change (with_pendingIO (remove_nth 0 (pendingIO S4)) S4) with (with_pendingIO [] S4).
  rewrite Ex.
  destruct r as [e|].
  - erewrite run_microtask; [|reflexivity|reflexivity].
    eexists. split; [reflexivity|]. simpl. auto.
  - erewrite run_microtask; [|reflexivity|reflexivity].
    eexists. split; [reflexivity|]. simpl. auto.
Qed.

End Overcommitted.

(** ** Counting the calls of the debug callback *)

Section Counting.

Variable W : Type.
Variable fs : Fs.node.
Variable path : Fs.path.
Variable parallelism : Z.
Variable debugLog : option (callback W).
Variable cb : callback W.
Variable calls : W -> Z.
Variable w0 : W.
Hypothesis fs_wf : Fs.well_formed fs = true.
Hypothesis debugLog_cb : debugLog = Some cb.
Hypothesis cb_quiet : returns_normally cb.
Hypothesis cb_counts : forall kind p info w, calls (fst (cb kind p info w)) = calls w + 1.

Lemma some_cb_quiet : forall c, debugLog = Some c -> returns_normally c.
Proof. intros c E. rewrite debugLog_cb in E. inversion E; subst. exact cb_quiet. Qed.

Lemma call_debugLog_counts kind p info (s s1 : state W) r :
  call_debugLog debugLog kind p info s = (s1, r) ->
  calls (world s1) = calls (world s) + 1.
Proof.
  unfold call_debugLog. rewrite debugLog_cb. pose proof (cb_counts kind p info (world s)) as C.
  destruct (cb kind p info (world s)) as [w' r']. simpl in C.
  intros H; injection H as <-. exact C.
Qed.

Lemma world_enqueue_all p files :
  forall s : state W,
    world (fold_left (fun acc file => enqueueStat (p ++ [file]) acc) files s) = world s.
Proof.
  induction files as [|x files IH]; intros s; simpl; [reflexivity|]. now rewrite IH.
Qed.

(** Every operation that succeeds has called the callback exactly once. *)
Lemma exec_counts o (s s1 : state W) :
  exec fs debugLog o s = (s1, None) ->
  valid_op fs o /\ calls (world s1) = calls (world s) + 1.
Proof.
  destruct o as [p k]. unfold valid_op, exec, readOp, statOp, Fs.readdir, Fs.stat. simpl.
  intros H. destruct k.
  - destruct (Fs.resolve fs p) as [[b| |es]|e]; try discriminate.
    destruct (call_debugLog _ _ _ _ s) as [s2 thrown] eqn:Ecb.
    destruct thrown; [discriminate|]. injection H as <-.
    split; [exact I|]. rewrite world_enqueue_all. eapply call_debugLog_counts; eauto.
  - destruct (Fs.resolve fs p) as [[b| |es]|e]; try discriminate; simpl in H;
      (split; [exact I|]); apply call_debugLog_counts in H; exact H.
Qed.

Lemma Logged_finish (s : state W) :
  Logged fs path calls w0 s -> Logged fs path calls w0 (finish s).
Proof.
  intros [[[e He]|Hc]|Heq].
  - left; left. exists e. simpl. now rewrite He.
  - left; right. exact Hc.
  - right. exact Heq.
Qed.

Lemma Logged_launch (s : state W) o q :
  Logged fs path calls w0 s -> array_pop (queue s) = (o, q) ->
  Logged fs path calls w0 (launch o q s).
Proof.
  intros [[He|Hc]|Heq] Hp.
  - left; left. exact He.
  - left; right. simpl. rewrite has_catch_app, Hc. reflexivity.
  - right. rewrite <- Heq. unfold pending_visits. simpl.
    rewrite sum_of_app. simpl.
    apply array_pop_cases in Hp. destruct Hp as [(Eq & Eo & Eq')|(x & Eo & Eq)]; subst.
    + rewrite Eq. simpl. lia.
    + rewrite Eq, sum_of_app. simpl. lia.
Qed.

Lemma Logged_tick d (s s' : state W) :
  Logged fs path calls w0 s -> tick parallelism d s = Some s' ->
  Logged fs path calls w0 s'.
Proof.
  apply tick_preserves.
  - intros; now apply Logged_finish.
  - intros; now apply Logged_launch.
Qed.

Lemma Logged_run_job d j js (s s' : state W) :
  Inv parallelism s -> Logged fs path calls w0 s -> microtasks s = j :: js ->
  run_job parallelism d j (with_microtasks js s) = Some s' ->
  Logged fs path calls w0 s'.
Proof.
  intros I T Em H.
  assert (NF : resultPromise s <> Fulfilled).
  { intros E. apply (Inv_fulfilled_idle _ _ _ I) in E. destruct E; congruence. }
  destruct j as [[o|]| |err]; simpl in H.
  - injection H as <-. destruct T as [[He|Hc]|Heq].
    + left; left. exact He.
    + left; right. simpl. now rewrite Em in Hc.
    + right. rewrite <- Heq. unfold pending_visits. simpl.
      rewrite Em, sum_of_app. simpl. lia.
  - injection H as <-. left; right. simpl.
    rewrite has_catch_app. simpl. apply orb_true_r.
  - eapply Logged_tick; [|exact H]. destruct T as [[He|Hc]|Heq].
    + left; left. exact He.
    + left; right. simpl. now rewrite Em in Hc.
    + right. rewrite <- Heq. unfold pending_visits. simpl.
      rewrite Em. simpl. lia.
  - injection H as <-. left; left. simpl.
    destruct I as [_ _ Hf _].
    destruct (completed s) eqn:Ec; simpl.
    + destruct (resultPromise s) as [| |e] eqn:Ep.
      * exfalso. now apply Hf.
      * contradiction.
      * eauto.
    + destruct (resultPromise s) as [| |e] eqn:Ep; simpl; eauto.
      contradiction.
Qed.

Lemma Logged_complete_io i o (s : state W) :
  Logged fs path calls w0 s -> nth_error (pendingIO s) i = Some o ->
  Logged fs path calls w0 (complete_io fs debugLog i o s).
Proof.
  intros T Hn. unfold complete_io.
  destruct (exec fs debugLog o _) as [s1 r] eqn:E.
  pose proof (exec_frame _ _ _ _ _ _ _ E) as F. simpl in F.
  destruct F as (Fa & Fc & Fp & Fm & Fi & _).
  destruct r as [e|].
  - left; right. simpl. rewrite has_catch_app. simpl. apply orb_true_r.
  - destruct T as [[He|Hc]|Heq].
    + left; left. simpl. now rewrite Fp.
    + left; right. simpl. rewrite has_catch_app, Fm, Hc. reflexivity.
    + right. rewrite <- Heq. unfold pending_visits. simpl.
      destruct (exec_counts _ _ _ E) as [Hv Hw]. simpl in Hw.
      destruct (exec_valid W fs debugLog fs_wf some_cb_quiet _ _ _ _ Hv E)
        as (_ & added & Eq & _ & Hsum).
      simpl in Eq.
      rewrite sum_of_app, Fm, Fi, Eq, sum_of_app,
        (sum_of_remove_nth (op_visits fs) _ _ _ Hn).
      simpl. lia.
Qed.

Lemma Logged_loop_step d i (s s' : state W) :
  Inv parallelism s -> Logged fs path calls w0 s ->
  loop_step fs parallelism debugLog d i s = Some s' -> Logged fs path calls w0 s'.
Proof.
  unfold loop_step. intros I T H.
  destruct (microtasks s) as [|j js] eqn:Em.
  - destruct (nth_error (pendingIO s) i) as [o|] eqn:En.
    + injection H as <-. now apply Logged_complete_io.
    + destruct (pendingIO s) as [|o l] eqn:Ep; [discriminate|].
      injection H as <-. apply Logged_complete_io; auto. now rewrite Ep.
  - eapply Logged_run_job; eauto.
Qed.

Lemma Logged_run d n :
  forall sched (s s' : state W),
    Inv parallelism s -> Logged fs path calls w0 s ->
    run fs parallelism debugLog d n sched s = Some s' -> Logged fs path calls w0 s'.
Proof.
  induction n as [|n IH]; intros sched s s' I T H; simpl in H.
  - now injection H as <-.
  - destruct (idle s); [now inversion H; subst|].
    destruct (loop_step fs parallelism debugLog d (hd 0%nat sched) s) as [s1|] eqn:E;
      [|discriminate].
    eapply IH; [| |exact H].
    + eapply Inv_loop_step; eauto.
    + eapply Logged_loop_step; eauto.
Qed.

Lemma Logged_diskUsage d n sched (s : state W) :
  diskUsage fs path parallelism debugLog d n sched w0 = Some s ->
  Logged fs path calls w0 s.
Proof.
  unfold diskUsage, start. intros H.
  destruct (tick parallelism d _) as [s0|] eqn:E; [|discriminate].
  eapply Logged_run; [| |exact H].
  - eapply Inv_tick; [|exact E]. apply Inv_seed.
  - eapply Logged_tick; [|exact E]. right. unfold pending_visits. simpl. lia.
Qed.

Lemma fulfilled_calls d n sched (s : state W) :
  diskUsage fs path parallelism debugLog d n sched w0 = Some s ->
  resultPromise s = Fulfilled ->
  calls (world s) = calls w0 + op_visits fs (mk_op path ExecStat).
Proof.
  intros H E.
  pose proof (Inv_diskUsage _ _ _ _ _ _ _ _ _ _ H) as I.
  pose proof (Logged_diskUsage _ _ _ _ H) as T.
  destruct (Inv_fulfilled_idle _ _ _ I E) as (Em & Ei & Eq).
  destruct T as [[[e He]|Hc]|Heq].
  - congruence.
  - rewrite Em in Hc. discriminate.
  - rewrite <- Heq. unfold pending_visits. rewrite Em, Ei, Eq. simpl. lia.
Qed.

End Counting.

(** ** A positive ceiling: the event loop does not run dry *)

Section NoStall.

Variable W : Type.
Variable fs : Fs.node.
Variable path : Fs.path.
Variable parallelism : Z.
Variable debugLog : option (callback W).
Hypothesis ceiling_positive : 0 < parallelism.

Lemma idle_activeCount (s : state W) :
  Inv parallelism s -> idle s = true -> activeCount s = 0.
Proof.
  intros [Hc _ _ _]. unfold idle.
  destruct (microtasks s), (pendingIO s); try discriminate. intros _. exact Hc.
Qed.

Lemma tick_keeps_busy d :
  forall s s' : state W,
    Inv parallelism s -> tick parallelism d s = Some s' ->
    idle s' = true -> completed s' = true.
Proof.
  induction d as [|d IH]; intros s s' I H Hi; [discriminate|].
  rewrite tick_unfold in H.
  destruct (completed s) eqn:Ec; [inversion H; subst; assumption|].
  destruct (negb (parallelism =? 0) && (parallelism <=? activeCount s)) eqn:El.
  - inversion H; subst. apply andb_true_iff in El. destruct El as [_ El].
    apply Z.leb_le in El. pose proof (idle_activeCount _ I Hi). lia.
  - destruct ((activeCount s =? 0) && (List.length (queue s) =? 0)%nat) eqn:Ed.
    + inversion H; subst. reflexivity.
    + eapply IH; [|exact H|exact Hi]. apply Inv_launch; auto.
      now apply ceiling_test in El.
Qed.

Lemma loop_step_keeps_busy d i (s s' : state W) :
  Inv parallelism s -> loop_step fs parallelism debugLog d i s = Some s' ->
  idle s' = true -> completed s' = true.
Proof.
  unfold loop_step. intros I H Hi.
  assert (K : forall k o, idle (complete_io fs debugLog k o s) = false).
  { intros k o. unfold complete_io. destruct (exec fs debugLog o _) as [s1 r].
    unfold idle. simpl. destruct (microtasks s1); reflexivity. }
  destruct (microtasks s) as [|j js] eqn:Em.
  - destruct (nth_error (pendingIO s) i) as [o|].
    + inversion H; subst. rewrite K in Hi. discriminate.
    + destruct (pendingIO s) as [|o l]; [discriminate|]. inversion H; subst.
      rewrite K in Hi. discriminate.
  - destruct j as [[o|]| |err]; simpl in H.
    + inversion H; subst. unfold idle in Hi. simpl in Hi.
      destruct js; [|discriminate]. destruct (pendingIO s); discriminate.
    + inversion H; subst. unfold idle in Hi. simpl in Hi.
      destruct js; discriminate.
    + eapply tick_keeps_busy; [|exact H|exact Hi].
      destruct I as [Hc Hl Hf Hd]. rewrite Em in Hc. simpl in Hc.
      assert (NF : resultPromise s <> Fulfilled).
      { intros E. destruct (Hd E) as [Ha _].
        rewrite Ha in Hc. lia. }
      constructor; simpl; try tauto; lia.
    + inversion H; subst. cbn. destruct (completed s) eqn:Ec; cbn; auto.
Qed.

Lemma run_keeps_busy d n :
  forall sched (s s' : state W),
    Inv parallelism s -> (idle s = true -> completed s = true) ->
    run fs parallelism debugLog d n sched s = Some s' ->
    idle s' = true -> completed s' = true.
Proof.
  induction n as [|n IH]; intros sched s s' I B H; simpl in H.
  - inversion H; subst. exact B.
  - destruct (idle s) eqn:Hi; [inversion H; subst; auto|].
    destruct (loop_step fs parallelism debugLog d (hd 0%nat sched) s) as [s1|] eqn:E;
      [|discriminate].
    eapply IH; [| |exact H].
    + eapply Inv_loop_step; eauto.
    + eapply loop_step_keeps_busy; eauto.
Qed.

Lemma diskUsage_keeps_busy d n sched (w : W) s :
  diskUsage fs path parallelism debugLog d n sched w = Some s ->
  idle s = true -> resultPromise s <> Pending.
Proof.
  intros H Hi.
  pose proof (Inv_diskUsage _ _ _ _ _ _ _ _ _ _ H) as [_ _ Hf _].
  apply Hf. revert H Hi. unfold diskUsage, start.
  destruct (tick parallelism d _) as [s0|] eqn:E; [|discriminate].
  apply run_keeps_busy.
  - eapply Inv_tick; [|exact E]. apply Inv_seed.
  - eapply tick_keeps_busy; [|exact E]. apply Inv_seed.
Qed.

End NoStall.

(** ** The option of [experiment]: splitting and parsing *)

Section Parsing.

Open Scope string_scope.

Lemma split_nonempty s : Js.split s <> [].
Proof.
  destruct s as [|c r]; simpl; [discriminate|].
  destruct (Ascii.eqb c " "); [discriminate|]. destruct (Js.split r); discriminate.
Qed.

(** Splitting undoes one separator: [(a + ' ' + b).split(' ')] is
    [a.split(' ')] followed by [b.split(' ')]. *)
Lemma split_app a b :
  Js.split (a ++ String " " b) = (Js.split a ++ Js.split b)%list.
Proof.
  induction a as [|c r IH]; simpl; [reflexivity|].
  destruct (Ascii.eqb c " "); rewrite IH; [reflexivity|].
  pose proof (split_nonempty r). destruct (Js.split r); [contradiction|reflexivity].
Qed.

Lemma digit_is_plain c :
  is_digit c = true ->
  Ascii.eqb c " " = false /\ Ascii.eqb c "-" = false /\ Ascii.eqb c "+" = false
  /\ Js.is_white_space c = false.
Proof.
  destruct c as [[] [] [] [] [] [] [] []]; vm_compute; intros H;
    try discriminate; repeat split.
Qed.

Lemma split_digits s : all_digits s = true -> Js.split s = [s].
Proof.
  induction s as [|c r IH]; simpl; [reflexivity|].
  intros H. apply andb_true_iff in H. destruct H as [Hc Hr].
  destruct (digit_is_plain c Hc) as (-> & _). rewrite (IH Hr). reflexivity.
Qed.

Lemma trimEnd_digits s : all_digits s = true -> Js.trimEnd s = s.
Proof.
  induction s as [|c r IH]; simpl; [reflexivity|].
  intros H. apply andb_true_iff in H. destruct H as [Hc Hr].
  rewrite (IH Hr). destruct (digit_is_plain c Hc) as (_ & _ & _ & ->).
  destruct r; reflexivity.
Qed.

Lemma trim_digits s : all_digits s = true -> Js.trim s = s.
Proof.
  intros H. unfold Js.trim.
  assert (E : Js.trimStart s = s).
  { destruct s as [|c r]; [reflexivity|]. simpl in *.
    apply andb_true_iff in H. destruct H as [Hc _].
    now destruct (digit_is_plain c Hc) as (_ & _ & _ & ->). }
  rewrite E. now apply trimEnd_digits.
Qed.

Lemma parseInt_digits s :
  all_digits s = true -> s <> "" ->
  Js.parseInt s = Js.nearest_double (Js.digits s 0).
Proof.
  intros H Hn. destruct s as [|c r]; [contradiction|].
  pose proof H as H'. simpl in H'. apply andb_true_iff in H'. destruct H' as [Hc _].
  destruct (digit_is_plain c Hc) as (_ & Em & Ep & Ew).
  unfold Js.parseInt. cbn [Js.trimStart]. rewrite Ew, Em, Ep.
  unfold Js.starts_with_digit. unfold is_digit in Hc.
  destruct (Js.digit c); [reflexivity|discriminate].
Qed.

(** Up to 53 bits an integer is a number of its own, and is printed with
    all its digits. *)
Lemma nearest_double_small z :
  (Z.abs z < 2 ^ 53)%Z -> Js.nearest_double z = Js.Integer z.
Proof.
  intros H. unfold Js.nearest_double.
  assert (L : (Z.log2 (Z.abs z) - 52 <= 0)%Z).
  { destruct (Z.eq_dec (Z.abs z) 0%Z) as [E|E]; [rewrite E; simpl; lia|].
    assert (Z.log2 (Z.abs z) < 53)%Z; [|lia].
    apply Z.log2_lt_pow2; lia. }
  destruct (Z.leb_spec (Z.log2 (Z.abs z) - 52) 0)%Z; [reflexivity|lia].
Qed.

Lemma to_string_small z :
  (0 <= z < 2 ^ 53)%Z -> Js.to_string (Js.Integer z) = string_of_Z z.
Proof.
  intros H. unfold Js.to_string, Js.positive_to_string.
  destruct (Z.ltb_spec z 0%Z); [lia|].
  destruct (Z.ltb_spec z (2 ^ 53)%Z); [reflexivity|lia].
Qed.

Lemma nearest_double_whole z : exists x, Js.nearest_double z = x /\
  match x with Js.Integer _ | Js.Infinity _ => True | _ => False end.
Proof.
  unfold Js.nearest_double. cbv zeta.
  destruct (_ <=? 0)%Z; [eexists; split; [reflexivity|exact I]|].
  destruct (2 ^ 1024 <=? _)%Z; eexists; split; try reflexivity; exact I.
Qed.

(** The digits [Pos.to_uint] and [NilEmpty.string_of_uint] write are
    read back by [Js.digits]. *)
Lemma uint_all_digits d : all_digits (NilEmpty.string_of_uint d) = true.
Proof. induction d; simpl; auto. Qed.

Lemma digits_uint d :
  forall acc : N,
    Js.digits (NilEmpty.string_of_uint d) (Z.of_N acc)
    = Z.of_N (match acc with
              | N0 => Pos.of_uint d
              | Npos p => Npos (Pos.of_uint_acc d p)
              end).
Proof.
  assert (step : forall c k r acc,
             Js.digit c = Some k ->
             Js.digits (String c r) acc = Js.digits r (10 * acc + k))
    by (intros c k r acc E; simpl; now rewrite E).
  assert (ten : forall p, Pos.mul 10 p = Pos.of_uint_acc (Decimal.D0 Decimal.Nil) p)
    by reflexivity.
  induction d as [|d IH|d IH|d IH|d IH|d IH|d IH|d IH|d IH|d IH|d IH];
    intros acc; [destruct acc; reflexivity|..];
    cbn [NilEmpty.string_of_uint];
    (erewrite step by (vm_compute; reflexivity));
    destruct acc as [|p]; cbn [Pos.of_uint Pos.of_uint_acc];
    try (change (10 * Z.of_N 0 + 0) with (Z.of_N 0); apply (IH N0));
    try (match goal with
         | |- Js.digits _ (10 * Z.of_N 0 + ?k) = _ =>
             change (10 * Z.of_N 0 + k) with (Z.of_N (N.pos (Z.to_pos k)));
             rewrite (IH (N.pos (Z.to_pos k))); reflexivity
         end);
    match goal with
    | |- Js.digits _ (10 * Z.of_N (N.pos p) + ?k) = Z.of_N (N.pos (Pos.of_uint_acc d ?q)) =>
        replace (10 * Z.of_N (N.pos p) + k) with (Z.of_N (N.pos q))
          by (cbn [Z.of_N]; lia);
        apply (IH (N.pos q))
    end.
Qed.

Lemma string_of_Z_pos p :
  string_of_Z (Z.pos p) = NilEmpty.string_of_uint (Pos.to_uint p).
Proof.
  unfold string_of_Z. cbn [Z.to_int NilZero.string_of_int NilZero.string_of_uint].
  pose proof (DecimalPos.Unsigned.to_uint_nonnil p).
  unfold NilZero.string_of_uint. destruct (Pos.to_uint p); [contradiction|..]; reflexivity.
Qed.

Lemma string_of_Z_digits z :
  0 <= z ->
  all_digits (string_of_Z z) = true /\ string_of_Z z <> ""
  /\ Js.digits (string_of_Z z) 0 = z.
Proof.
  intros Hz. destruct z as [|p|p]; [repeat split; discriminate| |lia].
  rewrite string_of_Z_pos. split; [apply uint_all_digits|]. split.
  - pose proof (DecimalPos.Unsigned.to_uint_nonnil p).
    destruct (Pos.to_uint p); [contradiction|..]; discriminate.
  - rewrite (digits_uint _ N0), DecimalPos.Unsigned.of_to. reflexivity.
Qed.

Lemma parse_item_string_of_Z z :
  (0 <= z < 2 ^ 53)%Z -> Experiment.parse_item (string_of_Z z) = inl (Js.Integer z).
Proof.
  intros Hz. destruct (string_of_Z_digits z) as (Ha & Hn & Hd); [lia|].
  unfold Experiment.parse_item.
  rewrite (trim_digits _ Ha), (parseInt_digits _ Ha Hn), Hd, nearest_double_small by lia.
  simpl. destruct (Z.ltb_spec z 0%Z); [lia|reflexivity].
Qed.

Lemma join_cons x y r : Js.join (x :: y :: r) = x ++ String " " (Js.join (y :: r)).
Proof. reflexivity. Qed.

Lemma split_join_numbers values :
  values <> [] -> Forall (fun v => 0 <= v) values ->
  Js.split (Js.join (map string_of_Z values)) = map string_of_Z values.
Proof.
  induction values as [|v [|v' r] IH]; intros Hn H; [contradiction| |].
  - inversion H; subst. simpl. apply split_digits.
    now destruct (string_of_Z_digits v).
  - inversion H; subst. cbn [map]. rewrite join_cons, split_app.
    change (Js.join (string_of_Z v' :: map string_of_Z r))
      with (Js.join (map string_of_Z (v' :: r))).
    rewrite IH by (auto; discriminate).
    rewrite split_digits by now destruct (string_of_Z_digits v). reflexivity.
Qed.

Lemma map_items_numbers values :
  Forall (fun v => 0 <= v < 2 ^ 53)%Z values ->
  Experiment.map_items (map string_of_Z values) = inl (map Js.Integer values).
Proof.
  induction 1 as [|v r Hv _ IH]; simpl; [reflexivity|].
  now rewrite (parse_item_string_of_Z _ Hv), IH.
Qed.

Lemma parseInt_whole s :
  match Js.parseInt s with Js.Fraction _ _ => False | _ => True end.
Proof.
  unfold Js.parseInt. cbv zeta.
  destruct (Js.trimStart s) as [|c r];
    [|destruct (Ascii.eqb c "-"); [|destruct (Ascii.eqb c "+")]];
    cbv iota beta;
    (destruct (Js.starts_with_digit _); [|exact I]);
    match goal with
    | |- match Js.nearest_double ?v with _ => _ end =>
        destruct (nearest_double_whole v) as (x & -> & Hx); destruct x; auto
    end.
Qed.

Lemma parse_item_accepted item value :
  Experiment.parse_item item = inl value -> accepted value.
Proof.
  unfold Experiment.parse_item. cbv zeta.
  pose proof (parseInt_whole (Js.trim item)) as Hw.
  destruct (Js.parseInt (Js.trim item)) as [|z|b t|neg]; simpl.
  - discriminate.
  - destruct (Z.ltb_spec z 0%Z) as [Hz|Hz]; [discriminate|].
    intros K; inversion K; subst. right. eauto.
  - contradiction.
  - destruct neg; [discriminate|]. intros K; inversion K; subst. now left.
Qed.

Lemma split_length s : List.length (Js.split s) = S (count_spaces s).
Proof.
  induction s as [|c r IH]; simpl; [reflexivity|].
  destruct (Ascii.eqb c " "); simpl; [now rewrite IH|].
  destruct (Js.split r); simpl in *; [discriminate|exact IH].
Qed.

Lemma map_items_accepts items :
  forall values,
    Experiment.map_items items = inl values ->
    Forall2 (fun item value => Experiment.parse_item item = inl value) items values.
Proof.
  induction items as [|item rest IH]; simpl; intros values H.
  - inversion H. constructor.
  - destruct (Experiment.parse_item item) as [v|] eqn:E; [|discriminate].
    destruct (Experiment.map_items rest) as [vs|]; [|discriminate].
    inversion H; subst. constructor; auto.
Qed.

Lemma map_items_rejects items item message :
  In item items -> Experiment.parse_item item = inr message ->
  exists message', Experiment.map_items items = inr message'.
Proof.
  induction items as [|x rest IH]; simpl; intros Hi Hm; [contradiction|].
  destruct (Experiment.parse_item x) as [v|m] eqn:E; [|eauto].
  destruct Hi as [->|Hi]; [congruence|].
  destruct (IH Hi Hm) as [m' ->]. eauto.
Qed.

End Parsing.

(** ** What the callback's world goes through *)

Section WorldFacts.

Variable W : Type.
Variable fs : Fs.node.
Variable parallelism : Z.
Variable debugLog : option (callback W).

Lemma tick_world d (s s' : state W) :
  tick parallelism d s = Some s' -> world s' = world s.
Proof.
  apply (tick_preserves W parallelism (fun x => world x = world s)); auto.
Qed.

Lemma run_job_world d j (s s' : state W) :
  run_job parallelism d j s = Some s' -> world s' = world s.
Proof.
  destruct j as [[o|]| |err]; simpl; intros H.
  - now inversion H.
  - now inversion H.
  - apply tick_world in H. exact H.
  - inversion H. destruct (completed s); reflexivity.
Qed.

(** A property of the world that every call of the callback keeps is
    kept by the whole run. *)
Variable R : W -> Prop.
Hypothesis cb_keeps :
  forall cb, debugLog = Some cb -> forall kind p info w, R w -> R (fst (cb kind p info w)).

Lemma call_debugLog_keeps kind p info (s s1 : state W) r :
  call_debugLog debugLog kind p info s = (s1, r) -> R (world s) -> R (world s1).
Proof.
  unfold call_debugLog. destruct debugLog as [cb|] eqn:E.
  - pose proof (cb_keeps cb eq_refl kind p info (world s)) as K.
    destruct (cb kind p info (world s)) as [w' r']. simpl in K.
    intros H; injection H as <- _. exact K.
  - intros H; injection H as <- _. auto.
Qed.

Lemma fold_enqueueStat_world p files :
  forall s : state W,
    world (fold_left (fun acc file => enqueueStat (p ++ [file]) acc) files s) = world s.
Proof.
  induction files as [|x files IH]; intros s; simpl; [reflexivity|]. now rewrite IH.
Qed.

Lemma exec_keeps o (s s1 : state W) r :
  exec fs debugLog o s = (s1, r) -> R (world s) -> R (world s1).
Proof.
  destruct o as [p k]. unfold exec, readOp, statOp. simpl. intros H Hw. destruct k.
  - destruct (Fs.readdir fs p) as [files|e]; [|now injection H as <- _].
    destruct (call_debugLog _ _ _ _ s) as [s2 thrown] eqn:Ecb.
    apply call_debugLog_keeps in Ecb; [|exact Hw].
    destruct thrown; injection H as <- _; [exact Ecb|].
    now rewrite fold_enqueueStat_world.
  - destruct (Fs.stat fs p) as [stats|e]; [|now injection H as <- _].
    destruct (Fs.isDirectory stats); [|destruct (Fs.isFile stats)];
      apply call_debugLog_keeps in H; auto.
Qed.

Lemma complete_io_keeps i o (s : state W) :
  R (world s) -> R (world (complete_io fs debugLog i o s)).
Proof.
  unfold complete_io. intros Hw.
  destruct (exec fs debugLog o _) as [s1 r] eqn:E.
  apply exec_keeps in E; [|exact Hw]. exact E.
Qed.

Lemma loop_step_keeps d i (s s' : state W) :
  loop_step fs parallelism debugLog d i s = Some s' -> R (world s) -> R (world s').
Proof.
  unfold loop_step. intros H Hw.
  destruct (microtasks s) as [|j js].
  - destruct (nth_error (pendingIO s) i) as [o|].
    + inversion H; subst. now apply complete_io_keeps.
    + destruct (pendingIO s) as [|o l]; [discriminate|]. inversion H; subst.
      now apply complete_io_keeps.
  - apply run_job_world in H. rewrite H. exact Hw.
Qed.

Lemma run_keeps d n :
  forall sched (s s' : state W),
    run fs parallelism debugLog d n sched s = Some s' -> R (world s) -> R (world s').
Proof.
  induction n as [|n IH]; intros sched s s' H Hw; simpl in H.
  - now inversion H; subst.
  - destruct (idle s); [now inversion H; subst|].
    destruct (loop_step fs parallelism debugLog d (hd 0%nat sched) s) as [s1|] eqn:E;
      [|discriminate].
    eapply IH; [exact H|]. eapply loop_step_keeps; eauto.
Qed.

Lemma diskUsage_keeps path d n sched (w : W) s :
  diskUsage fs path parallelism debugLog d n sched w = Some s -> R w -> R (world s).
Proof.
  unfold diskUsage, start. intros H Hw.
  destruct (tick parallelism d _) as [s0|] eqn:E; [|discriminate].
  apply tick_world in E. eapply run_keeps; [exact H|]. now rewrite E.
Qed.

End WorldFacts.

(** ** The awaiting caller *)

Section Awaiting.

Variable W : Type.
Variable fs : Fs.node.
Variable path : Fs.path.
Variable parallelism : Z.
Variable debugLog : option (callback W).

(** The state at which the promise settles is a state of the run. *)
Lemma settle_is_run d n :
  forall sched (s s' : state W),
    settle fs parallelism debugLog d n sched s = Some s' ->
    exists m, (m <= n)%nat /\ run fs parallelism debugLog d m sched s = Some s'.
Proof.
  induction n as [|n IH]; intros sched s s' H; simpl in H.
  - exists 0%nat. split; [lia|exact H].
  - destruct (idle s || negb (is_pending (resultPromise s))) eqn:Es.
    + exists 0%nat. split; [lia|exact H].
    + apply orb_false_iff in Es. destruct Es as [Hi _].
      destruct (loop_step fs parallelism debugLog d (hd 0%nat sched) s) as [s1|] eqn:E;
        [|discriminate].
      destruct (IH _ _ _ H) as (m & Hm & Hr).
      exists (S m). split; [lia|]. simpl. rewrite Hi, E. exact Hr.
Qed.

Lemma settle_stops d n :
  forall sched (s s' : state W),
    run fs parallelism debugLog d n sched s = Some s' -> idle s' = true ->
    exists s1, settle fs parallelism debugLog d n sched s = Some s1
               /\ (idle s1 = true \/ resultPromise s1 <> Pending).
Proof.
  induction n as [|n IH]; intros sched s s' H Hi; simpl in H |- *.
  - inversion H; subst. eauto.
  - destruct (idle s) eqn:Es; [inversion H; subst; simpl; eauto|].
    destruct (resultPromise s) eqn:Ep; simpl;
      try (exists s; split; [reflexivity|right; rewrite Ep; discriminate]).
    destruct (loop_step fs parallelism debugLog d (hd 0%nat sched) s) as [s1|] eqn:E;
      [|discriminate].
    eapply IH; eauto.
Qed.

(** A run that succeeds is at rest the moment its promise settles. *)
Lemma settle_fulfilled d n :
  forall sched (s s' : state W),
    Inv parallelism s ->
    run fs parallelism debugLog d n sched s = Some s' -> idle s' = true ->
    resultPromise s' = Fulfilled ->
    settle fs parallelism debugLog d n sched s = Some s'.
Proof.
  induction n as [|n IH]; intros sched s s' I H Hi Hf; [exact H|].
  pose proof H as H0. simpl in H |- *.
  destruct (idle s) eqn:Es; [exact H|].
  destruct (resultPromise s) eqn:Ep; simpl.
  - destruct (loop_step fs parallelism debugLog d (hd 0%nat sched) s) as [s1|] eqn:E;
      [|discriminate].
    apply IH; auto. eapply Inv_loop_step; eauto.
  - destruct (Inv_fulfilled_idle _ _ _ I Ep) as (Em & Eio & _).
    unfold idle in Es. rewrite Em, Eio in Es. discriminate.
  - apply run_settled in H0; [|rewrite Ep; discriminate]. congruence.
Qed.

Lemma await_resolves d n sched (w : W) report w' :
  await_diskUsage fs path parallelism debugLog d n sched w = Some (Resolves report, w') ->
  exists m s, (m <= n)%nat
              /\ diskUsage fs path parallelism debugLog d m sched w = Some s
              /\ resultPromise s = Fulfilled /\ report = result s /\ w' = world s.
Proof.
  unfold await_diskUsage, diskUsage.
  destruct (start path parallelism d w) as [s0|]; [|discriminate].
  destruct (settle fs parallelism debugLog d n sched s0) as [s|] eqn:E; [|discriminate].
  destruct (settle_is_run _ _ _ _ _ E) as (m & Hm & Hr).
  destruct (resultPromise s) eqn:Ep; try discriminate.
  - destruct (idle s); discriminate.
  - intros H. inversion H; subst. exists m, s. auto.
Qed.

Lemma await_never_settles d n sched (w : W) w' :
  await_diskUsage fs path parallelism debugLog d n sched w = Some (NeverSettles, w') ->
  exists m s, (m <= n)%nat
              /\ diskUsage fs path parallelism debugLog d m sched w = Some s
              /\ resultPromise s = Pending /\ idle s = true /\ w' = world s.
Proof.
  unfold await_diskUsage, diskUsage.
  destruct (start path parallelism d w) as [s0|]; [|discriminate].
  destruct (settle fs parallelism debugLog d n sched s0) as [s|] eqn:E; [|discriminate].
  destruct (settle_is_run _ _ _ _ _ E) as (m & Hm & Hr).
  destruct (resultPromise s) eqn:Ep; try discriminate.
  destruct (idle s) eqn:Hi; [|discriminate].
  intros H. inversion H; subst. exists m, s. auto.
Qed.

Lemma await_fulfilled d n sched (w : W) s :
  diskUsage fs path parallelism debugLog d n sched w = Some s ->
  idle s = true -> resultPromise s = Fulfilled ->
  await_diskUsage fs path parallelism debugLog d n sched w
  = Some (Resolves (result s), world s).
Proof.
  unfold await_diskUsage, diskUsage, start. intros H Hi Hf.
  destruct (tick parallelism d _) as [s0|] eqn:E; [|discriminate].
  rewrite (settle_fulfilled d n sched s0 s); auto.
  - now rewrite Hf.
  - eapply Inv_tick; [|exact E]. apply Inv_seed.
Qed.

End Awaiting.

(** A run is only ever fulfilled under [parallelism = 1]. *)
Lemma fulfilled_only_serial W fs path parallelism debugLog d n sched (w : W) s :
  diskUsage fs path parallelism debugLog d n sched w = Some s ->
  resultPromise s = Fulfilled -> parallelism = 1.
Proof.
  intros H Hf.
  destruct (Z.lt_trichotomy parallelism 0) as [Hn|[H0|Hp]].
  - exfalso. revert H. unfold diskUsage, start.
    destruct d as [|d]; [discriminate|]. rewrite tick_unfold. simpl.
    destruct (Z.eqb_spec parallelism 0); [lia|].
    destruct (Z.leb_spec parallelism 0); [|lia]. simpl.
    destruct n; intros K; inversion K; subst; discriminate.
  - subst. unfold diskUsage in H. rewrite start_unbounded_diverges in H. discriminate.
  - destruct (Z.eq_dec parallelism 1) as [|Hne]; [assumption|]. exfalso.
    apply (never_fulfilled_above_one W fs path parallelism debugLog d n sched w s); auto.
    lia.
Qed.

(** The report of a serial run. *)
Lemma serial_run_report W fs path debugLog sched (w : W) node d n :
  Fs.well_formed fs = true ->
  (forall cb, debugLog = Some cb -> returns_normally cb) ->
  Fs.resolve fs path = inl node ->
  (2 <= d)%nat -> (3 * Z.to_nat (visits node) <= n)%nat ->
  exists s,
    diskUsage fs path 1 debugLog d n sched w = Some s
    /\ idle s = true /\ resultPromise s = Fulfilled
    /\ result s = mk_report path 1 0 (total_size node) (count_files node)
                            (count_directories node).
Proof.
  intros Hw Hq Hr Hd Hn.
  destruct (serial_run_succeeds W fs path debugLog sched w node Hw Hq Hr)
    as (s & H & Hi & Hf & Tf & Td & Ts).
  exists s. split; [eapply diskUsage_more; eauto|]. split; [assumption|].
  split; [assumption|].
  pose proof (diskUsage_header W fs path 1 debugLog _ _ _ _ _ H) as Hh.
  unfold report_header in Hh. inversion Hh as [[Hp Hl Hm]].
  destruct (result s) as [rp rl rm rs rf rd]. simpl in *. congruence.
Qed.

Section AwaitingOvercommitted.

Variable W : Type.
Variable fs : Fs.node.
Variable path : Fs.path.
Variable parallelism : Z.
Variable debugLog : option (callback W).
Hypothesis ceiling_above_one : 2 <= parallelism.

(** Up to the rejection only reactions run: no filesystem call completes,
    and the callback is not called. *)
Lemma settle_masked d n :
  forall sched (s s' : state W),
    Masked s -> settle fs parallelism debugLog d n sched s = Some s' ->
    Masked s' /\ world s' = world s.
Proof.
  induction n as [|n IH]; intros sched s s' M H; simpl in H.
  - inversion H; subst. auto.
  - destruct (idle s || negb (is_pending (resultPromise s))) eqn:Es;
      [inversion H; subst; auto|].
    destruct (loop_step fs parallelism debugLog d (hd 0%nat sched) s) as [s1|] eqn:E;
      [|discriminate].
    assert (M1 : Masked s1) by (eapply Masked_loop_step; eauto).
    destruct (IH _ _ _ M1 H) as (M' & Ew). split; [exact M'|]. rewrite Ew.
    apply orb_false_iff in Es. destruct Es as [_ Ep].
    destruct M as [[_ Er]|(_ & _ & _ & _ & Hb & _)];
      [rewrite Er in Ep; discriminate|].
    unfold loop_step in E. destruct (microtasks s) as [|j js]; [discriminate|].
    apply run_job_world in E. exact E.
Qed.

Lemma await_overcommitted d n sched (w : W) :
  (Z.to_nat parallelism + 1 <= d)%nat -> (2 * Z.to_nat parallelism + 1 <= n)%nat ->
  await_diskUsage fs path parallelism debugLog d n sched w
  = Some (Rejects TypeError, w).
Proof.
  intros Hd Hn.
  destruct (overcommitted_run W fs path parallelism debugLog ceiling_above_one
              (Z.to_nat (parallelism - 2)) sched w)
    as (s & H & Hi & Hr & _ & Ha); [lia|].
  apply (diskUsage_more _ _ _ _ _ _ _ _ _ _ d n) in H; [|assumption|lia|lia].
  unfold await_diskUsage. unfold diskUsage in H.
  destruct (start path parallelism d w) as [s0|] eqn:E0; [|discriminate].
  destruct (settle_stops _ _ _ _ _ _ _ _ _ H Hi) as (s1 & E1 & Hs).
  rewrite E1.
  assert (M0 : Masked s0) by (eapply Masked_start; eauto).
  destruct (settle_masked _ _ _ _ _ M0 E1) as (M1 & Ew).
  apply tick_world in E0. simpl in E0. rewrite E0 in Ew. rewrite Ew.
  destruct M1 as [[_ Er]|(_ & Ep & _ & _ & Hb & _)].
  - now rewrite Er.
  - exfalso. destruct Hs as [Hs|Hs]; [|contradiction].
    unfold idle in Hs. destruct (microtasks s1); [discriminate|discriminate].
Qed.

End AwaitingOvercommitted.

(** ** The two programs *)

Lemma string_app_nil_r (s : string) : (s ++ "")%string = s.
Proof. induction s as [|c r IH]; simpl; [reflexivity|]. now rewrite IH. Qed.

Lemma string_app_assoc (a b c : string) : ((a ++ b) ++ c)%string = (a ++ b ++ c)%string.
Proof. induction a as [|x r IH]; simpl; [reflexivity|]. now rewrite IH. Qed.

Lemma string_length_app (a b : string) :
  String.length (a ++ b) = (String.length a + String.length b)%nat.
Proof. induction a as [|x r IH]; simpl; [reflexivity|]. now rewrite IH. Qed.

Lemma slice_length n : forall s, String.length (Js.slice n s) = Nat.min n (String.length s).
Proof.
  induction n as [|n IH]; intros [|c r]; simpl; try reflexivity. now rewrite IH.
Qed.

Lemma slice_short n : forall s, (String.length s <= n)%nat -> Js.slice n s = s.
Proof.
  induction n as [|n IH]; intros [|c r] H; simpl in *; try reflexivity; [lia|].
  rewrite IH; [reflexivity|lia].
Qed.

Lemma spaces_length n : String.length (Js.spaces n) = n.
Proof. induction n as [|n IH]; simpl; [reflexivity|]. now rewrite IH. Qed.

Section Programs.

Variable W : Type.
Variable fs : Fs.node.
Variable path : Fs.path.
Variable debugLog : option (callback W).

Lemma await_serial sched (w : W) node d n :
  Fs.well_formed fs = true ->
  (forall cb, debugLog = Some cb -> returns_normally cb) ->
  Fs.resolve fs path = inl node ->
  (2 <= d)%nat -> (3 * Z.to_nat (visits node) <= n)%nat ->
  exists s,
    await_diskUsage fs path 1 debugLog d n sched w
    = Some (Resolves (mk_report path 1 0 (total_size node) (count_files node)
                                (count_directories node)), world s)
    /\ diskUsage fs path 1 debugLog d n sched w = Some s
    /\ resultPromise s = Fulfilled.
Proof.
  intros Hw Hq Hr Hd Hn.
  destruct (serial_run_report W fs path debugLog sched w node d n Hw Hq Hr Hd Hn)
    as (s & H & Hi & Hf & Er).
  exists s. split; [|auto]. rewrite <- Er. now apply await_fulfilled.
Qed.

Lemma await_unbounded d n sched (w : W) :
  await_diskUsage fs path 0 debugLog d n sched w = Some (Overflows, w).
Proof. unfold await_diskUsage. now rewrite start_unbounded_diverges. Qed.

Lemma await_negative parallelism d n sched (w : W) :
  parallelism < 0 ->
  await_diskUsage fs path parallelism debugLog (S d) n sched w = Some (NeverSettles, w).
Proof.
  intros Hp. unfold await_diskUsage, start. rewrite tick_unfold. simpl.
  destruct (Z.eqb_spec parallelism 0); [lia|].
  destruct (Z.leb_spec parallelism 0); [|lia]. simpl.
  destruct n; reflexivity.
Qed.

Lemma await_positive_settles parallelism d n sched (w w' : W) :
  0 < parallelism ->
  await_diskUsage fs path parallelism debugLog d n sched w <> Some (NeverSettles, w').
Proof.
  intros Hp H. apply await_never_settles in H.
  destruct H as (m & s & _ & H & Ep & Hi & _).
  eapply diskUsage_keeps_busy; eauto.
Qed.

Lemma await_resolves_serial parallelism d n sched (w w' : W) report :
  await_diskUsage fs path parallelism debugLog d n sched w = Some (Resolves report, w') ->
  parallelism = 1.
Proof.
  intros H. apply await_resolves in H. destruct H as (m & s & _ & H & Hf & _).
  eapply fulfilled_only_serial; eauto.
Qed.

End Programs.

(** The ceiling test of [tick] on a number is the test on its integer
    ceiling, at every count the scheduler can hold. *)
Lemma at_ceiling_of x activeCount :
  0 <= activeCount ->
  at_ceiling x activeCount
  = negb (ceiling_of x =? 0) && (ceiling_of x <=? activeCount).
Proof.
  intros Ha. unfold at_ceiling, ceiling_of, Js.truthy, Js.le.
  destruct x as [|z|b t|[|]]; simpl; try reflexivity.
  - destruct (Z.ltb_spec b 0).
    + destruct (Z.ltb_spec b activeCount); [|lia].
      destruct (Z.leb_spec (-1) activeCount); [reflexivity|lia].
    + destruct (Z.eqb_spec (b + 1) 0); [lia|]. simpl.
      destruct (Z.ltb_spec b activeCount); destruct (Z.leb_spec (b + 1) activeCount);
        try reflexivity; lia.
  - destruct (Z.leb_spec (-1) activeCount); [reflexivity|lia].
Qed.

Section StackTooSmall.

Variable W : Type.
Variable parallelism : Z.

(** [tick] needs a frame for every task it launches and one more to
    return at the ceiling. *)
Lemma tick_needs_frames d :
  forall s : state W,
    completed s = false -> 0 < activeCount s ->
    activeCount s + Z.of_nat d <= parallelism ->
    tick parallelism d s = None.
Proof.
  induction d as [|d IH]; intros s Ec Ha Hd; [reflexivity|].
  rewrite tick_launch_step; auto.
  - apply IH; cbn -[Z.add Z.of_nat]; [assumption|lia|lia].
  - right. lia.
  - intros [E _]. lia.
Qed.

Lemma start_needs_frames path d (w : W) :
  1 <= parallelism -> Z.of_nat d <= parallelism -> start path parallelism d w = None.
Proof.
  intros Hp Hd. unfold start. destruct d as [|d]; [reflexivity|].
  rewrite tick_launch_step.
  - apply tick_needs_frames; cbn -[Z.add Z.of_nat]; auto; lia.
  - reflexivity.
  - right. simpl. lia.
  - intros [_ E]. discriminate.
Qed.

End StackTooSmall.

Section MorePrograms.

Variable W : Type.
Variable fs : Fs.node.
Variable path : Fs.path.
Variable debugLog : option (callback W).

(** With a ceiling of two or more the caller gets an error whatever the
    stack: [RangeError] if it has no room for [parallelism + 1] calls of
    [tick], the [TypeError] of [undefined.exec] if it has. *)
Lemma await_above_one parallelism d n sched (w : W) :
  2 <= parallelism -> (2 * d <= n)%nat ->
  await_diskUsage fs path parallelism debugLog d n sched w
  = Some (if Z.of_nat d <=? parallelism then Overflows else Rejects TypeError, w).
Proof.
  intros Hp Hn. destruct (Z.leb_spec (Z.of_nat d) parallelism) as [Hd|Hd].
  - unfold await_diskUsage. rewrite start_needs_frames by lia. reflexivity.
  - apply await_overcommitted; [assumption|lia|lia].
Qed.

Lemma await_missing_root errno d n sched (w : W) :
  Fs.resolve fs path = inr errno -> (2 <= d)%nat -> (3 <= n)%nat ->
  await_diskUsage fs path 1 debugLog d n sched w
  = Some (Rejects (SystemError errno), w).
Proof.
  intros Hr Hd Hn.
  destruct d as [|[|d]]; try lia. destruct n as [|[|[|n]]]; try lia.
  unfold await_diskUsage, start. simpl.
  assert (E : forall k, complete_io fs debugLog k (mk_op path ExecStat)
                (mk_state (mk_report path 1 0 0 0 0) 1 [] false Pending []
                          [mk_op path ExecStat] w)
              = mk_state (mk_report path 1 0 0 0 0) 1 [] false Pending
                         [JCatch (SystemError errno)]
                         (remove_nth k [mk_op path ExecStat]) w).
  { intros k. unfold complete_io, exec, statOp, Fs.stat. simpl. now rewrite Hr. }
  unfold loop_step at 2. simpl.
  destruct (hd 0%nat sched) as [|[|k]]; simpl; rewrite E; simpl;
    destruct n; reflexivity.
Qed.

End MorePrograms.

Section ExperimentFacts.

Variable fs : Fs.node.
Variable path : Fs.path.
Variables d n : nat.
Variable schedule : nat -> list nat.
Variable duration : nat -> Z.

Lemma accepted_ceiling x : accepted x -> 0 <= ceiling_of x.
Proof. intros [->|(z & -> & Hz)]; simpl; lia. Qed.

Lemma accepted_serial x : accepted x -> ceiling_of x = 1 -> x = Js.Integer 1.
Proof. intros [->|(z & -> & Hz)]; simpl; [discriminate|congruence]. Qed.

Lemma loop_returns_serial values :
  Forall accepted values ->
  forall i finalReport out out',
    Experiment.loop fs path d n schedule duration i values finalReport out
    = Some (out', Experiment.Returns) ->
    Forall (eq (Js.Integer 1)) values.
Proof.
  induction 1 as [|p rest Hp _ IH]; intros i fr out out' H; [constructor|].
  simpl in H.
  destruct (await_diskUsage fs path (ceiling_of p) None d n (schedule i) tt)
    as [[[r|e| |] u]|] eqn:E; try discriminate.
  constructor; [|eapply IH; eauto].
  symmetry. apply accepted_serial; [assumption|].
  eapply await_resolves_serial; eauto.
Qed.

Lemma loop_never_stalls values :
  Forall accepted values ->
  forall i finalReport out out',
    Experiment.loop fs path d n schedule duration i values finalReport out
    <> Some (out', Experiment.Stalls).
Proof.
  induction 1 as [|p rest Hp _ IH]; intros i fr out out' H; [discriminate|].
  simpl in H. apply accepted_ceiling in Hp.
  destruct (await_diskUsage fs path (ceiling_of p) None d n (schedule i) tt)
    as [[[r|e| |] u]|] eqn:E; try discriminate.
  - eapply IH; eauto.
  - destruct (Z.eq_dec (ceiling_of p) 0) as [E0|Hne].
    + rewrite E0, await_unbounded in E. discriminate.
    + eapply await_positive_settles; [|exact E]. lia.
Qed.

Variable node : Fs.node.
Hypothesis fs_wf : Fs.well_formed fs = true.
Hypothesis path_exists : Fs.resolve fs path = inl node.
Hypothesis stack : (2 <= d)%nat.
Hypothesis turns : (3 * Z.to_nat (visits node) <= n)%nat.

(** Runs with [parallelism = 1] go through, one after the other. *)
Lemma loop_serial k :
  forall i rest finalReport out,
    Experiment.loop fs path d n schedule duration i (repeat (Js.Integer 1) k ++ rest)
                    finalReport out
    = Experiment.loop fs path d n schedule duration (i + k) rest
        (finalReport ++ serial_rows duration i k)
        (out ++ serial_lines duration i k).
Proof.
  induction k as [|k IH]; intros i rest fr out.
  - simpl. now rewrite Nat.add_0_r, app_nil_r, string_app_nil_r.
  - cbn [repeat app Experiment.loop ceiling_of].
    destruct (await_serial unit fs path None (schedule i) tt node d n fs_wf) as (s & E & _);
      auto; [discriminate|].
    rewrite E. cbn [r_maxActive]. rewrite IH.
    replace (S i + k)%nat with (i + S k)%nat by lia.
    cbn [serial_rows serial_lines].
    rewrite <- app_assoc. cbn [app]. now rewrite !string_app_assoc.
Qed.

End ExperimentFacts.

Lemma print_report_throws debug parallelism report elapsed out :
  Du.print_report debug parallelism report elapsed out
  = (out ++ (if debug then ["-----------"%string] else [])
     ++ [("       Path: " ++ render (r_path report))%string;
         ("Parallelism: " ++ Js.to_string parallelism)%string;
         ("      Files: " ++ Js.to_string (Js.Integer (r_files report)))%string;
         ("       Dirs: " ++ Js.to_string (Js.Integer (r_directories report)))%string],
     Some TypeError).
Proof.
  unfold Du.print_report, Du.property.
  cbn -[Js.to_string]. destruct debug; cbn -[Js.to_string];
    rewrite <- ?app_assoc; reflexivity.
Qed.

Lemma du_debugLog_quiet raw path : returns_normally (Du.debugLog raw path).
Proof. intros kind p info w. reflexivity. Qed.

Lemma parallelisms_accepts given values :
  Experiment.parallelisms given = inl values ->
  values <> []
  /\ List.length values = S (count_spaces given)
  /\ Forall accepted values.
Proof.
  unfold Experiment.parallelisms. intros H. apply map_items_accepts in H.
  split; [|split].
  - pose proof (split_nonempty given) as Hn.
    intros ->. inversion H as [E|]. now rewrite <- E in Hn.
  - rewrite <- split_length. symmetry. eapply Forall2_length; eauto.
  - induction H as [|item value items vs Hi _ IH]; constructor; auto.
    eapply parse_item_accepted; eauto.
Qed.

Lemma Forall_app_cons {A} (P : A -> Prop) l x r :
  Forall P (l ++ x :: r) -> P x.
Proof.
  intros H. rewrite Forall_forall in H. apply H. apply in_or_app. right. now left.
Qed.

(** ** The order of a serial traversal *)

Lemma calls_of_Dir p es :
  calls_of p (Fs.Dir es)
  = ("STAT", p, "DIR")%string
    :: ("READ", p, string_of_Z (Z.of_nat (List.length es)) ++ " items")%string
    :: calls_below p es.
Proof.
  cbn [calls_of]. do 2 f_equal. unfold calls_below.
  induction es as [|[name c] r IH]; [reflexivity|].
  cbn [rev]. rewrite flat_map_app, IH. cbn [flat_map fst snd]. now rewrite app_nil_r.
Qed.

Lemma find_entry_distinct es name c :
  Fs.names_distinct (map fst es) = true -> In (name, c) es ->
  Fs.find_entry es name = Some c.
Proof.
  induction es as [|[n' c'] r IH]; simpl; [contradiction|].
  rewrite andb_true_iff, negb_true_iff. intros [Hn Hr] [E|Hin].
  - inversion E; subst. now rewrite String.eqb_refl.
  - destruct (String.eqb n' name) eqn:En; [|now apply IH].
    exfalso. apply String.eqb_eq in En. subst n'.
    assert (K : existsb (String.eqb name) (map fst r) = true).
    { apply existsb_exists. exists name. split; [|apply String.eqb_refl].
      apply in_map_iff. now exists (name, c). }
    congruence.
Qed.

Lemma flat_map_map_ext {A B C} (f : B -> list C) (g : A -> B) (h : A -> list C) l :
  (forall x, In x l -> f (g x) = h x) -> flat_map f (map g l) = flat_map h l.
Proof.
  induction l as [|x l IH]; intros H; simpl; [reflexivity|].
  rewrite H by now left. rewrite IH; [reflexivity|]. intros y Hy. apply H. now right.
Qed.

Lemma replay_cons {W} (debugLog : option (callback W)) c calls w :
  replay debugLog (c :: calls) w = replay debugLog calls (replay debugLog [c] w).
Proof. destruct debugLog; reflexivity. Qed.

Section SerialOrder.

Variable W : Type.
Variable fs : Fs.node.
Variable debugLog : option (callback W).
Hypothesis fs_wf : Fs.well_formed fs = true.
Hypothesis quiet : forall cb, debugLog = Some cb -> returns_normally cb.

Lemma call_debugLog_replay kind p info (s s1 : state W) r :
  call_debugLog debugLog kind p info s = (s1, r) ->
  world s1 = replay debugLog [(kind, p, info)] (world s).
Proof.
  unfold call_debugLog, replay. destruct debugLog as [cb|].
  - destruct (cb kind p info (world s)) as [w' r'] eqn:E.
    intros H; inversion H; subst. simpl. now rewrite E.
  - intros H; inversion H; reflexivity.
Qed.

(** What the children pushed by a read lead to. *)
Lemma queue_calls_children p es :
  Fs.resolve fs p = inl (Fs.Dir es) ->
  queue_calls fs (map (fun file => mk_op (p ++ [file]) ExecStat) (map fst es))
  = calls_below p es.
Proof.
  intros Er. unfold queue_calls, calls_below.
  rewrite map_map, <- map_rev. apply flat_map_map_ext.
  intros [name c] Hin. apply in_rev in Hin. unfold op_calls. cbn [op_exec op_path fst snd].
  rewrite (resolve_snoc name _ _ _ Er).
  pose proof (well_formed_resolve _ _ _ fs_wf Er) as Hw.
  apply well_formed_Dir in Hw. destruct Hw as [Hd _].
  now rewrite (find_entry_distinct es name c Hd Hin).
Qed.

(** A valid operation makes the first of its calls and pushes what leads
    to the others. *)
Lemma exec_calls o (s s1 : state W) r :
  valid_op fs o ->
  exec fs debugLog o s = (s1, r) ->
  exists c added,
    queue s1 = queue s ++ added
    /\ world s1 = replay debugLog [c] (world s)
    /\ op_calls fs o = c :: queue_calls fs added.
Proof.
  destruct o as [p k]. unfold valid_op. simpl.
  unfold exec, readOp, statOp, Fs.readdir, Fs.stat, op_calls. simpl. intros Hv H.
  destruct k.
  - destruct (Fs.resolve fs p) as [[b| |es]|e] eqn:Er; try contradiction.
    destruct (call_debugLog _ _ _ _ s) as [s2 thrown] eqn:Ecb.
    pose proof (call_debugLog_quiet W debugLog quiet _ _ _ _ _ _ Ecb). subst thrown.
    inversion H; subst; clear H.
    pose proof (call_debugLog_replay _ _ _ _ _ _ Ecb) as Ew.
    apply call_debugLog_view, view_fields in Ecb. destruct Ecb as (_ & _ & Rq & _).
    pose proof (queue_enqueue_all W p (map fst es) s2) as Q.
    apply view_fields in Q. simpl in Q. destruct Q as (_ & _ & Qq & _).
    eexists. eexists. split; [rewrite Qq, Rq; reflexivity|]. split.
    + rewrite fold_enqueueStat_world, Ew, length_map. reflexivity.
    + now rewrite (queue_calls_children p es Er).
  - destruct (Fs.resolve fs p) as [[b| |es]|e] eqn:Er; try contradiction; simpl in H;
      pose proof (call_debugLog_replay _ _ _ _ _ _ H) as Ew;
      apply call_debugLog_view, view_fields in H; simpl in H;
      destruct H as (_ & _ & Rq & _).
    + eexists. exists []. rewrite app_nil_r. split; [exact Rq|]. split; [exact Ew|].
      reflexivity.
    + eexists. exists []. rewrite app_nil_r. split; [exact Rq|]. split; [exact Ew|].
      reflexivity.
    + eexists. exists [mk_op p ExecRead]. split; [exact Rq|]. split; [exact Ew|].
      rewrite calls_of_Dir. f_equal. unfold queue_calls, op_calls. simpl.
      rewrite Er. now rewrite app_nil_r.
Qed.

(** The three turns of [serial_cycle], with the call they make. *)
Lemma serial_cycle_calls sched o (s : state W) :
  serial_ready o s -> valid_op fs o -> Forall (valid_op fs) (queue s) ->
  exists s3 c,
    (forall n, run fs 1 debugLog 2 (S (S (S n))) sched s
               = run fs 1 debugLog 2 n (tl sched) s3)
    /\ world s3 = replay debugLog [c] (world s)
    /\ ((idle s3 = true /\ resultPromise s3 = Fulfilled
         /\ op_calls fs o ++ queue_calls fs (queue s) = [c])
        \/ exists o',
            serial_ready o' s3 /\ valid_op fs o' /\ Forall (valid_op fs) (queue s3)
            /\ op_calls fs o ++ queue_calls fs (queue s)
               = c :: op_calls fs o' ++ queue_calls fs (queue s3)).
Proof.
  destruct s as [r a q c0 pr m io w].
  intros (Ea & Ec & Ep & Em & Ei) Hv Hq. simpl in Ea, Ec, Ep, Em, Ei, Hq. subst.
  cbn [queue world].
  set (s1 := mk_state r 1 q false Pending [] [o] w).
  destruct (exec fs debugLog o (mk_state r 1 q false Pending [] [] w)) as [s2 rr] eqn:Ex.
  pose proof (exec_frame _ _ _ _ _ _ _ Ex) as F. simpl in F.
  destruct F as (Fa & Fc & Fp & Fm & Fi & _).
  destruct (exec_valid W fs debugLog fs_wf quiet _ _ _ _ Hv Ex)
    as (Er & added' & Eq' & Hadd & _).
  destruct (exec_calls _ _ _ _ Hv Ex) as (c & added & Eq & Ew & Ecalls).
  rewrite Eq in Eq'. apply app_inv_head in Eq'. subst added'.
  subst rr. destruct s2 as [r2 a2 q2 c2 p2 m2 io2 w2].
  simpl in Fa, Fc, Fp, Fm, Fi, Eq, Ew. subst.
  set (s2 := mk_state r2 1 (q ++ added) false Pending [JThen] [] 
                      (replay debugLog [c] w)).
  assert (T1 : forall n, run fs 1 debugLog 2 (S (S (S n))) sched
                             (mk_state r 1 q false Pending [JExec (Some o)] [] w)
                         = run fs 1 debugLog 2 (S n) (tl sched) s2).
  { intros n.
    rewrite (run_turn W fs debugLog 1 2 _ sched _ s1); [|reflexivity|reflexivity].
    rewrite (run_turn W fs debugLog 1 2 _ sched s1 s2); [reflexivity|reflexivity|].
    rewrite (loop_step_single_io W fs debugLog 1 2 _ o s1); [|reflexivity|reflexivity].
    unfold complete_io, with_pendingIO, s1, s2.
    cbn [pendingIO remove_nth result activeCount queue completed resultPromise
         microtasks world].
    now rewrite Ex. }
  assert (Hq2 : Forall (valid_op fs) (q ++ added)) by (apply Forall_app; auto).
  assert (Ecat : op_calls fs o ++ queue_calls fs q = c :: queue_calls fs (q ++ added)).
  { rewrite Ecalls. unfold queue_calls. rewrite rev_app_distr, flat_map_app. reflexivity. }
  destruct (array_pop (q ++ added)) as [o' q'] eqn:Epop.
  apply array_pop_cases in Epop. destruct Epop as [(E0 & _ & _)|(x & Eo & El)].
  - exists (mk_state r2 0 [] true Fulfilled [] [] (replay debugLog [c] w)), c. split.
    + intros n. rewrite T1.
      rewrite (run_turn W fs debugLog 1 2 _ _ s2
                 (mk_state r2 0 [] true Fulfilled [] [] (replay debugLog [c] w)));
        [reflexivity|reflexivity|].
      unfold loop_step, s2. simpl. rewrite E0. reflexivity.
    + split; [reflexivity|]. left. simpl. repeat split; auto.
      rewrite Ecat, E0. reflexivity.
  - exists (mk_state r2 1 q' false Pending [JExec (Some x)] [] (replay debugLog [c] w)), c.
    split.
    + intros n. rewrite T1.
      rewrite (run_turn W fs debugLog 1 2 _ _ s2
                 (mk_state r2 1 q' false Pending [JExec (Some x)] []
                           (replay debugLog [c] w)));
        [reflexivity|reflexivity|].
      unfold loop_step, s2. simpl. rewrite El.
      rewrite length_app. simpl. rewrite Nat.add_comm. simpl.
      rewrite array_pop_snoc. reflexivity.
    + split; [reflexivity|]. right. exists x. simpl. rewrite El in Hq2.
      apply Forall_app in Hq2. destruct Hq2 as [Hq' Hx]. inversion Hx; subst.
      repeat split; auto.
      rewrite Ecat, El. unfold queue_calls. rewrite rev_app_distr. reflexivity.
Qed.

Lemma serial_progress_calls k :
  forall sched o (s : state W),
    serial_ready o s -> valid_op fs o -> Forall (valid_op fs) (queue s) ->
    (List.length (op_calls fs o ++ queue_calls fs (queue s)) <= k)%nat ->
    exists s', run fs 1 debugLog 2 (3 * k) sched s = Some s'
               /\ idle s' = true /\ resultPromise s' = Fulfilled
               /\ world s' = replay debugLog (op_calls fs o ++ queue_calls fs (queue s))
                                    (world s).
Proof.
  induction k as [|k IH]; intros sched o s Hr Hv Hq Hm;
    destruct (serial_cycle_calls sched o s Hr Hv Hq) as (s3 & c & Hrun & Ew & Hnext).
  - exfalso. destruct Hnext as [(_ & _ & E)|(o' & _ & _ & _ & E)];
      rewrite E in Hm; simpl in Hm; lia.
  - replace (3 * S k)%nat with (S (S (S (3 * k)))) by lia. rewrite Hrun.
    destruct Hnext as [(Hi & Hf & E)|(o' & Hr' & Hv' & Hq' & E)].
    + exists s3. rewrite (run_idle W fs debugLog) by exact Hi.
      rewrite E, Ew. auto.
    + rewrite E in Hm |- *. simpl in Hm.
      destruct (IH (tl sched) o' s3 Hr' Hv' Hq') as (s' & H' & Hi & Hf & Ew'); [lia|].
      exists s'. rewrite replay_cons, <- Ew. auto.
Qed.

End SerialOrder.

Lemma calls_of_length : forall n p, Z.of_nat (List.length (calls_of p n)) = visits n.
Proof.
  fix IH 1. intros [b| |es] p; [reflexivity|reflexivity|].
  rewrite calls_of_Dir, visits_Dir. cbn [List.length].
  assert (K : Z.of_nat (List.length (calls_below p es))
              = sum_of (fun e => visits (snd e)) es).
  { unfold calls_below. induction es as [|[nm c] r IHr]; [reflexivity|].
    cbn [rev]. rewrite flat_map_app, length_app. cbn [flat_map fst snd].
    rewrite app_nil_r, Nat2Z.inj_add, IHr, (IH c).
    change (sum_of (fun e => visits (snd e)) ((nm, c) :: r))
      with (visits c + sum_of (fun e => visits (snd e)) r).
    lia. }
  lia.
Qed.

(** The calls of a serial run. *)
Lemma serial_run_calls W fs path debugLog sched (w : W) node d n :
  Fs.well_formed fs = true ->
  (forall cb, debugLog = Some cb -> returns_normally cb) ->
  Fs.resolve fs path = inl node ->
  (2 <= d)%nat -> (3 * Z.to_nat (visits node) <= n)%nat ->
  exists s,
    diskUsage fs path 1 debugLog d n sched w = Some s
    /\ idle s = true /\ resultPromise s = Fulfilled
    /\ world s = replay debugLog (calls_of path node) w.
Proof.
  intros Hw Hq Hr Hd Hn.
  assert (Hv : valid_op fs (mk_op path ExecStat)) by (unfold valid_op; simpl; now rewrite Hr).
  assert (Hc : op_calls fs (mk_op path ExecStat) = calls_of path node)
    by (unfold op_calls; simpl; now rewrite Hr).
  destruct (serial_progress_calls W fs debugLog Hw Hq (Z.to_nat (visits node)) sched
              (mk_op path ExecStat)
              (mk_state (mk_report path 1 0 0 0 0) 1 [] false Pending
                        [JExec (Some (mk_op path ExecStat))] [] w))
    as (s & Hrun & Hi & Hf & Ew).
  - repeat split.
  - exact Hv.
  - constructor.
  - cbn [queue]. unfold queue_calls. cbn [rev flat_map]. rewrite app_nil_r, Hc.
    pose proof (calls_of_length node path). lia.
  - assert (H : diskUsage fs path 1 debugLog 2 (3 * Z.to_nat (visits node)) sched w = Some s)
      by exact Hrun.
    exists s. split; [eapply diskUsage_more; eauto|]. split; [assumption|].
    split; [assumption|].
    rewrite Ew. cbn [queue world]. unfold queue_calls. cbn [rev flat_map].
    now rewrite app_nil_r, Hc.
Qed.

Lemma replay_du_debugLog raw path calls :
  forall out,
    replay (Some (Du.debugLog raw path)) calls out
    = (out ++ map (fun c => Du.debug_line (fst (fst c))
                                          (Du.shown_path raw path (snd (fst c))) (snd c))
                  calls)%list.
Proof.
  induction calls as [|c calls IH]; intros out; simpl; [now rewrite app_nil_r|].
  change (fold_left _ calls ?x) with (replay (Some (Du.debugLog raw path)) calls x).
  rewrite IH. unfold Du.debugLog. simpl. now rewrite <- app_assoc.
Qed.

(** ** Runs that use up the stack *)

Section Unwinding.

Variable W : Type.
Variable fs : Fs.node.
Variable path : Fs.path.
Variable parallelism : Z.
Variable debugLog : option (callback W).

Lemma tick_state_unfold d (s : state W) :
  tick_state parallelism (S d) s =
  if completed s then s
  else if negb (parallelism =? 0) && (parallelism <=? activeCount s) then s
  else if (activeCount s =? 0) && (List.length (queue s) =? 0)%nat then finish s
  else tick_state parallelism d
                  (launch (fst (array_pop (queue s))) (snd (array_pop (queue s))) s).
Proof.
  simpl. destruct (array_pop (queue s)); reflexivity.
Qed.

(** Where [tick] returns, it returns in [tick_state]. *)
Lemma tick_returns_in_state d :
  forall s s' : state W, tick parallelism d s = Some s' -> tick_state parallelism d s = s'.
Proof.
  induction d as [|d IH]; intros s s' H; [discriminate|].
  rewrite tick_unfold in H. rewrite tick_state_unfold.
  destruct (completed s); [now inversion H|].
  destruct (negb (parallelism =? 0) && (parallelism <=? activeCount s));
    [now inversion H|].
  destruct ((activeCount s =? 0) && (List.length (queue s) =? 0)%nat);
    [now inversion H|].
  now apply IH.
Qed.

(** Induction along the calls of [tick], returning or not. *)
Lemma tick_state_preserves (P : state W -> Prop) :
  (forall s, P s -> completed s = false -> below_ceiling parallelism s ->
             activeCount s = 0 -> queue s = [] -> P (finish s)) ->
  (forall s o q, P s -> completed s = false -> below_ceiling parallelism s ->
                 ~ (activeCount s = 0 /\ queue s = []) ->
                 array_pop (queue s) = (o, q) -> P (launch o q s)) ->
  forall d s, P s -> P (tick_state parallelism d s).
Proof.
  intros Hfin Hlaunch. induction d as [|d IH]; intros s HP; [exact HP|].
  rewrite tick_state_unfold.
  destruct (completed s) eqn:Ec; [exact HP|].
  destruct (negb (parallelism =? 0) && (parallelism <=? activeCount s)) eqn:El;
    [exact HP|].
  apply ceiling_test in El.
  destruct ((activeCount s =? 0) && (List.length (queue s) =? 0)%nat) eqn:Ed.
  - apply done_test in Ed. destruct Ed. now apply Hfin.
  - apply IH. apply Hlaunch; auto.
    + rewrite <- done_test, Ed. discriminate.
    + now destruct (array_pop (queue s)).
Qed.

Lemma tick_state_completed d (s : state W) :
  completed s = true -> tick_state parallelism d s = s.
Proof.
  intros E. destruct d; [reflexivity|]. now rewrite tick_state_unfold, E.
Qed.

Lemma tick_state_at_ceiling d (s : state W) :
  0 < parallelism -> parallelism <= activeCount s -> tick_state parallelism d s = s.
Proof.
  intros Hp Ha. destruct d; [reflexivity|]. rewrite tick_state_unfold.
  destruct (completed s); [reflexivity|].
  destruct (Z.eqb_spec parallelism 0); [lia|].
  destruct (Z.leb_spec parallelism (activeCount s)); [reflexivity|lia].
Qed.

Lemma run_job_returns_in_state d j (s s' : state W) :
  run_job parallelism d j s = Some s' -> run_job_state parallelism d j s = s'.
Proof.
  destruct j as [[o|]| |err]; simpl; intros H; try (now inversion H).
  now apply tick_returns_in_state.
Qed.

Lemma loop_step_is_turn d i (s s' : state W) :
  loop_step fs parallelism debugLog d i s = Some s' ->
  turn fs parallelism debugLog d i s = Some s'.
Proof.
  unfold loop_step, turn. destruct (microtasks s) as [|j js]; [auto|].
  intros H. f_equal. now apply run_job_returns_in_state.
Qed.

Lemma turn_idle d i (s : state W) :
  turn fs parallelism debugLog d i s = None <-> idle s = true.
Proof.
  unfold turn, idle. destruct (microtasks s) as [|j js]; [|split; discriminate].
  destruct (pendingIO s) as [|o l].
  - destruct i; simpl; split; reflexivity.
  - destruct (nth_error (o :: l) i); split; discriminate.
Qed.

(** A run in which every call of [tick] returns is one of the runs
    followed here. *)
Lemma run_is_turns d n :
  forall sched (s s' : state W),
    run fs parallelism debugLog d n sched s = Some s' ->
    turns fs parallelism debugLog d n sched s = s'.
Proof.
  induction n as [|n IH]; intros sched s s' H; simpl in H |- *; [now inversion H|].
  destruct (idle s) eqn:Hi.
  - inversion H; subst. apply (turn_idle d (hd 0%nat sched)) in Hi. now rewrite Hi.
  - destruct (loop_step fs parallelism debugLog d (hd 0%nat sched) s) as [s1|] eqn:E;
      [|discriminate].
    rewrite (loop_step_is_turn _ _ _ _ E). now apply IH.
Qed.

Lemma diskUsage_is_reached d n sched (w : W) s :
  diskUsage fs path parallelism debugLog d n sched w = Some s ->
  reached fs path parallelism debugLog d d n sched w = s.
Proof.
  unfold diskUsage, start, reached. intros H.
  destruct (tick parallelism d _) as [s0|] eqn:E; [|discriminate].
  rewrite (tick_returns_in_state _ _ _ E). now apply run_is_turns.
Qed.

(** When [tick] does not return, every frame of the stack has launched a
    task. *)
Lemma tick_throws_after_launches d :
  forall s : state W,
    tick parallelism d s = None ->
    activeCount (tick_state parallelism d s) = activeCount s + Z.of_nat d
    /\ List.length (microtasks (tick_state parallelism d s))
       = (List.length (microtasks s) + d)%nat.
Proof.
  induction d as [|d IH]; intros s H.
  - simpl. split; [lia|]. now rewrite Nat.add_0_r.
  - rewrite tick_unfold in H. rewrite tick_state_unfold.
    destruct (completed s); [discriminate|].
    destruct (negb (parallelism =? 0) && (parallelism <=? activeCount s));
      [discriminate|].
    destruct ((activeCount s =? 0) && (List.length (queue s) =? 0)%nat);
      [discriminate|].
    destruct (IH _ H) as [Ea Em]. rewrite Ea, Em. cbn -[Z.add Z.of_nat].
    rewrite length_app. cbn -[Z.add Z.of_nat]. split; lia.
Qed.

(** *** The bookkeeping invariant *)

Lemma Inv_tick_state d (s : state W) :
  Inv parallelism s -> Inv parallelism (tick_state parallelism d s).
Proof.
  apply tick_state_preserves.
  - intros; now apply Inv_finish.
  - intros; now apply Inv_launch.
Qed.

Lemma Inv_run_job_state d j js (s : state W) :
  Inv parallelism s -> microtasks s = j :: js ->
  Inv parallelism (run_job_state parallelism d j (with_microtasks js s)).
Proof.
  intros I Em.
  destruct j as [[o|]| |err];
    try (eapply Inv_run_job with (d := d); [exact I|exact Em|reflexivity]).
  assert (NF : resultPromise s <> Fulfilled).
  { intros E. apply (Inv_fulfilled_idle _ _ _ I) in E. destruct E; congruence. }
  destruct I as [Hc Hl Hf Hd]. rewrite Em in Hc. simpl in Hc.
  apply Inv_tick_state. constructor; simpl; try tauto; lia.
Qed.

Lemma Inv_turn d i (s s' : state W) :
  Inv parallelism s -> turn fs parallelism debugLog d i s = Some s' -> Inv parallelism s'.
Proof.
  unfold turn. intros I H.
  destruct (microtasks s) as [|j js] eqn:Em.
  - destruct (nth_error (pendingIO s) i) as [o|] eqn:En.
    + inversion H; subst. now apply Inv_complete_io.
    + destruct (pendingIO s) as [|o l] eqn:Ep; [discriminate|].
      inversion H; subst. apply Inv_complete_io; auto. now rewrite Ep.
  - inversion H; subst. now apply Inv_run_job_state.
Qed.

Lemma Inv_turns d n :
  forall sched (s : state W),
    Inv parallelism s -> Inv parallelism (turns fs parallelism debugLog d n sched s).
Proof.
  induction n as [|n IH]; intros sched s I; simpl; [exact I|].
  destruct (turn fs parallelism debugLog d (hd 0%nat sched) s) as [s1|] eqn:E; [|exact I].
  apply IH. eapply Inv_turn; eauto.
Qed.

Lemma Inv_reached d k n sched (w : W) :
  Inv parallelism (reached fs path parallelism debugLog d k n sched w).
Proof.
  unfold reached. apply Inv_turns, Inv_tick_state, Inv_seed.
Qed.

(** *** After the outcome *)

Lemma turn_after_completion d i (s s' : state W) :
  completed s = true ->
  turn fs parallelism debugLog d i s = Some s' -> nothing_launched s s'.
Proof.
  unfold turn. intros Hc H.
  destruct (microtasks s) as [|j js] eqn:Em.
  - apply (loop_step_after_completion W fs parallelism debugLog d i); [exact Hc|].
    unfold loop_step. now rewrite Em.
  - destruct j as [[o|]| |err];
      try (apply (loop_step_after_completion W fs parallelism debugLog d i);
           [exact Hc|unfold loop_step; rewrite Em; exact H]).
    inversion H; subst. simpl. rewrite tick_state_completed by exact Hc.
    unfold nothing_launched. rewrite Em. repeat split; simpl; auto; try lia.
    exists []. now rewrite app_nil_r.
Qed.

Lemma turns_after_completion d n :
  forall sched (s : state W),
    completed s = true ->
    nothing_launched s (turns fs parallelism debugLog d n sched s).
Proof.
  induction n as [|n IH]; intros sched s Hc; simpl;
    [now apply nothing_launched_refl|].
  destruct (turn fs parallelism debugLog d (hd 0%nat sched) s) as [s1|] eqn:E;
    [|now apply nothing_launched_refl].
  pose proof (turn_after_completion _ _ _ _ Hc E) as N.
  eapply nothing_launched_trans; [exact N|]. apply IH. now destruct N.
Qed.

End Unwinding.

(** * The claims *)

(** Evaluating a run to its final state, as the witness of an
    existential statement. *)
Ltac exists_result r :=
  let v := eval vm_compute in r in
  match v with
  | Some ?x => exists x
  end.

Ltac by_evaluation := vm_compute; try reflexivity; try discriminate.

(** C1, evaluated on the code.  When [tick] is called with the outcome
    unsettled, an empty queue, tasks in flight and room below the ceiling,
    it does not stop: it pops [undefined] off the empty array, increments
    [activeCount], schedules [undefined.exec] and calls itself again.  So
    it never returns the state unchanged, and without a ceiling it never
    returns at all. *)
Theorem tick_launches_from_empty_queue W parallelism d (s : state W) :
  completed s = false -> queue s = [] -> 0 < activeCount s ->
  below_ceiling parallelism s ->
  tick parallelism (S d) s = tick parallelism d (launch None [] s)
  /\ tick parallelism (S d) s <> Some s
  /\ (parallelism = 0 -> tick parallelism (S d) s = None).
Proof.
  intros Ec Eq Ha Hb.
  assert (E : tick parallelism (S d) s = tick parallelism d (launch None [] s)).
  { rewrite tick_launch_step; auto.
    - now rewrite Eq.
    - intros [E _]. lia. }
  split; [exact E|]. split.
  - rewrite E. intros H. apply tick_activeCount_grows in H. simpl in H. lia.
  - intros Hp. apply tick_unbounded_diverges; auto.
Qed.

Lemma tick_launches_from_empty_queue_witness :
  completed Samples.state_after_first_launch = false
  /\ queue Samples.state_after_first_launch = []
  /\ 0 < activeCount Samples.state_after_first_launch
  /\ below_ceiling 2 Samples.state_after_first_launch
  /\ tick 2 2 Samples.state_after_first_launch = Some Samples.state_after_second_launch
  /\ tick 2 2 Samples.state_after_first_launch
     = tick 2 1 (launch None [] Samples.state_after_first_launch)
  /\ tick 2 2 Samples.state_after_first_launch <> Some Samples.state_after_first_launch
  /\ (2 = 0 -> tick 2 2 Samples.state_after_first_launch = None).
Proof.
  assert (B : below_ceiling 2 Samples.state_after_first_launch)
    by (right; reflexivity).
  do 3 (split; [reflexivity|]). split; [exact B|]. split; [reflexivity|].
  apply (tick_launches_from_empty_queue unit 2 1 Samples.state_after_first_launch);
    try reflexivity; exact B.
Defined.

(** C2, evaluated on the code.  On the tree with one file of 100 bytes and
    one empty subdirectory, [parallelism = 1] ends with the report
    (1 file, 2 directories, 100 bytes); [parallelism = 2] ends rejected
    with the [TypeError] of [undefined.exec] and no report; and with
    [parallelism = 0] the first call of [tick] never returns. *)
Theorem report_depends_on_parallelism :
  (exists s : state unit,
      diskUsage Samples.small_tree [] 1 None 2 20 [] tt = Some s
      /\ idle s = true /\ resultPromise s = Fulfilled
      /\ r_files (result s) = 1 /\ r_directories (result s) = 2
      /\ r_size (result s) = 100)
  /\ (exists s : state unit,
         diskUsage Samples.small_tree [] 2 None 3 20 [] tt = Some s
         /\ idle s = true /\ resultPromise s = Rejected TypeError)
  /\ (forall d n sched,
         diskUsage Samples.small_tree [] 0 (@None (callback unit)) d n sched tt = None).
Proof.
  split; [|split].
  - exists_result (diskUsage Samples.small_tree [] 1 None 2 20 [] tt).
    repeat split; by_evaluation.
  - exists_result (diskUsage Samples.small_tree [] 2 None 3 20 [] tt).
    repeat split; by_evaluation.
  - intros d n sched. unfold diskUsage. now rewrite start_unbounded_diverges.
Qed.

(** C3, evaluated on the code.  A run ends with a report only under
    [parallelism = 1].  With [parallelism = 0] the synchronous part of
    [diskUsage] does not return, at any depth of the stack; with a ceiling
    of two or more no state the run reaches is fulfilled. *)
Theorem no_report_unless_serial
  W fs path parallelism debugLog d n sched (w : W) :
  (parallelism = 0 ->
   diskUsage fs path parallelism debugLog d n sched w = None)
  /\ (2 <= parallelism ->
      forall s, diskUsage fs path parallelism debugLog d n sched w = Some s ->
                resultPromise s <> Fulfilled).
Proof.
  split.
  - intros Hp. subst. unfold diskUsage. now rewrite start_unbounded_diverges.
  - intros Hp s H. eapply never_fulfilled_above_one; eauto.
Qed.

Lemma no_report_unless_serial_witness :
  diskUsage Samples.deeper_tree [] 0 (@None (callback unit)) 200 50 [] tt = None
  /\ exists s : state unit,
      diskUsage Samples.deeper_tree [] 3 None 4 20 [] tt = Some s
      /\ idle s = true
      /\ resultPromise s = Rejected TypeError
      /\ resultPromise s <> Fulfilled.
Proof.
  split.
  - apply (no_report_unless_serial unit Samples.deeper_tree [] 0 None 200 50 [] tt).
    reflexivity.
  - exists_result (diskUsage Samples.deeper_tree [] 3 None 4 20 [] tt).
    do 3 (split; [by_evaluation|]).
    apply (no_report_unless_serial unit Samples.deeper_tree [] 3 None 4 20 [] tt);
      [lia|by_evaluation].
Defined.

(** C4.  In every run the outcome is settled at most once.  At every
    state a call of [diskUsage] reaches, whatever the ceiling (none
    included) and whether or not a call of [tick] has used up the stack,
    [completed] is set exactly when [resultPromise] is settled, and from
    then on: a call of [tick] returns at once and changes nothing; the
    error handler of a task that fails later only decrements
    [activeCount] and leaves the outcome, the queue and the report as they
    are; and however the run continues, the outcome stays the one that was
    settled first. *)
Theorem outcome_settles_once
  W fs path parallelism debugLog d k n sched (w : W) :
  let s := reached fs path parallelism debugLog d k n sched w in
  (completed s = true <-> resultPromise s <> Pending)
  /\ (resultPromise s <> Pending ->
      (forall j, tick parallelism (S j) s = Some s)
      /\ (forall j err,
             run_job_state parallelism j (JCatch err) s
             = with_activeCount (activeCount s - 1) s)
      /\ (forall j m sched',
             resultPromise (turns fs parallelism debugLog j m sched' s) = resultPromise s
             /\ completed (turns fs parallelism debugLog j m sched' s) = true)
      /\ (forall j m sched' s',
             run fs parallelism debugLog j m sched' s = Some s' ->
             resultPromise s' = resultPromise s /\ completed s' = true)).
Proof.
  intros s. pose proof (Inv_reached W fs path parallelism debugLog d k n sched w) as I.
  fold s in I. destruct I as [_ _ Hf _].
  split; [exact Hf|]. intros Hs. assert (Hc : completed s = true) by now apply Hf.
  assert (T : forall j m sched',
             resultPromise (turns fs parallelism debugLog j m sched' s) = resultPromise s
             /\ completed (turns fs parallelism debugLog j m sched' s) = true).
  { intros j m sched'.
    destruct (turns_after_completion W fs parallelism debugLog j m sched' s Hc)
      as (C & P & _).
    split; assumption. }
  split; [|split; [|split]].
  - intros j. now apply tick_completed.
  - intros j err. simpl. now rewrite Hc.
  - exact T.
  - intros j m sched' s' Hr.
    rewrite <- (run_is_turns W fs parallelism debugLog j m sched' s s' Hr). apply T.
Qed.

(** C4 at work without a ceiling: the synchronous part has used up a
    stack of four frames, the first call of [undefined.exec] has rejected
    [resultPromise], and the outcome stays that one. *)
Lemma outcome_settles_once_witness :
  let s := reached Samples.small_tree [] 0 (@None (callback unit)) 4 4 6 [] tt in
  overflows [] 0 4 tt = true
  /\ resultPromise s = Rejected TypeError
  /\ (completed s = true <-> resultPromise s <> Pending)
  /\ (resultPromise s <> Pending ->
      (forall j, tick 0 (S j) s = Some s)
      /\ (forall j err,
             run_job_state 0 j (JCatch err) s = with_activeCount (activeCount s - 1) s)
      /\ (forall j m sched',
             resultPromise (turns Samples.small_tree 0 None j m sched' s) = resultPromise s
             /\ completed (turns Samples.small_tree 0 None j m sched' s) = true)
      /\ (forall j m sched' s',
             run Samples.small_tree 0 None j m sched' s = Some s' ->
             resultPromise s' = resultPromise s /\ completed s' = true)).
Proof.
  split; [reflexivity|]. split; [reflexivity|].
  exact (outcome_settles_once unit Samples.small_tree [] 0 None 4 4 6 [] tt).
Defined.

(** C5.  At every state a call of [diskUsage] reaches, whatever the
    ceiling (none included) and whether or not a call of [tick] has used
    up the stack, [activeCount] is exactly the number of launched tasks
    whose handler has not run yet (so it is never negative and every
    decrement answers an earlier increment), and under a positive
    [parallelism] it never exceeds [parallelism]: at the ceiling [tick]
    returns without launching. *)
Theorem active_count_within_ceiling
  W fs path parallelism debugLog d k n sched (w : W) :
  let s := reached fs path parallelism debugLog d k n sched w in
  0 <= activeCount s
  /\ activeCount s = Z.of_nat (List.length (microtasks s) + List.length (pendingIO s))
  /\ (0 < parallelism ->
      activeCount s <= parallelism
      /\ forall j (s0 : state W),
          parallelism <= activeCount s0 ->
          tick parallelism (S j) s0 = Some s0 /\ tick_state parallelism j s0 = s0).
Proof.
  intros s. pose proof (Inv_reached W fs path parallelism debugLog d k n sched w) as I.
  fold s in I. destruct I as [Hc Hl _ _].
  split; [lia|]. split; [assumption|]. intros Hp. split; [auto|].
  intros j s0 Hs. split; [|now apply tick_state_at_ceiling].
  rewrite tick_unfold. destruct (completed s0); [reflexivity|].
  destruct (Z.eqb_spec parallelism 0); [lia|].
  destruct (Z.leb_spec parallelism (activeCount s0)); [reflexivity|lia].
Qed.

(** C5 at work without a ceiling: on a stack of four frames the
    synchronous part launches four tasks before it throws; two turns
    later the stat of the root is in flight and three reactions are
    queued. *)
Lemma active_count_within_ceiling_witness :
  let s := reached Samples.deeper_tree [] 0 (@None (callback unit)) 4 4 2 [] tt in
  overflows [] 0 4 tt = true
  /\ activeCount s = 4
  /\ 0 <= activeCount s
  /\ activeCount s = Z.of_nat (List.length (microtasks s) + List.length (pendingIO s))
  /\ (0 < 0 ->
      activeCount s <= 0
      /\ forall j (s0 : state unit),
          0 <= activeCount s0 -> tick 0 (S j) s0 = Some s0 /\ tick_state 0 j s0 = s0).
Proof.
  split; [reflexivity|]. split; [reflexivity|].
  exact (active_count_within_ceiling unit Samples.deeper_tree [] 0 None 4 4 2 [] tt).
Defined.

(** C6, as the code has it.  On a directory holding exactly one regular
    file of 100 bytes and one empty subdirectory, every successful run
    reports one file, 100 bytes and two directories: the subdirectory and
    the root itself. *)
Theorem one_file_one_subdirectory
  W fs path parallelism debugLog d n sched (w : W) s file sub :
  Fs.well_formed fs = true ->
  Fs.resolve fs path = inl (Fs.Dir [(file, Fs.File 100); (sub, Fs.Dir [])])
  \/ Fs.resolve fs path = inl (Fs.Dir [(sub, Fs.Dir []); (file, Fs.File 100)]) ->
  diskUsage fs path parallelism debugLog d n sched w = Some s ->
  resultPromise s = Fulfilled ->
  r_files (result s) = 1 /\ r_directories (result s) = 2 /\ r_size (result s) = 100.
Proof.
  intros Hw Hr H E.
  pose proof (fulfilled_totals W fs path parallelism debugLog Hw d n sched w s H E) as T.
  pose proof (T Files) as TF. pose proof (T Directories) as TD. pose proof (T Size) as TS.
  unfold expected, op_weight in TF, TD, TS. simpl in TF, TD, TS.
  destruct Hr as [Hr|Hr]; rewrite Hr in TF, TD, TS; simpl in TF, TD, TS; auto.
Qed.

Lemma one_file_one_subdirectory_witness :
  exists s : state unit,
    Fs.well_formed Samples.small_tree = true
    /\ (Fs.resolve Samples.small_tree []
        = inl (Fs.Dir [("a.txt"%string, Fs.File 100); ("sub"%string, Fs.Dir [])])
        \/ Fs.resolve Samples.small_tree []
           = inl (Fs.Dir [("sub"%string, Fs.Dir []); ("a.txt"%string, Fs.File 100)]))
    /\ diskUsage Samples.small_tree [] 1 None 2 20 [] tt = Some s
    /\ resultPromise s = Fulfilled
    /\ r_files (result s) = 1 /\ r_directories (result s) = 2 /\ r_size (result s) = 100.
Proof.
  exists_result (diskUsage Samples.small_tree [] 1 None 2 20 [] tt).
  split; [by_evaluation|]. split; [left; reflexivity|]. do 2 (split; [by_evaluation|]).
  apply (one_file_one_subdirectory unit Samples.small_tree [] 1 None 2 20 [] tt _
           "a.txt"%string "sub"%string); try (left; reflexivity); by_evaluation.
Defined.

(** C6 as stated fails: the successful run with [parallelism = 1] on such
    a tree reports two directories, not one. *)
Lemma one_file_one_subdirectory_not_one_directory :
  exists s : state unit,
    diskUsage Samples.small_tree [] 1 None 2 20 [] tt = Some s
    /\ idle s = true
    /\ resultPromise s = Fulfilled
    /\ r_files (result s) = 1 /\ r_size (result s) = 100
    /\ r_directories (result s) = 2
    /\ r_directories (result s) <> 1.
Proof.
  exists_result (diskUsage Samples.small_tree [] 1 None 2 20 [] tt).
  repeat split; by_evaluation.
Qed.




(** C8.  When the error handler of a failed task runs (the handler is the
    oldest microtask of a state a call of [diskUsage] has reached,
    whatever the ceiling, none included, and whether or not a call of
    [tick] has used up the stack), it decrements [activeCount], rejects
    [resultPromise] with that error if and only if the promise is still
    pending, sets [completed], and schedules nothing: queue, pending calls
    and report are untouched and no microtask is added.  From then on
    nothing is launched any more, whatever the remaining tasks do. *)
Theorem task_failure_stops_scheduling
  W fs path parallelism debugLog d k n sched (w : W) s err js :
  s = reached fs path parallelism debugLog d k n sched w ->
  microtasks s = JCatch err :: js ->
  forall j i, exists s1,
    turn fs parallelism debugLog j i s = Some s1
    /\ loop_step fs parallelism debugLog j i s = Some s1
    /\ activeCount s1 = activeCount s - 1
    /\ completed s1 = true
    /\ resultPromise s1
       = match resultPromise s with Pending => Rejected err | p => p end
    /\ queue s1 = queue s /\ microtasks s1 = js
    /\ pendingIO s1 = pendingIO s /\ result s1 = result s
    /\ (forall m sched',
          nothing_launched s1 (turns fs parallelism debugLog j m sched' s1))
    /\ (forall m sched' s2,
          run fs parallelism debugLog j m sched' s1 = Some s2 -> nothing_launched s1 s2).
Proof.
  intros Es Em j i.
  pose proof (Inv_reached W fs path parallelism debugLog d k n sched w) as I.
  rewrite <- Es in I. destruct I as [_ _ Hf _].
  unfold turn, loop_step. rewrite Em. simpl.
  destruct (completed s) eqn:Ec.
  - eexists. split; [reflexivity|]. split; [reflexivity|]. simpl.
    do 2 (split; [auto|]). split; [|do 4 (split; [reflexivity|]); split].
    + destruct (resultPromise s) eqn:Ep; auto.
      exfalso. apply Hf; auto.
    + intros m sched'. apply turns_after_completion. exact Ec.
    + intros m sched' s2. apply run_after_completion. exact Ec.
  - eexists. split; [reflexivity|]. split; [reflexivity|]. simpl.
    do 2 (split; [auto|]). split; [|do 4 (split; [reflexivity|]); split].
    + destruct (resultPromise s) eqn:Ep; auto;
        assert (false = true) by (apply Hf; discriminate); discriminate.
    + intros m sched'. apply turns_after_completion. reflexivity.
    + intros m sched' s2. apply run_after_completion. reflexivity.
Qed.

(** C8 at work without a ceiling: the synchronous part has used up a
    stack of three frames, the three reactions it had scheduled have run,
    and the error handler of the first call of [undefined.exec] is next. *)
Lemma task_failure_stops_scheduling_witness :
  exists s s1 : state unit,
    s = reached Samples.small_tree [] 0 None 3 3 3 [] tt
    /\ overflows (W := unit) [] 0 3 tt = true
    /\ microtasks s = [JCatch TypeError; JCatch TypeError]
    /\ turn Samples.small_tree 0 None 3 0 s = Some s1
    /\ loop_step Samples.small_tree 0 None 3 0 s = Some s1
    /\ activeCount s1 = activeCount s - 1
    /\ completed s1 = true
    /\ resultPromise s1
       = match resultPromise s with Pending => Rejected TypeError | p => p end
    /\ queue s1 = queue s /\ microtasks s1 = [JCatch TypeError]
    /\ pendingIO s1 = pendingIO s /\ result s1 = result s
    /\ (forall m sched',
          nothing_launched s1 (turns Samples.small_tree 0 None 3 m sched' s1))
    /\ (forall m sched' s2,
          run Samples.small_tree 0 None 3 m sched' s1 = Some s2 -> nothing_launched s1 s2).
Proof.
  exists (reached Samples.small_tree [] 0 None 3 3 3 [] tt).
  destruct (task_failure_stops_scheduling unit Samples.small_tree [] 0 None 3 3 3 [] tt
              _ TypeError [JCatch TypeError] eq_refl eq_refl 3%nat 0%nat) as (s1 & K).
  exists s1. split; [reflexivity|]. split; [reflexivity|]. split; [reflexivity|]. exact K.
Defined.




(** C10.  When [path] is a directory and the run succeeds, the report's
    [directories] is the number of directories of the tree below [path],
    the root itself included; in particular it is at least 1. *)
Theorem root_directory_is_counted
  W fs path parallelism debugLog d n sched (w : W) s es :
  Fs.well_formed fs = true ->
  Fs.resolve fs path = inl (Fs.Dir es) ->
  diskUsage fs path parallelism debugLog d n sched w = Some s ->
  resultPromise s = Fulfilled ->
  r_directories (result s) = count_directories (Fs.Dir es)
  /\ 1 <= r_directories (result s).
Proof.
  intros Hw Hr H E.
  pose proof (fulfilled_totals W fs path parallelism debugLog Hw d n sched w s H E
                Directories) as T.
  unfold expected, op_weight in T. simpl in T. rewrite Hr in T.
  split; [exact T|]. rewrite T, (measure_Dir Directories).
  assert (K : 0 <= sum_of (fun e => measure Directories (snd e)) es).
  { clear. induction es as [|[nm c] r IH]; [simpl; lia|].
    pose proof (count_directories_nonneg c).
    change (0 <= count_directories c + sum_of (fun e => measure Directories (snd e)) r).
    lia. }
  lia.
Qed.

Lemma root_directory_is_counted_witness :
  exists s : state unit,
    Fs.well_formed Samples.deeper_tree = true
    /\ Fs.resolve Samples.deeper_tree [] = inl Samples.deeper_tree
    /\ diskUsage Samples.deeper_tree [] 1 None 2 40 [] tt = Some s
    /\ resultPromise s = Fulfilled
    /\ r_directories (result s) = count_directories Samples.deeper_tree
    /\ 1 <= r_directories (result s).
Proof.
  exists_result (diskUsage Samples.deeper_tree [] 1 None 2 40 [] tt).
  do 4 (split; [by_evaluation|]).
  apply (root_directory_is_counted unit Samples.deeper_tree [] 1 None 2 40 [] tt);
    by_evaluation.
Defined.

(** * Further properties of the code *)

(** ** [diskUsage] *)





(** X3.  The root need not be a directory: run with [parallelism = 1] on
    the path of a regular file, [diskUsage] succeeds after three turns and
    reports that one file. *)
Theorem root_may_be_a_regular_file
  W fs path debugLog sched (w : W) bytes :
  Fs.well_formed fs = true ->
  (forall cb, debugLog = Some cb -> returns_normally cb) ->
  Fs.resolve fs path = inl (Fs.File bytes) ->
  exists s,
    diskUsage fs path 1 debugLog 2 3 sched w = Some s
    /\ idle s = true /\ resultPromise s = Fulfilled
    /\ r_files (result s) = 1 /\ r_directories (result s) = 0
    /\ r_size (result s) = bytes.
Proof.
  intros Hw Hq Hr.
  destruct (serial_run_succeeds W fs path debugLog sched w _ Hw Hq Hr)
    as (s & H & Hi & Hf & Tf & Td & Ts).
  exists s. auto 10.
Qed.

Lemma root_may_be_a_regular_file_witness :
  Fs.well_formed Samples.deeper_tree = true
  /\ (forall cb, @None (callback unit) = Some cb -> returns_normally cb)
  /\ Fs.resolve Samples.deeper_tree ["d"; "b"]%string = inl (Fs.File 20)
  /\ exists s,
      diskUsage Samples.deeper_tree ["d"; "b"]%string 1 None 2 3 [] tt = Some s
      /\ idle s = true /\ resultPromise s = Fulfilled
      /\ r_files (result s) = 1 /\ r_directories (result s) = 0
      /\ r_size (result s) = 20.
Proof.
  assert (Q : forall cb, @None (callback unit) = Some cb -> returns_normally cb)
    by discriminate.
  split; [reflexivity|]. split; [exact Q|]. split; [reflexivity|].
  exact (root_may_be_a_regular_file unit Samples.deeper_tree ["d"; "b"]%string
           None [] tt 20 eq_refl Q eq_refl).
Defined.



(** X5.  The counters of the report only grow: from any state, however
    the run goes on, [files] and [directories] never decrease, and neither
    does [size] when no file of the tree has a negative size. *)
Theorem counters_never_decrease
  W fs parallelism debugLog d n sched (s s' : state W) :
  run fs parallelism debugLog d n sched s = Some s' ->
  r_files (result s) <= r_files (result s')
  /\ r_directories (result s) <= r_directories (result s')
  /\ (sizes_nonneg fs = true -> r_size (result s) <= r_size (result s')).
Proof.
  intros H. apply run_report in H. destruct H as (_ & (H1 & H2) & H3). auto.
Qed.

Lemma counters_never_decrease_witness :
  exists s s' : state unit,
    diskUsage Samples.deeper_tree [] 1 None 2 12 [] tt = Some s
    /\ run Samples.deeper_tree 1 None 2 9 [] s = Some s'
    /\ (r_files (result s), r_directories (result s), r_size (result s)) = (1, 2, 5)
    /\ (r_files (result s'), r_directories (result s'), r_size (result s')) = (1, 3, 5)
    /\ r_files (result s) <= r_files (result s')
    /\ r_directories (result s) <= r_directories (result s')
    /\ (sizes_nonneg Samples.deeper_tree = true ->
        r_size (result s) <= r_size (result s')).
Proof.
  exists_result (diskUsage Samples.deeper_tree [] 1 None 2 12 [] tt).
  exists_result (diskUsage Samples.deeper_tree [] 1 None 2 21 [] tt).
  do 4 (split; [by_evaluation|]).
  apply (counters_never_decrease unit Samples.deeper_tree 1 None 2 9 []).
  by_evaluation.
Defined.

(** X6.  A negative [parallelism] stops everything: the very first call
    of [tick] returns at the ceiling test, nothing is ever launched, the
    seeded stat stays in the queue and the promise stays pending for
    ever. *)
Theorem negative_parallelism_never_settles
  W fs path parallelism debugLog d n sched (w : W) :
  parallelism < 0 ->
  diskUsage fs path parallelism debugLog (S d) n sched w
  = Some (enqueueStat path (initial path parallelism w))
  /\ forall s, diskUsage fs path parallelism debugLog (S d) n sched w = Some s ->
               resultPromise s = Pending /\ idle s = true /\ activeCount s = 0
               /\ queue s = [mk_op path ExecStat].
Proof.
  intros Hp.
  assert (E : diskUsage fs path parallelism debugLog (S d) n sched w
              = Some (enqueueStat path (initial path parallelism w))).
  { unfold diskUsage, start. rewrite tick_unfold. simpl.
    destruct (Z.eqb_spec parallelism 0); [lia|].
    destruct (Z.leb_spec parallelism 0); [|lia]. simpl.
    destruct n; reflexivity. }
  split; [exact E|]. intros s H. rewrite E in H. inversion H; subst. auto.
Qed.

Lemma negative_parallelism_never_settles_witness :
  -1 < 0
  /\ diskUsage Samples.small_tree [] (-1) (@None (callback unit)) 1 50 [] tt
     = Some (enqueueStat [] (initial [] (-1) tt))
  /\ forall s, diskUsage Samples.small_tree [] (-1) (@None (callback unit)) 1 50 [] tt
               = Some s ->
               resultPromise s = Pending /\ idle s = true /\ activeCount s = 0
               /\ queue s = [mk_op [] ExecStat].
Proof.
  split; [lia|].
  apply (negative_parallelism_never_settles unit Samples.small_tree [] (-1) None
           0 50 [] tt).
  lia.
Defined.

(** X7.  With a ceiling of two or more the caller only ever sees the
    [TypeError] of [undefined.exec]: at every state a run reaches the
    promise is pending or rejected with it, whatever the filesystem says;
    and given a stack of [parallelism + 1] frames and [2 * parallelism + 1]
    turns of the event loop, or more, the run has come to rest, rejected
    with it. *)
Theorem ceiling_above_one_ends_in_TypeError
  W fs path parallelism debugLog :
  2 <= parallelism ->
  (forall d n sched (w : W) s,
      diskUsage fs path parallelism debugLog d n sched w = Some s ->
      resultPromise s = Pending \/ resultPromise s = Rejected TypeError)
  /\ (forall sched (w : W), exists s,
         (forall d n,
             (Z.to_nat parallelism + 1 <= d)%nat ->
             (2 * Z.to_nat parallelism + 1 <= n)%nat ->
             diskUsage fs path parallelism debugLog d n sched w = Some s)
         /\ idle s = true /\ resultPromise s = Rejected TypeError
         /\ activeCount s = 0).
Proof.
  intros Hp. split.
  - intros d n sched w s H.
    apply (Masked_diskUsage W fs path parallelism debugLog Hp) in H.
    destruct H as [[_ E]|(_ & E & _)]; auto.
  - intros sched w.
    destruct (overcommitted_run W fs path parallelism debugLog Hp
                (Z.to_nat (parallelism - 2)) sched w)
      as (s & H & Hi & Hr & _ & Ha); [lia|].
    exists s. split; [|auto]. intros d n Hd Hn.
    eapply diskUsage_more; eauto; lia.
Qed.

Lemma ceiling_above_one_ends_in_TypeError_witness :
  2 <= 3
  /\ (forall d n sched (w : unit) s,
         diskUsage Samples.small_tree ["missing"%string] 3 None d n sched w = Some s ->
         resultPromise s = Pending \/ resultPromise s = Rejected TypeError)
  /\ (forall sched (w : unit), exists s,
         (forall d n, (3 + 1 <= d)%nat -> (2 * 3 + 1 <= n)%nat ->
                      diskUsage Samples.small_tree ["missing"%string] 3 None d n sched w
                      = Some s)
         /\ idle s = true /\ resultPromise s = Rejected TypeError
         /\ activeCount s = 0).
Proof.
  split; [lia|].
  apply (ceiling_above_one_ends_in_TypeError unit Samples.small_tree
           ["missing"%string] 3 None).
  lia.
Defined.

(** X8.  Every operation that completes calls the debug callback exactly
    once: when a run with a callback that returns normally succeeds, the
    callback has been called once for every entry of the tree and once
    more for every directory.  The calls are counted by any [calls] that
    each call of the callback increments. *)
Theorem callback_called_once_per_operation
  W fs path parallelism (cb : callback W) (calls : W -> Z) d n sched w s node :
  Fs.well_formed fs = true ->
  returns_normally cb ->
  (forall kind p info x, calls (fst (cb kind p info x)) = calls x + 1) ->
  Fs.resolve fs path = inl node ->
  diskUsage fs path parallelism (Some cb) d n sched w = Some s ->
  resultPromise s = Fulfilled ->
  calls (world s) = calls w + visits node.
Proof.
  intros Hw Hq Hc Hr H E.
  rewrite (fulfilled_calls W fs path parallelism (Some cb) cb calls w Hw eq_refl Hq Hc
             d n sched s H E).
  unfold op_visits. simpl. now rewrite Hr.
Qed.

Lemma callback_called_once_per_operation_witness :
  exists s,
    Fs.well_formed Samples.deeper_tree = true
    /\ returns_normally Samples.logger
    /\ (forall kind p info x,
           Z.of_nat (List.length (fst (Samples.logger kind p info x)))
           = Z.of_nat (List.length x) + 1)
    /\ Fs.resolve Samples.deeper_tree [] = inl Samples.deeper_tree
    /\ diskUsage Samples.deeper_tree [] 1 (Some Samples.logger) 2 30 [] [] = Some s
    /\ resultPromise s = Fulfilled
    /\ Z.of_nat (List.length (world s)) = Z.of_nat 0 + 10.
Proof.
  assert (Q : returns_normally Samples.logger) by (intros kind p info w; reflexivity).
  assert (C : forall kind p info x,
             Z.of_nat (List.length (fst (Samples.logger kind p info x)))
             = Z.of_nat (List.length x) + 1).
  { intros kind p info x. unfold Samples.logger. simpl. rewrite length_app. simpl. lia. }
  exists_result (diskUsage Samples.deeper_tree [] 1 (Some Samples.logger) 2 30 [] []).
  split; [reflexivity|]. split; [exact Q|]. split; [exact C|].
  split; [reflexivity|]. split; [by_evaluation|]. split; [by_evaluation|].
  apply (callback_called_once_per_operation _ Samples.deeper_tree [] 1 Samples.logger
           (fun x => Z.of_nat (List.length x)) 2 30 [] [] _ Samples.deeper_tree
           eq_refl Q C eq_refl); by_evaluation.
Defined.





(** ** [experiment] *)

(** X10.  What [experiment] accepts as its [--parallelisms] option: one
    value for each piece of the option between two spaces, so never an
    empty list; and every value is an integer from zero on or
    [Infinity], never [NaN], never a negative number. *)
Theorem accepted_parallelisms given values :
  Experiment.parallelisms given = inl values ->
  values <> []
  /\ List.length values = S (count_spaces given)
  /\ Forall accepted values.
Proof.
  intros H. destruct (parallelisms_accepts given values H) as (Hn & Hl & Ha).
  split; [exact Hn|]. split; [exact Hl|exact Ha].
Qed.

(** Digits after the number are ignored, a sign is read, and an integer
    of more than 53 bits is rounded as every number is. *)
Lemma accepted_parallelisms_witness :
  Experiment.parallelisms "12abc +7 -0 9007199254740993"
  = inl [Js.Integer 12; Js.Integer 7; Js.Integer 0; Js.Integer 9007199254740992]
  /\ [Js.Integer 12; Js.Integer 7; Js.Integer 0; Js.Integer 9007199254740992] <> []
  /\ List.length [Js.Integer 12; Js.Integer 7; Js.Integer 0;
                  Js.Integer 9007199254740992]
     = S (count_spaces "12abc +7 -0 9007199254740993")
  /\ Forall accepted
            [Js.Integer 12; Js.Integer 7; Js.Integer 0; Js.Integer 9007199254740992].
Proof.
  split; [vm_compute; reflexivity|].
  apply (accepted_parallelisms "12abc +7 -0 9007199254740993"
           [Js.Integer 12; Js.Integer 7; Js.Integer 0; Js.Integer 9007199254740992]).
  vm_compute. reflexivity.
Defined.

(** X11.  The option reads back what the program prints: a non-empty list
    of non-negative integers (below 2^53, where [parseInt] is exact),
    written in decimal, which is how the first line of the output shows
    them, and joined by single spaces, is accepted and parsed to the same
    list. *)
Theorem parallelisms_read_back values :
  values <> [] ->
  Forall (fun v => 0 <= v < 2 ^ 53) values ->
  Experiment.parallelisms (Js.join (map string_of_Z values))
  = inl (map Js.Integer values)
  /\ map Js.to_string (map Js.Integer values) = map string_of_Z values.
Proof.
  intros Hn H.
  assert (H0 : Forall (fun v => 0 <= v) values)
    by (eapply Forall_impl; [|exact H]; simpl; intros; lia).
  split.
  - unfold Experiment.parallelisms.
    rewrite split_join_numbers by assumption. now apply map_items_numbers.
  - clear Hn H0. induction H as [|v r Hv _ IH]; [reflexivity|].
    cbn [map]. now rewrite IH, to_string_small.
Qed.

Lemma parallelisms_read_back_witness :
  [1; 20; 0; 345] <> []
  /\ Forall (fun v => 0 <= v < 2 ^ 53) [1; 20; 0; 345]
  /\ Experiment.parallelisms (Js.join (map string_of_Z [1; 20; 0; 345]))
     = inl (map Js.Integer [1; 20; 0; 345])
  /\ map Js.to_string (map Js.Integer [1; 20; 0; 345]) = map string_of_Z [1; 20; 0; 345].
Proof.
  assert (N : [1; 20; 0; 345] <> []) by discriminate.
  assert (F : Forall (fun v => 0 <= v < 2 ^ 53) [1; 20; 0; 345])
    by (repeat constructor; vm_compute; discriminate).
  split; [exact N|]. split; [exact F|].
  exact (parallelisms_read_back [1; 20; 0; 345] N F).
Defined.

(** X12.  An empty piece is not skipped but rejected: two spaces in a row,
    a space at the start or at the end, or an empty option make
    [experiment] throw its [Invalid parallelism value] message instead of
    running anything. *)
Theorem empty_item_is_rejected :
  (forall a b, exists message,
      Experiment.parallelisms (a ++ "  " ++ b) = inr message)
  /\ (forall b, exists message, Experiment.parallelisms (" " ++ b) = inr message)
  /\ (forall a, exists message, Experiment.parallelisms (a ++ " ") = inr message)
  /\ Experiment.parallelisms "" = inr "Invalid parallelism value: "%string.
Proof.
  assert (K : forall given, In EmptyString (Js.split given) ->
                            exists message, Experiment.parallelisms given = inr message).
  { intros given Hi. unfold Experiment.parallelisms.
    eapply map_items_rejects; [exact Hi|reflexivity]. }
  split; [|split; [|split]].
  - intros a b. apply K.
    change (a ++ "  " ++ b)%string with (a ++ String " " (String " " b))%string.
    rewrite split_app. apply in_or_app. right. simpl. now left.
  - intros b. apply K. simpl. now left.
  - intros a. apply K.
    change (a ++ " ")%string with (a ++ String " " EmptyString)%string.
    rewrite split_app. apply in_or_app. right. simpl. now left.
  - reflexivity.
Qed.

(** X13.  Given only ones, the experiment completes: on a path that names
    a tree of files, directories and other entries, each run is awaited
    and succeeds, the line of each run ends with [max active: 0], and
    after [Done] the table has one row per run.  The first line shows the
    path as it was given. *)
Theorem serial_experiment_completes
  fs given raw path d n schedule duration values node :
  Fs.well_formed fs = true ->
  Fs.resolve fs path = inl node ->
  (2 <= d)%nat -> (3 * Z.to_nat (visits node) <= n)%nat ->
  Experiment.parallelisms given = inl values ->
  Forall (eq (Js.Integer 1)) values ->
  Experiment.main fs given raw path d n schedule duration
  = Some ((Experiment.announce raw values
           ++ serial_lines duration 0 (List.length values)
           ++ "Done" ++ Js.newline ++ Js.newline ++ Js.newline
           ++ Experiment.table (serial_rows duration 0 (List.length values)))%string,
          Experiment.Returns).
Proof.
  intros Hw Hr Hd Hn Hp Ho. unfold Experiment.main. rewrite Hp.
  assert (E : values = repeat (Js.Integer 1) (List.length values)).
  { clear Hp. induction Ho as [|v r Hv _ IH]; simpl; [reflexivity|].
    now rewrite <- Hv, <- IH. }
  rewrite E at 1.
  rewrite <- (app_nil_r (repeat (Js.Integer 1) (List.length values))).
  rewrite (loop_serial fs path d n schedule duration node Hw Hr Hd Hn).
  cbn [Experiment.loop app]. now rewrite string_app_assoc.
Qed.

Lemma serial_experiment_completes_witness :
  Fs.well_formed Samples.small_tree = true
  /\ Fs.resolve Samples.small_tree [] = inl Samples.small_tree
  /\ (2 <= 2)%nat /\ (3 * Z.to_nat (visits Samples.small_tree) <= 15)%nat
  /\ Experiment.parallelisms "1 1 1" = inl [Js.Integer 1; Js.Integer 1; Js.Integer 1]
  /\ Forall (eq (Js.Integer 1)) [Js.Integer 1; Js.Integer 1; Js.Integer 1]
  /\ Experiment.main Samples.small_tree "1 1 1" "." [] 2 15 (fun _ => [])
                     (fun i => Z.of_nat i)
     = Some ((Experiment.announce "." [Js.Integer 1; Js.Integer 1; Js.Integer 1]
              ++ serial_lines (fun i => Z.of_nat i) 0 3
              ++ "Done" ++ Js.newline ++ Js.newline ++ Js.newline
              ++ Experiment.table (serial_rows (fun i => Z.of_nat i) 0 3))%string,
             Experiment.Returns).
Proof.
  assert (F : Forall (eq (Js.Integer 1)) [Js.Integer 1; Js.Integer 1; Js.Integer 1])
    by (repeat constructor).
  assert (T : (3 * Z.to_nat (visits Samples.small_tree) <= 15)%nat)
    by (vm_compute; repeat constructor).
  split; [reflexivity|]. split; [reflexivity|]. split; [lia|]. split; [exact T|].
  split; [reflexivity|]. split; [exact F|].
  exact (serial_experiment_completes Samples.small_tree "1 1 1" "." [] 2 15 (fun _ => [])
           (fun i => Z.of_nat i) [Js.Integer 1; Js.Integer 1; Js.Integer 1]
           Samples.small_tree eq_refl eq_refl (le_n 2) T eq_refl F).
Defined.

(** X14.  The first value other than one ends the experiment: the runs
    with [parallelism = 1] before it succeed, its own line stays
    unfinished after [Running with ...], and the program exits with
    status 1.  The error is the [TypeError] of [undefined.exec] when the
    value is two or more and the stack has room for one call of [tick]
    more than the value; it is the stack overflow when the stack has
    not, and for zero and [Infinity], whatever the stack.  The values
    after it are never run; with the default option, that is everything
    after the first run. *)
Theorem experiment_stops_at_first_other_value
  fs given raw path d n schedule duration k x rest node :
  Fs.well_formed fs = true ->
  Fs.resolve fs path = inl node ->
  (2 <= d)%nat ->
  (3 * Z.to_nat (visits node) <= n)%nat -> (2 * d <= n)%nat ->
  Experiment.parallelisms given = inl (repeat (Js.Integer 1) k ++ x :: rest) ->
  x <> Js.Integer 1 ->
  Experiment.main fs given raw path d n schedule duration
  = Some ((Experiment.announce raw (repeat (Js.Integer 1) k ++ x :: rest)
           ++ serial_lines duration 0 k ++ Experiment.running x)%string,
          Experiment.Exit1
            (if (ceiling_of x =? 0) || (Z.of_nat d <=? ceiling_of x)
             then StackOverflow else Rejection TypeError)).
Proof.
  intros Hw Hr Hd Hn Hn' Hp Hne. unfold Experiment.main. rewrite Hp.
  apply parallelisms_accepts in Hp. destruct Hp as (_ & _ & Hp).
  apply Forall_app_cons in Hp.
  rewrite (loop_serial fs path d n schedule duration node Hw Hr Hd Hn).
  cbn [Experiment.loop app]. rewrite string_app_assoc.
  pose proof (accepted_ceiling x Hp) as H0.
  assert (H1 : ceiling_of x <> 1) by (intros E; apply Hne; now apply accepted_serial).
  destruct (Z.eqb_spec (ceiling_of x) 0) as [E0|E0].
  - rewrite E0, await_unbounded. reflexivity.
  - rewrite await_above_one by (auto; lia). cbn [orb].
    destruct (Z.of_nat d <=? ceiling_of x); reflexivity.
Qed.

Lemma experiment_stops_at_first_other_value_witness :
  Fs.well_formed Samples.small_tree = true
  /\ Fs.resolve Samples.small_tree [] = inl Samples.small_tree
  /\ (2 <= 3)%nat
  /\ (3 * Z.to_nat (visits Samples.small_tree) <= 15)%nat
  /\ (2 * 3 <= 15)%nat
  /\ Experiment.parallelisms "1 2 3 4 5 6 7 8 9 0"
     = inl (repeat (Js.Integer 1) 1
            ++ Js.Integer 2 :: map Js.Integer [3; 4; 5; 6; 7; 8; 9; 0])
  /\ Js.Integer 2 <> Js.Integer 1
  /\ Experiment.main Samples.small_tree "1 2 3 4 5 6 7 8 9 0" "." [] 3 15 (fun _ => [])
                     (fun _ => 42)
     = Some ((Experiment.announce "." (repeat (Js.Integer 1) 1
                                       ++ Js.Integer 2
                                          :: map Js.Integer [3; 4; 5; 6; 7; 8; 9; 0])
              ++ serial_lines (fun _ => 42) 0 1
              ++ Experiment.running (Js.Integer 2))%string,
             Experiment.Exit1
               (if (ceiling_of (Js.Integer 2) =? 0)
                   || (Z.of_nat 3 <=? ceiling_of (Js.Integer 2))
                then StackOverflow else Rejection TypeError)).
Proof.
  assert (T : (3 * Z.to_nat (visits Samples.small_tree) <= 15)%nat)
    by (vm_compute; repeat constructor).
  assert (T' : (2 * 3 <= 15)%nat) by (vm_compute; repeat constructor).
  assert (D : (2 <= 3)%nat) by (repeat constructor).
  assert (N : Js.Integer 2 <> Js.Integer 1) by discriminate.
  split; [reflexivity|]. split; [reflexivity|]. split; [exact D|].
  split; [exact T|]. split; [exact T'|]. split; [vm_compute; reflexivity|].
  split; [exact N|].
  exact (experiment_stops_at_first_other_value Samples.small_tree "1 2 3 4 5 6 7 8 9 0"
           "." [] 3 15 (fun _ => []) (fun _ => 42) 1 (Js.Integer 2)
           (map Js.Integer [3; 4; 5; 6; 7; 8; 9; 0])
           Samples.small_tree eq_refl eq_refl D T T' eq_refl N).
Defined.

(** X15.  However [experiment] ends, it is never left waiting on a promise
    that does not settle; and it reaches [Done] only if the option was
    accepted and every value in it was one. *)
Theorem experiment_returns_only_after_serial_runs
  fs given raw path d n schedule duration out ending :
  Experiment.main fs given raw path d n schedule duration = Some (out, ending) ->
  ending <> Experiment.Stalls
  /\ (ending = Experiment.Returns ->
      exists values,
        Experiment.parallelisms given = inl values
        /\ Forall (eq (Js.Integer 1)) values).
Proof.
  unfold Experiment.main. intros H.
  destruct (Experiment.parallelisms given) as [values|message] eqn:Ep.
  - apply parallelisms_accepts in Ep. destruct Ep as (_ & _ & Ep). split.
    + intros ->. eapply loop_never_stalls; eauto.
    + intros ->. exists values. split; [reflexivity|].
      eapply loop_returns_serial; eauto.
  - inversion H; subst. split; [discriminate|discriminate].
Qed.

Lemma experiment_returns_only_after_serial_runs_witness :
  exists out,
    Experiment.main Samples.small_tree "1 1" "." [] 2 15 (fun _ => []) (fun _ => 42)
    = Some (out, Experiment.Returns)
    /\ Experiment.Returns <> Experiment.Stalls
    /\ (Experiment.Returns = Experiment.Returns ->
        exists values,
          Experiment.parallelisms "1 1" = inl values
          /\ Forall (eq (Js.Integer 1)) values).
Proof.
  let v := eval vm_compute in
        (Experiment.main Samples.small_tree "1 1" "." [] 2 15 (fun _ => [])
                         (fun _ => 42)) in
  match v with
  | Some (?o, _) =>
      exists o; split; [by_evaluation|];
      apply (experiment_returns_only_after_serial_runs Samples.small_tree "1 1" "." []
               2 15 (fun _ => []) (fun _ => 42) o Experiment.Returns)
  end.
  by_evaluation.
Defined.

(** ** [du] *)



(** X17.  With a parallelism that [tick] does not take as one, [du]
    writes its first line and nothing else, whatever is at the path.
    With zero (the default of the option, and what an option that is not
    a number becomes) and with [Infinity], the synchronous part overflows
    the stack; so it does with a number above one for which the stack has
    no room for as many calls of [tick] and one more; with a number above
    one and a stack that has, the promise is rejected with the
    [TypeError] of [undefined.exec] before any filesystem call has
    completed, so that not even a debug line is written.  In all these
    cases the program exits with status 1.  With a number below zero the
    promise never settles. *)
Theorem du_prints_nothing_unless_serial
  fs raw path given debug elapsed d n sched :
  ceiling_of (Js.or_zero given) <> 1 ->
  (1 <= d)%nat -> (2 * d <= n)%nat ->
  Du.main fs raw path given debug elapsed d n sched
  = Some ([Du.tallying raw (Js.or_zero given)],
          if ceiling_of (Js.or_zero given) <? 0 then Du.Stalls
          else if (ceiling_of (Js.or_zero given) =? 0)
                  || (Z.of_nat d <=? ceiling_of (Js.or_zero given))
               then Du.Exit1 StackOverflow
               else Du.Exit1 (Rejection TypeError)).
Proof.
  intros Hne Hd Hn. unfold Du.main. cbv zeta.
  destruct (Z.ltb_spec (ceiling_of (Js.or_zero given)) 0) as [Hneg|Hpos].
  - destruct d as [|d]; [lia|]. now rewrite await_negative.
  - destruct (Z.eqb_spec (ceiling_of (Js.or_zero given)) 0) as [E0|H0].
    + rewrite E0, await_unbounded. reflexivity.
    + rewrite await_above_one by (auto; lia). cbn [orb].
      destruct (Z.of_nat d <=? ceiling_of (Js.or_zero given)); reflexivity.
Qed.

(** [du --debug --parallelism 4]. *)
Lemma du_prints_nothing_unless_serial_witness :
  ceiling_of (Js.or_zero (Js.Integer 4)) <> 1 /\ (1 <= 5)%nat /\ (2 * 5 <= 10)%nat
  /\ Du.main Samples.small_tree "." [] (Js.Integer 4) true 7 5 10 []
     = Some ([Du.tallying "." (Js.or_zero (Js.Integer 4))],
             if ceiling_of (Js.or_zero (Js.Integer 4)) <? 0 then Du.Stalls
             else if (ceiling_of (Js.or_zero (Js.Integer 4)) =? 0)
                     || (Z.of_nat 5 <=? ceiling_of (Js.or_zero (Js.Integer 4)))
                  then Du.Exit1 StackOverflow
                  else Du.Exit1 (Rejection TypeError)).
Proof.
  assert (N : ceiling_of (Js.or_zero (Js.Integer 4)) <> 1) by discriminate.
  assert (D : (1 <= 5)%nat) by (repeat constructor).
  assert (T : (2 * 5 <= 10)%nat) by (vm_compute; repeat constructor).
  split; [exact N|]. split; [exact D|]. split; [exact T|].
  exact (du_prints_nothing_unless_serial Samples.small_tree "." [] (Js.Integer 4) true 7
           5 10 [] N D T).
Defined.

(** X18.  [du] always ends, and never well.  On a filesystem of files,
    directories and other entries, whatever the path (existing or not),
    the number given as parallelism, the [--debug] option and the order
    in which the filesystem answers, given a stack of two frames or more
    and enough turns of the event loop the program comes to its end, and
    that end is never the return from the callback that prints the
    report: unless the parallelism is below zero it is [process.exit(1)],
    and below zero the promise never settles. *)
Theorem du_never_returns fs raw path given debug elapsed d n sched :
  Fs.well_formed fs = true ->
  (2 <= d)%nat -> (2 * d <= n)%nat ->
  (3 * match Fs.resolve fs path with
       | inl node => Z.to_nat (visits node)
       | inr _ => 1
       end <= n)%nat ->
  exists out ending,
    Du.main fs raw path given debug elapsed d n sched = Some (out, ending)
    /\ ending <> Du.Returns
    /\ (0 <= ceiling_of (Js.or_zero given) -> exists why, ending = Du.Exit1 why)
    /\ (ceiling_of (Js.or_zero given) < 0 -> ending = Du.Stalls).
Proof.
  intros Hw Hd Hn Hv. unfold Du.main. cbv zeta.
  set (c := ceiling_of (Js.or_zero given)).
  set (cb := if debug then Some (Du.debugLog raw path) else None).
  set (first := Du.tallying raw (Js.or_zero given)).
  assert (Hq : forall k, cb = Some k -> returns_normally k).
  { intros k E. unfold cb in E. destruct debug; [|discriminate].
    inversion E; subst. apply du_debugLog_quiet. }
  destruct (Z.lt_trichotomy c 0) as [Hneg|[H0|Hpos]].
  - destruct d as [|d']; [lia|]. rewrite await_negative by exact Hneg.
    do 2 eexists. split; [reflexivity|]. split; [discriminate|].
    split; [lia|reflexivity].
  - rewrite H0, await_unbounded.
    do 2 eexists. split; [reflexivity|]. split; [discriminate|].
    split; [eauto|lia].
  - destruct (Z.eq_dec c 1) as [E1|Hne].
    + rewrite E1. destruct (Fs.resolve fs path) as [node|errno] eqn:Hr.
      * destruct (await_serial _ fs path cb sched [first] node d n Hw Hq Hr Hd Hv)
          as (s & Ea & _).
        rewrite Ea, print_report_throws.
        do 2 eexists. split; [reflexivity|]. split; [discriminate|].
        split; [eauto|lia].
      * rewrite (await_missing_root _ fs path cb errno d n sched [first] Hr Hd)
          by lia.
        do 2 eexists. split; [reflexivity|]. split; [discriminate|].
        split; [eauto|lia].
    + rewrite await_above_one by (auto; lia).
      destruct (Z.of_nat d <=? c); do 2 eexists;
        (split; [reflexivity|]); (split; [discriminate|]); (split; [eauto|lia]).
Qed.

(** [du --debug missing], with the default parallelism replaced by 1. *)
Lemma du_never_returns_witness :
  Fs.well_formed Samples.deeper_tree = true
  /\ (2 <= 2)%nat /\ (2 * 2 <= 4)%nat
  /\ (3 * match Fs.resolve Samples.deeper_tree ["missing"%string] with
          | inl node => Z.to_nat (visits node)
          | inr _ => 1
          end <= 4)%nat
  /\ exists out ending,
      Du.main Samples.deeper_tree "missing" ["missing"%string] (Js.Integer 1) true 7
              2 4 [] = Some (out, ending)
      /\ ending <> Du.Returns
      /\ (0 <= ceiling_of (Js.or_zero (Js.Integer 1)) -> exists why, ending = Du.Exit1 why)
      /\ (ceiling_of (Js.or_zero (Js.Integer 1)) < 0 -> ending = Du.Stalls).
Proof.
  assert (D : (2 * 2 <= 4)%nat) by (vm_compute; repeat constructor).
  assert (T : (3 * match Fs.resolve Samples.deeper_tree ["missing"%string] with
                   | inl node => Z.to_nat (visits node)
                   | inr _ => 1
                   end <= 4)%nat) by (vm_compute; repeat constructor).
  split; [reflexivity|]. split; [exact (le_n 2)|]. split; [exact D|]. split; [exact T|].
  exact (du_never_returns Samples.deeper_tree "missing" ["missing"%string]
           (Js.Integer 1) true 7 2 4 [] eq_refl (le_n 2) D T).
Defined.

(** X19.  The debug lines of [du] are aligned: the path is cut to 150
    characters or padded with spaces to 150, whatever its length, so that
    a line is 158 characters longer than its operation and its
    information together; a path of at most 150 characters is shown in
    full. *)
Theorem debug_line_is_aligned op path info :
  String.length (Js.padEnd 150 (Js.slice 150 path)) = 150%nat
  /\ String.length (Du.debug_line op path info)
     = (String.length op + String.length info + 158)%nat
  /\ ((String.length path <= 150)%nat ->
      Js.padEnd 150 (Js.slice 150 path)
      = (path ++ Js.spaces (150 - String.length path))%string).
Proof.
  assert (L : String.length (Js.padEnd 150 (Js.slice 150 path)) = 150%nat).
  { unfold Js.padEnd. rewrite string_length_app, spaces_length, slice_length. lia. }
  split; [exact L|]. split.
  - unfold Du.debug_line. rewrite !string_length_app, L.
    change (String.length "    ") with 4%nat. change (String.length " ") with 1%nat.
    change (String.length " [") with 2%nat. change (String.length "]") with 1%nat. lia.
  - intros H. now rewrite slice_short.
Qed.
